(** * TradeOff-Engine: the TOPSIS scoring engine and the trade-off analyzer

    A shallow embedding of [engines/TOPSISEngine.ts] and
    [analyzers/TradeOffAnalyzer.ts], with the records of [types/core.ts], and
    of the option store [managers/OptionManager.ts] with the completeness
    check of [validators/InputValidator.ts].

    The TypeScript code computes on the JavaScript [number] type.  The
    embedding is written once, over an interface [Number] of the operations
    the code uses, and is run on two instances:

    - [Float64]: IEEE-754 binary64 (Rocq's primitive floats), the arithmetic a
      JavaScript engine runs; concrete inputs are evaluated on it bit for bit;
    - [Exact]: the real numbers, that is the same program with rounding,
      overflow and NaN idealised away; the properties that quantify over all
      inputs and depend on the arithmetic are proved on it.

    Statements that need no property of the arithmetic are proved for every
    instance at once.  Two statements about the analyzer need only that [<]
    orders the binary64 numbers other than NaN and that multiplication
    commutes; both follow from the IEEE-754 specification of the primitive
    operations, and the statements are proved on [Float64].

    Conventions.  A [Map] is an association list in insertion order.  A rank
    is an integer, kept in [Z].  The text of an error message of the engine
    and of the analyzer, and of a recommendation's reasoning, is kept as the
    values its template prints; the messages of the option store and of the
    completeness check are kept as text.
    Arguments have their declared TypeScript types: no [null] where the type
    has none. *)

From Stdlib Require Import List String DecimalString ZArith Bool Arith Lia.
From Stdlib Require Import Permutation Sorted.
From Stdlib Require Import Reals Lra.
From Stdlib Require Import Floats.
Import ListNotations.

Set Implicit Arguments.

(* ================================================================== *)
(** ** The JavaScript [number] interface *)

Class Number (num : Type) : Type := {
  of_Z : Z -> num;                    (* an integer literal or an array length *)
  add : num -> num -> num;
  sub : num -> num -> num;
  mul : num -> num -> num;
  div : num -> num -> num;
  sqrt : num -> num;                  (* Math.sqrt *)
  abs : num -> num;                   (* Math.abs *)
  ltb : num -> num -> bool;           (* a < b *)
  leb : num -> num -> bool;           (* a <= b *)
  eqb : num -> num -> bool;           (* a === b *)
  isFinite : num -> bool;
  isNaN : num -> bool;
  max2 : num -> num -> num;           (* Math.max on two arguments *)
  min2 : num -> num -> num;           (* Math.min on two arguments *)
  infinity : num;
  neg_infinity : num
}.

Declare Scope js_scope.
Delimit Scope js_scope with js.
Infix "+" := add : js_scope.
Infix "-" := sub : js_scope.
Infix "*" := mul : js_scope.
Infix "/" := div : js_scope.
Infix "<?" := ltb : js_scope.
Infix "<=?" := leb : js_scope.
Infix "===" := eqb (at level 70, no associativity) : js_scope.
Notation "a >? b" := (ltb b a) (at level 70, no associativity) : js_scope.
Notation "a >=? b" := (leb b a) (at level 70, no associativity) : js_scope.

(* ================================================================== *)
(** ** Array helpers *)

Section ArrayHelpers.
Context {A B : Type}.

(** [arr.map((x, index) => f index x)] *)
Fixpoint mapi_from (f : nat -> A -> B) (k : nat) (l : list A) : list B :=
  match l with
  | [] => []
  | x :: r => f k x :: mapi_from f (S k) r
  end.

Definition mapi (f : nat -> A -> B) (l : list A) : list B := mapi_from f 0 l.
End ArrayHelpers.

(** [Array.prototype.sort(cmp)] for a comparator that answers consistently,
    as a difference of two keys does when neither key is NaN.  The sort is
    stable, and [cmp a b > 0] is the only answer that places [b] before an
    [a] that precedes it; insertion from the right is the reference stable
    sort.  When some answer is NaN the comparator is not consistent:
    ECMAScript then only promises some permutation of the array, and which
    one is up to the engine, so on such an array [sort] stands for the array
    in some order, not for the order a given engine returns. *)
Section Sort.
Context {num : Type} `{Number num} {A : Type}.
Variable cmp : A -> A -> num.

Fixpoint sort_insert (x : A) (l : list A) : list A :=
  match l with
  | [] => [x]
  | y :: r => if (cmp x y >? of_Z 0)%js then y :: sort_insert x r else x :: y :: r
  end.

Definition sort (l : list A) : list A := fold_right sort_insert [] l.
End Sort.

(* ================================================================== *)
(** ** [Map<string, V>]: keys in insertion order *)

Module JSMap.
Definition t (V : Type) : Type := list (string * V).

Section Ops.
Context {V : Type}.

Fixpoint get (m : t V) (k : string) : option V :=
  match m with
  | [] => None
  | (k', v) :: r => if String.eqb k' k then Some v else get r k
  end.

Definition has (m : t V) (k : string) : bool :=
  match get m k with Some _ => true | None => false end.

(** [set] on a present key replaces the value and keeps the position. *)
Fixpoint set (m : t V) (k : string) (v : V) : t V :=
  match m with
  | [] => [(k, v)]
  | (k', v') :: r =>
      if String.eqb k' k then (k', v) :: r else (k', v') :: set r k v
  end.

Definition keys (m : t V) : list string := List.map fst m.
Definition values (m : t V) : list V := List.map snd m.
Definition size (m : t V) : nat := List.length m.

(** [new Map(entries)] *)
Definition of_entries (l : list (string * V)) : t V :=
  fold_left (fun m kv => set m (fst kv) (snd kv)) l [].
End Ops.
End JSMap.

(** [new Set(ids)] followed by iteration: first occurrences, in order. *)
Fixpoint set_of (l : list string) : list string :=
  match l with
  | [] => []
  | x :: r => x :: filter (fun y => negb (String.eqb x y)) (set_of r)
  end.

Definition set_has (s : list string) (k : string) : bool :=
  existsb (String.eqb k) s.

(* ================================================================== *)
(** ** [types/core.ts] *)

Inductive Result (T E : Type) : Type :=
| Success (data : T)
| Failure (error : E).
Arguments Success {T E} data.
Arguments Failure {T E} error.

Definition createSuccess {T E : Type} (data : T) : Result T E := Success data.
Definition createError {T E : Type} (error : E) : Result T E := Failure error.

Inductive ConstraintType : Type := cost | performance | efficiency | custom.
Inductive ConstraintDirection : Type := maximize | minimize.

Inductive Significance : Type := low | medium | high.

Inductive RecommendationType : Type :=
  best_overall | best_for_constraint | compromise | avoid.

Section Types.
Context {num : Type}.

(** The text of a message is a template filled with these parts. *)
Inductive Message : Type :=
| MsgTooFewOptions
| MsgNoConstraint
| MsgMissingScore (optionName constraintId : string)
| MsgInvalidScore (constraintId optionName : string)
| MsgInvalidWeight (constraintId : string) (weight : num)
| MsgNotInScoring (optionId : string).

Record ValidationError : Type := createValidationError {
  field : string;
  message : Message;
  code : string
}.

Record ValidationResult : Type := {
  isValid : bool;
  errors : list ValidationError;
  warnings : list string
}.

Record ScaleDefinition : Type := { scale_min : num; scale_max : num }.

Record Option : Type := {
  opt_id : string;
  opt_name : string;
  opt_scores : JSMap.t num       (* constraint_id -> score *)
}.

Record Constraint : Type := {
  c_id : string;
  c_name : string;
  c_weight : num;                (* 0-100, normalized to sum to 100% *)
  c_type : ConstraintType;
  c_direction : ConstraintDirection;
  c_scale : ScaleDefinition
}.

Record ConstraintPerformance : Type := {
  cp_constraintId : string;
  cp_constraintName : string;
  cp_score : num;
  cp_normalizedScore : num;
  cp_percentileRank : num
}.

Record OptionRanking : Type := {
  r_option : Option;
  r_rank : Z;
  r_closenessScore : num;
  r_strengthAreas : list string;
  r_weaknessAreas : list string
}.

Record ConstraintDifference : Type := {
  cd_constraintId : string;
  cd_constraintName : string;
  cd_scoreDifference : num;
  cd_percentageDifference : num;
  cd_significance : Significance
}.

Record PairwiseComparison : Type := {
  pc_optionA : string;
  pc_optionB : string;
  pc_winner : string;
  pc_significantDifferences : list ConstraintDifference;
  pc_overallScoreDifference : num
}.

(** The reasoning sentence, as the values its template prints. *)
Inductive Reasoning : Type :=
| ReasonBest (rank : Z) (overallScore : num) (strengths : nat)
| ReasonCompromise (rank : Z)
| ReasonAvoid (rank : Z) (weaknesses : nat).

Record Recommendation : Type := {
  rec_type : RecommendationType;
  rec_optionId : string;
  rec_reasoning : Reasoning;
  rec_confidence : num
}.

Record OptionAnalysis : Type := {
  oa_optionId : string;
  oa_strengths : list ConstraintPerformance;
  oa_weaknesses : list ConstraintPerformance;
  oa_overallScore : num;
  oa_rank : Z
}.

Record DominanceAnalysis : Type := {
  dominantOptions : list string;
  dominatedOptions : list string;
  paretoFrontier : list string;
  dominanceMatrix : JSMap.t (list string)
}.

Record TradeOffAnalysis : Type := {
  optionAnalyses : JSMap.t OptionAnalysis;
  pairwiseComparisons : list PairwiseComparison;
  dominanceRelations : DominanceAnalysis;
  recommendations : list Recommendation
}.

Record ScoringResult : Type := {
  rankings : list OptionRanking;
  normalizedScores : JSMap.t (JSMap.t num);
  weightedScores : JSMap.t (JSMap.t num);
  closenessScores : JSMap.t num;
  idealSolution : list num;
  negativeIdealSolution : list num
}.
End Types.

Arguments Message : clear implicits.
Arguments ValidationError : clear implicits.
Arguments ValidationResult : clear implicits.
Arguments ScaleDefinition : clear implicits.
Arguments Option : clear implicits.
Arguments Constraint : clear implicits.
Arguments ConstraintPerformance : clear implicits.
Arguments OptionRanking : clear implicits.
Arguments ConstraintDifference : clear implicits.
Arguments PairwiseComparison : clear implicits.
Arguments Reasoning : clear implicits.
Arguments Recommendation : clear implicits.
Arguments OptionAnalysis : clear implicits.
Arguments TradeOffAnalysis : clear implicits.
Arguments ScoringResult : clear implicits.

(* ================================================================== *)
(** ** [engines/TOPSISEngine.ts] *)

Section TOPSISEngine.
Context {num : Type} `{Number num}.
Local Open Scope js_scope.

(** A decimal literal [n/d]: the nearest [number] to the quotient. *)
Definition lit (n d : Z) : num := of_Z n / of_Z d.

Definition zero : num := of_Z 0.

(** [m[i]![j]!], for [i] and [j] inside the matrix.  The matrices that
    [calculateScores] builds have one row per option and one cell per
    constraint in every row, and every index the code reads is in that
    range.  An index outside the matrix reads [undefined] in JavaScript;
    the [zero] returned here for it is never looked at. *)
Definition cell (m : list (list num)) (i j : nat) : num :=
  nth j (nth i m []) zero.

(** [Math.max(...values)].  JavaScript folds from [-Infinity]; that start
    value is absorbed by the first argument, so the fold starts there. *)
Definition Math_max (values : list num) : num :=
  match values with
  | [] => neg_infinity
  | x :: r => fold_left max2 r x
  end.

Definition Math_min (values : list num) : num :=
  match values with
  | [] => infinity
  | x :: r => fold_left min2 r x
  end.

(** [arr.indexOf(v)], [-1] when absent. *)
Fixpoint indexOf_from (v : num) (l : list num) (k : Z) : Z :=
  match l with
  | [] => (-1)%Z
  | x :: r => if x === v then k else indexOf_from v r (k + 1)%Z
  end.

Definition indexOf (v : num) (l : list num) : Z := indexOf_from v l 0%Z.

Definition score_or_zero (o : Option num) (cid : string) : num :=
  match JSMap.get (opt_scores o) cid with
  | Some s => s
  | None => zero                         (* ?? 0 *)
  end.

Definition buildDecisionMatrix
    (options : list (Option num)) (constraints : list (Constraint num))
    : list (list num) :=
  map (fun option => map (fun constraint => score_or_zero option (c_id constraint))
                         constraints)
      options.

(** [m.map(row => row[j]!)], for rows that reach column [j]. *)
Definition column (m : list (list num)) (j : nat) : list num :=
  map (fun row => nth j row zero) m.

Definition columnSumSquares (decisionMatrix : list (list num)) (j : nat) : num :=
  fold_left (fun acc value => acc + value * value) (column decisionMatrix j) zero.

Definition normalizeMatrix
    (decisionMatrix : list (list num)) (constraints : list (Constraint num))
    : list (list num) :=
  map (fun row =>
         mapi (fun j (_ : Constraint num) =>
                 let originalValue := nth j row zero in
                 let sumSquares := columnSumSquares decisionMatrix j in
                 if sumSquares >? zero
                 then originalValue / sqrt sumSquares
                 else zero)
              constraints)
      decisionMatrix.

Definition applyWeights
    (normalizedMatrix : list (list num)) (constraints : list (Constraint num))
    : list (list num) :=
  map (fun row =>
         mapi (fun j constraint =>
                 let normalizedValue := nth j row zero in
                 let weight := c_weight constraint / of_Z 100 in
                 normalizedValue * weight)
              constraints)
      normalizedMatrix.

Definition calculateIdealSolutions
    (weightedMatrix : list (list num)) (constraints : list (Constraint num))
    : list num * list num :=
  (mapi (fun j constraint =>
           let columnValues := column weightedMatrix j in
           match c_direction constraint with
           | maximize => Math_max columnValues
           | minimize => Math_min columnValues
           end) constraints,
   mapi (fun j constraint =>
           let columnValues := column weightedMatrix j in
           match c_direction constraint with
           | maximize => Math_min columnValues
           | minimize => Math_max columnValues
           end) constraints).

(** [sqrt] of the sum over [j] of [(row[j] - point[j])^2] *)
Definition distanceTo (point : list num) (row : list num) : num :=
  sqrt (fold_left (fun acc d => acc + d * d)
                  (mapi (fun j x => x - nth j point zero) row)
                  zero).

Definition calculateDistances
    (weightedMatrix : list (list num)) (ideal negativeIdeal : list num)
    : list num * list num :=
  (map (distanceTo ideal) weightedMatrix,
   map (distanceTo negativeIdeal) weightedMatrix).

Definition closeness (positiveDistance negativeDistance : num) : num :=
  let totalDistance := positiveDistance + negativeDistance in
  if totalDistance === zero then of_Z 1
  else negativeDistance / totalDistance.

Definition calculateClosenessScores
    (positiveDistances negativeDistances : list num) : list num :=
  mapi (fun i positiveDistance =>
          closeness positiveDistance (nth i negativeDistances zero))
       positiveDistances.

(** The percentile the engine uses for its tags:
    [(sortedValues.indexOf(optionValue) + 1) / sortedValues.length]. *)
Definition tagPercentile (weightedMatrix : list (list num)) (optionIndex j : nat)
    : num :=
  let optionValue := cell weightedMatrix optionIndex j in
  let columnValues := column weightedMatrix j in
  let sortedValues := sort (fun a b => a - b) columnValues in
  of_Z (indexOf optionValue sortedValues + 1) / of_Z (Z.of_nat (List.length sortedValues)).

Definition topsis_identifyStrengths
    (optionIndex : nat) (weightedMatrix : list (list num))
    (constraints : list (Constraint num)) : list string :=
  List.concat
    (mapi (fun j constraint =>
             let percentileRank := tagPercentile weightedMatrix optionIndex j in
             match c_direction constraint with
             | maximize =>
                 if percentileRank >=? lit 75 100 then [c_name constraint] else []
             | minimize =>
                 if percentileRank <=? lit 25 100 then [c_name constraint] else []
             end) constraints).

Definition topsis_identifyWeaknesses
    (optionIndex : nat) (weightedMatrix : list (list num))
    (constraints : list (Constraint num)) : list string :=
  List.concat
    (mapi (fun j constraint =>
             let percentileRank := tagPercentile weightedMatrix optionIndex j in
             match c_direction constraint with
             | maximize =>
                 if percentileRank <=? lit 25 100 then [c_name constraint] else []
             | minimize =>
                 if percentileRank >=? lit 75 100 then [c_name constraint] else []
             end) constraints).

(** The entries [{option, index, closenessScore}] that are sorted. *)
Record IndexedRanking : Type := {
  ir_option : Option num;
  ir_index : nat;
  ir_closenessScore : num
}.

Definition indexedRankings (options : list (Option num)) (closenessScores : list num)
    : list IndexedRanking :=
  mapi (fun index option =>
          {| ir_option := option;
             ir_index := index;
             ir_closenessScore := nth index closenessScores zero |})
       options.

Definition byClosenessDescending (a b : IndexedRanking) : num :=
  ir_closenessScore b - ir_closenessScore a.

Definition generateRankings
    (options : list (Option num)) (closenessScores : list num)
    (weightedMatrix : list (list num)) (constraints : list (Constraint num))
    : list (OptionRanking num) :=
  mapi (fun rank item =>
          {| r_option := ir_option item;
             r_rank := Z.of_nat rank + 1;
             r_closenessScore := ir_closenessScore item;
             r_strengthAreas :=
               topsis_identifyStrengths (ir_index item) weightedMatrix constraints;
             r_weaknessAreas :=
               topsis_identifyWeaknesses (ir_index item) weightedMatrix constraints |})
       (sort byClosenessDescending (indexedRankings options closenessScores)).

Definition buildScoreMap
    (options : list (Option num)) (constraints : list (Constraint num))
    (matrix : list (list num)) : JSMap.t (JSMap.t num) :=
  fold_left (fun scoreMap entry => JSMap.set scoreMap (fst entry) (snd entry))
    (mapi (fun i option =>
             (opt_id option,
              fold_left (fun constraintScores entry =>
                           JSMap.set constraintScores (fst entry) (snd entry))
                        (mapi (fun j constraint => (c_id constraint, cell matrix i j))
                              constraints)
                        []))
          options)
    [].

Definition nat_to_string (n : nat) : string :=
  NilEmpty.string_of_uint (Nat.to_uint n).

Definition invalidNumber (x : num) : bool := negb (isFinite x) || isNaN x.

Definition scoreErrors (i : nat) (option : Option num) (constraint : Constraint num)
    : list (ValidationError num) :=
  match JSMap.get (opt_scores option) (c_id constraint) with
  | None =>
      [createValidationError
         ("options[" ++ nat_to_string i ++ "].scores")%string
         (MsgMissingScore (opt_name option) (c_id constraint))
         "MISSING_SCORE"]
  | Some score =>
      if invalidNumber score
      then [createValidationError
              ("options[" ++ nat_to_string i ++ "].scores")%string
              (MsgInvalidScore (c_id constraint) (opt_name option))
              "INVALID_SCORE"]
      else []
  end.

Definition weightErrors (constraint : Constraint num) : list (ValidationError num) :=
  if invalidNumber (c_weight constraint)
  then [createValidationError "constraints"
          (MsgInvalidWeight (c_id constraint) (c_weight constraint))
          "INVALID_WEIGHT"]
  else [].

Definition totalWeight (constraints : list (Constraint num)) : num :=
  fold_left (fun sum c => sum + c_weight c) constraints zero.

Definition topsis_validateInputs
    (options : list (Option num)) (constraints : list (Constraint num))
    : ValidationResult num :=
  let errors :=
    (if (List.length options <? 2)%nat
     then [createValidationError "options" MsgTooFewOptions "INSUFFICIENT_OPTIONS"]
     else [])
    ++ (if (List.length constraints =? 0)%nat
        then [createValidationError "constraints" MsgNoConstraint "NO_CONSTRAINTS"]
        else [])
    ++ (if (0 <? List.length options)%nat && (0 <? List.length constraints)%nat
        then List.concat
               (mapi (fun i option =>
                        List.concat (map (scoreErrors i option) constraints))
                     options)
        else [])
    ++ (if (0 <? List.length constraints)%nat
        then List.concat (map weightErrors constraints)
        else []) in
  let warnings :=
    if (0 <? List.length constraints)%nat
       && (abs (totalWeight constraints - of_Z 100) >? lit 1 100)
    then ["Constraint weights do not sum to 100%"%string]
    else [] in
  {| isValid := match errors with [] => true | _ :: _ => false end;
     errors := errors;
     warnings := warnings |}.

(** [validation.isValid] is [errors.length === 0], and the error returned is
    [errors[0]].  Once validation has passed, every matrix cell read below
    is in range.  One step of the [try] block can still throw:
    [calculateIdealSolutions] passes a whole column to one call,
    [Math.max(...columnValues)], and a JavaScript engine raises a RangeError
    when a call has more arguments than its stack holds; the [catch] branch
    then returns the error [CALCULATION_ERROR].  How many arguments that is
    belongs to the engine and not to this code, so the branch has no
    counterpart here: [calculateScores] is the call for an input with no
    more options than the engine takes as arguments.  The constant
    [scoringMethodology] field is left out. *)
Definition calculateScores
    (options : list (Option num)) (constraints : list (Constraint num))
    : Result (ScoringResult num) (ValidationError num) :=
  let validation := topsis_validateInputs options constraints in
  match errors validation with
  | error0 :: _ => createError error0
  | [] =>
      let decisionMatrix := buildDecisionMatrix options constraints in
      let normalizedMatrix := normalizeMatrix decisionMatrix constraints in
      let weightedMatrix := applyWeights normalizedMatrix constraints in
      let '(ideal, negativeIdeal) := calculateIdealSolutions weightedMatrix constraints in
      let '(positiveDistances, negativeDistances) :=
        calculateDistances weightedMatrix ideal negativeIdeal in
      let closenessScores :=
        calculateClosenessScores positiveDistances negativeDistances in
      let rankings :=
        generateRankings options closenessScores weightedMatrix constraints in
      createSuccess
        {| rankings := rankings;
           normalizedScores := buildScoreMap options constraints normalizedMatrix;
           weightedScores := buildScoreMap options constraints weightedMatrix;
           closenessScores :=
             JSMap.of_entries
               (mapi (fun index option =>
                        (opt_id option, nth index closenessScores zero))
                     options);
           idealSolution := ideal;
           negativeIdealSolution := negativeIdeal |}
  end.
End TOPSISEngine.

(* ================================================================== *)
(** ** The two instances of [number] *)

Module Float64.
Local Open Scope float_scope.

Definition from_Z (z : Z) : float :=
  match z with
  | Z0 => 0
  | Zpos _ => PrimFloat.of_uint63 (Uint63.of_Z z)
  | Zneg p => - PrimFloat.of_uint63 (Uint63.of_Z (Zpos p))
  end.

(** [isFinite]: neither NaN nor an infinity. *)
Definition finite (x : float) : bool :=
  negb (PrimFloat.is_nan x) && negb (PrimFloat.is_infinity x).

(** [Math.max]: NaN if either argument is NaN, and [+0] above [-0]. *)
Definition js_max (a b : float) : float :=
  if PrimFloat.is_nan a || PrimFloat.is_nan b then nan
  else if PrimFloat.ltb a b then b
  else if PrimFloat.ltb b a then a
  else if PrimFloat.get_sign a then b else a.

Definition js_min (a b : float) : float :=
  if PrimFloat.is_nan a || PrimFloat.is_nan b then nan
  else if PrimFloat.ltb a b then a
  else if PrimFloat.ltb b a then b
  else if PrimFloat.get_sign a then a else b.

#[global] Instance number : Number float := {|
  of_Z := from_Z;
  add := PrimFloat.add;
  sub := PrimFloat.sub;
  mul := PrimFloat.mul;
  div := PrimFloat.div;
  sqrt := PrimFloat.sqrt;
  abs := PrimFloat.abs;
  ltb := PrimFloat.ltb;
  leb := PrimFloat.leb;
  eqb := PrimFloat.eqb;
  isFinite := finite;
  isNaN := PrimFloat.is_nan;
  max2 := js_max;
  min2 := js_min;
  infinity := PrimFloat.infinity;
  neg_infinity := PrimFloat.neg_infinity
|}.
End Float64.

Module Exact.
Local Open Scope R_scope.

Definition Rltb (a b : R) : bool := if Rlt_dec a b then true else false.
Definition Rleb (a b : R) : bool := if Rle_dec a b then true else false.
Definition Reqb (a b : R) : bool := if Req_dec_T a b then true else false.

(** The reals have no infinity and no NaN.  The two infinities are only the
    value of [Math.max()] and [Math.min()] on no argument at all, that is on
    the column of a matrix without rows, which validation excludes. *)
#[global] Instance number : Number R := {|
  of_Z := IZR;
  add := Rplus;
  sub := Rminus;
  mul := Rmult;
  div := Rdiv;
  sqrt := R_sqrt.sqrt;
  abs := Rabs;
  ltb := Rltb;
  leb := Rleb;
  eqb := Reqb;
  isFinite := fun _ => true;
  isNaN := fun _ => false;
  max2 := Rmax;
  min2 := Rmin;
  infinity := 0;
  neg_infinity := 0
|}.
End Exact.

(* ================================================================== *)
(** ** [analyzers/TradeOffAnalyzer.ts] *)

Section TradeOffAnalyzer.
Context {num : Type} `{Number num}.
Local Open Scope js_scope.

(** [calculatePercentileRank(value, sortedValues)] *)
Definition calculatePercentileRank (value : num) (sortedValues : list num) : num :=
  match sortedValues with
  | [] => zero
  | [only] => if only === value then of_Z 1 else zero
  | _ =>
      let count :=
        fold_left (fun count v =>
                     if v <? value then count + of_Z 1
                     else if v === value then count + lit 5 10   (* tie handling *)
                     else count)
                  sortedValues zero in
      count / of_Z (Z.of_nat (List.length sortedValues))
  end.

Definition get_or_zero (m : JSMap.t num) (k : string) : num :=
  match JSMap.get m k with Some v => v | None => zero end.

(** The performance record of [option] on [constraint], computed by both
    [identifyStrengths] and [identifyWeaknesses] before they threshold it. *)
Definition performanceOf
    (option : Option num) (normalized : JSMap.t num)
    (scoringResult : ScoringResult num) (constraint : Constraint num)
    : ConstraintPerformance num :=
  let score := score_or_zero option (c_id constraint) in
  let normalizedScore := get_or_zero normalized (c_id constraint) in
  let allScores :=
    sort (fun a b => a - b)
         (map (fun scores => get_or_zero scores (c_id constraint))
              (JSMap.values (normalizedScores scoringResult))) in
  let percentileRank := calculatePercentileRank normalizedScore allScores in
  {| cp_constraintId := c_id constraint;
     cp_constraintName := c_name constraint;
     cp_score := score;
     cp_normalizedScore := normalizedScore;
     cp_percentileRank := percentileRank |}.

Definition identifyStrengths
    (option : Option num) (constraints : list (Constraint num))
    (scoringResult : ScoringResult num) : list (ConstraintPerformance num) :=
  match JSMap.get (normalizedScores scoringResult) (opt_id option) with
  | None => []
  | Some normalized =>
      sort (fun a b => cp_percentileRank b - cp_percentileRank a)
           (filter (fun p => cp_percentileRank p >=? lit 75 100)
                   (map (performanceOf option normalized scoringResult) constraints))
  end.

Definition identifyWeaknesses
    (option : Option num) (constraints : list (Constraint num))
    (scoringResult : ScoringResult num) : list (ConstraintPerformance num) :=
  match JSMap.get (normalizedScores scoringResult) (opt_id option) with
  | None => []
  | Some normalized =>
      sort (fun a b => cp_percentileRank a - cp_percentileRank b)
           (filter (fun p => cp_percentileRank p <=? lit 25 100)
                   (map (performanceOf option normalized scoringResult) constraints))
  end.

(** The body of the loop of [generateOptionAnalyses], for one option. *)
Definition analysisStep
    (scoringResult : ScoringResult num) (constraints : list (Constraint num))
    (optionAnalyses : JSMap.t (OptionAnalysis num)) (option : Option num)
    : JSMap.t (OptionAnalysis num) :=
  match find (fun r => String.eqb (opt_id (r_option r)) (opt_id option))
             (rankings scoringResult) with
  | None => optionAnalyses                                        (* continue *)
  | Some ranking =>
      JSMap.set optionAnalyses (opt_id option)
        {| oa_optionId := opt_id option;
           oa_strengths := identifyStrengths option constraints scoringResult;
           oa_weaknesses := identifyWeaknesses option constraints scoringResult;
           oa_overallScore :=
             get_or_zero (closenessScores scoringResult) (opt_id option);
           oa_rank := r_rank ranking |}
  end.

Definition generateOptionAnalyses
    (scoringResult : ScoringResult num) (options : list (Option num))
    (constraints : list (Constraint num)) : JSMap.t (OptionAnalysis num) :=
  fold_left (analysisStep scoringResult constraints) options [].

Definition constraintDifference
    (optionA optionB : Option num) (constraint : Constraint num)
    : ConstraintDifference num :=
  let rawScoreA := score_or_zero optionA (c_id constraint) in
  let rawScoreB := score_or_zero optionB (c_id constraint) in
  let scoreDifference := rawScoreA - rawScoreB in
  let maxScore := max2 (abs rawScoreA) (abs rawScoreB) in
  let percentageDifference :=
    if maxScore >? zero then abs scoreDifference / maxScore else zero in
  {| cd_constraintId := c_id constraint;
     cd_constraintName := c_name constraint;
     cd_scoreDifference := scoreDifference;
     cd_percentageDifference := percentageDifference;
     cd_significance :=
       if percentageDifference >? lit 3 10 then high
       else if percentageDifference >? lit 15 100 then medium
       else low |}.

Definition compareOptions
    (optionA optionB : Option num) (constraints : list (Constraint num))
    (scoringResult : ScoringResult num) : PairwiseComparison num :=
  let scoreA := get_or_zero (closenessScores scoringResult) (opt_id optionA) in
  let scoreB := get_or_zero (closenessScores scoringResult) (opt_id optionB) in
  {| pc_optionA := opt_id optionA;
     pc_optionB := opt_id optionB;
     pc_winner := if scoreA >? scoreB then opt_id optionA else opt_id optionB;
     pc_significantDifferences :=
       filter (fun d => match cd_significance d with low => false | _ => true end)
              (map (constraintDifference optionA optionB) constraints);
     pc_overallScoreDifference := abs (scoreA - scoreB) |}.

Fixpoint performPairwiseComparisons_from
    (scoringResult : ScoringResult num) (options : list (Option num))
    (constraints : list (Constraint num)) : list (PairwiseComparison num) :=
  match options with
  | [] => []
  | optionA :: later =>
      map (fun optionB => compareOptions optionA optionB constraints scoringResult)
          later
      ++ performPairwiseComparisons_from scoringResult later constraints
  end.

Definition performPairwiseComparisons
    (scoringResult : ScoringResult num) (options : list (Option num))
    (constraints : list (Constraint num)) : list (PairwiseComparison num) :=
  performPairwiseComparisons_from scoringResult options constraints.

(** The loop of [dominates], with its early [return false]. *)
Fixpoint dominates_loop
    (optionA optionB : Option num) (constraints : list (Constraint num))
    (hasAdvantage : bool) : bool :=
  match constraints with
  | [] => hasAdvantage
  | constraint :: rest =>
      let scoreA := score_or_zero optionA (c_id constraint) in
      let scoreB := score_or_zero optionB (c_id constraint) in
      match c_direction constraint with
      | maximize =>
          if scoreA <? scoreB then false
          else dominates_loop optionA optionB rest
                 (if scoreA >? scoreB then true else hasAdvantage)
      | minimize =>
          if scoreA >? scoreB then false
          else dominates_loop optionA optionB rest
                 (if scoreA <? scoreB then true else hasAdvantage)
      end
  end.

Definition dominates
    (optionA optionB : Option num) (constraints : list (Constraint num)) : bool :=
  dominates_loop optionA optionB constraints false.

(** [map.get(k)!.push(x)]: the array stored under [k] grows in place.  Both
    maps get an array for every option before the loops start, so the array
    is there whenever the loops push. *)
Definition push_at (m : JSMap.t (list string)) (k x : string) : JSMap.t (list string) :=
  match JSMap.get m k with
  | Some arr => JSMap.set m k (arr ++ [x])
  | None => m
  end.

Definition get_list (m : JSMap.t (list string)) (k : string) : list string :=
  match JSMap.get m k with Some arr => arr | None => [] end.

(** The two maps of [findDominantOptions] after initialisation. *)
Definition initialRelations (options : list (Option num)) : JSMap.t (list string) :=
  fold_left (fun m option => JSMap.set m (opt_id option) []) options [].

(** The body of the double loop, at [optionA = options[i]] and
    [optionB = options[j]]; the state is [(dominanceMatrix, dominatedBy)]. *)
Definition dominanceStep
    (constraints : list (Constraint num)) (ia : nat * Option num)
    (st : JSMap.t (list string) * JSMap.t (list string)) (jb : nat * Option num)
    : JSMap.t (list string) * JSMap.t (list string) :=
  if (fst ia =? fst jb)%nat then st                               (* continue *)
  else if dominates (snd ia) (snd jb) constraints
       then (push_at (fst st) (opt_id (snd ia)) (opt_id (snd jb)),
             push_at (snd st) (opt_id (snd jb)) (opt_id (snd ia)))
       else st.

Definition dominanceLoops
    (options : list (Option num)) (constraints : list (Constraint num))
    : JSMap.t (list string) * JSMap.t (list string) :=
  fold_left
    (fun st ia => fold_left (dominanceStep constraints ia) (mapi pair options) st)
    (mapi pair options)
    (initialRelations options, initialRelations options).

Definition findDominantOptions
    (options : list (Option num)) (constraints : list (Constraint num))
    (scoringResult : ScoringResult num) : DominanceAnalysis :=
  let '(dominanceMatrix, dominatedBy) := dominanceLoops options constraints in
  {| dominantOptions :=
       map (@opt_id num)
           (filter (fun option =>
                      (0 <? List.length (get_list dominanceMatrix (opt_id option)))%nat)
                   options);
     dominatedOptions :=
       map (@opt_id num)
           (filter (fun option =>
                      (0 <? List.length (get_list dominatedBy (opt_id option)))%nat)
                   options);
     paretoFrontier :=
       map (@opt_id num)
           (filter (fun option =>
                      (List.length (get_list dominatedBy (opt_id option)) =? 0)%nat)
                   options);
     dominanceMatrix := dominanceMatrix |}.

(** [calculateConfidence(option, allAnalyses)] *)
Definition calculateConfidence
    (option : OptionAnalysis num) (allAnalyses : JSMap.t (OptionAnalysis num)) : num :=
  let totalOptions := Z.of_nat (JSMap.size allAnalyses) in
  let rankScore := of_Z (totalOptions - oa_rank option + 1) / of_Z totalOptions in
  let strengthScore :=
    min2 (of_Z (Z.of_nat (List.length (oa_strengths option))) / of_Z 3) (of_Z 1) in
  let weaknessScore :=
    max2 zero
         (of_Z 1 - of_Z (Z.of_nat (List.length (oa_weaknesses option))) / of_Z 3) in
  min2 (lit 95 100)
       (rankScore * lit 5 10 + strengthScore * lit 3 10 + weaknessScore * lit 2 10).

Definition findBestOverallOption (optionAnalyses : JSMap.t (OptionAnalysis num))
    : option (Recommendation num) :=
  let bestOption :=
    fold_left (fun best analysis =>
                 match best with
                 | None => Some analysis
                 | Some b => if (oa_rank analysis <? oa_rank b)%Z
                             then Some analysis else best
                 end)
              (JSMap.values optionAnalyses) None in
  match bestOption with
  | None => None
  | Some b =>
      Some {| rec_type := best_overall;
              rec_optionId := oa_optionId b;
              rec_reasoning :=
                ReasonBest (oa_rank b) (oa_overallScore b)
                           (List.length (oa_strengths b));
              rec_confidence := calculateConfidence b optionAnalyses |}
  end.

(** [ids.map(id => optionAnalyses.get(id)).filter(a => a && keep a)] *)
Definition analysesOf
    (optionAnalyses : JSMap.t (OptionAnalysis num)) (keep : OptionAnalysis num -> bool)
    (ids : list string) : list (OptionAnalysis num) :=
  flat_map (fun id =>
              match JSMap.get optionAnalyses id with
              | Some a => if keep a then [a] else []
              | None => []
              end) ids.

Definition findCompromiseOption
    (optionAnalyses : JSMap.t (OptionAnalysis num)) (dominanceRelations : DominanceAnalysis)
    : option (Recommendation num) :=
  let paretoOptions :=
    sort (fun a b => of_Z (oa_rank a) - of_Z (oa_rank b))
         (analysesOf optionAnalyses (fun a => (1 <? oa_rank a)%Z)
                     (paretoFrontier dominanceRelations)) in
  match paretoOptions with
  | [] => None
  | compromiseOption :: _ =>
      Some {| rec_type := compromise;
              rec_optionId := oa_optionId compromiseOption;
              rec_reasoning := ReasonCompromise (oa_rank compromiseOption);
              rec_confidence := calculateConfidence compromiseOption optionAnalyses |}
  end.

Definition findOptionToAvoid
    (optionAnalyses : JSMap.t (OptionAnalysis num)) (dominanceRelations : DominanceAnalysis)
    : option (Recommendation num) :=
  let dominated :=
    sort (fun a b => of_Z (oa_rank b) - of_Z (oa_rank a))
         (analysesOf optionAnalyses
                     (fun a => (2 <=? List.length (oa_weaknesses a))%nat)
                     (dominatedOptions dominanceRelations)) in
  match dominated with
  | [] => None
  | avoidOption :: _ =>
      Some {| rec_type := avoid;
              rec_optionId := oa_optionId avoidOption;
              rec_reasoning :=
                ReasonAvoid (oa_rank avoidOption)
                            (List.length (oa_weaknesses avoidOption));
              rec_confidence := calculateConfidence avoidOption optionAnalyses |}
  end.

Definition option_to_list {A : Type} (o : option A) : list A :=
  match o with Some x => [x] | None => [] end.

Definition generateRecommendations
    (optionAnalyses : JSMap.t (OptionAnalysis num)) (dominanceRelations : DominanceAnalysis)
    (scoringResult : ScoringResult num) : list (Recommendation num) :=
  option_to_list (findBestOverallOption optionAnalyses)
  ++ option_to_list (findCompromiseOption optionAnalyses dominanceRelations)
  ++ option_to_list (findOptionToAvoid optionAnalyses dominanceRelations).

(** [scoringResult] has its declared type, so the [INVALID_SCORING_RESULT]
    guard against a null argument has nothing to reject. *)
Definition validateInputs
    (scoringResult : ScoringResult num) (options : list (Option num))
    (constraints : list (Constraint num)) : ValidationResult num :=
  let errors :=
    (if (List.length options <? 2)%nat
     then [createValidationError "options" MsgTooFewOptions "INSUFFICIENT_OPTIONS"]
     else [])
    ++ (if (List.length constraints =? 0)%nat
        then [createValidationError "constraints" MsgNoConstraint "NO_CONSTRAINTS"]
        else [])
    ++ (if (0 <? List.length options)%nat
        then
          let scoringOptionIds :=
            set_of (map (fun r => opt_id (r_option r)) (rankings scoringResult)) in
          let inputOptionIds := set_of (map (@opt_id num) options) in
          flat_map (fun optionId =>
                      if set_has scoringOptionIds optionId then []
                      else [createValidationError "consistency"
                              (MsgNotInScoring optionId) "MISSING_SCORING_DATA"])
                   inputOptionIds
        else []) in
  {| isValid := match errors with [] => true | _ :: _ => false end;
     errors := errors;
     warnings := [] |}.

(** Nothing in this [try] block throws: no call spreads an array into its
    arguments, and every array that is pushed to was stored first. *)
Definition analyzeTradeOffs
    (scoringResult : ScoringResult num) (options : list (Option num))
    (constraints : list (Constraint num))
    : Result (TradeOffAnalysis num) (ValidationError num) :=
  let validation := validateInputs scoringResult options constraints in
  match errors validation with
  | error0 :: _ => createError error0
  | [] =>
      let optionAnalyses := generateOptionAnalyses scoringResult options constraints in
      let pairwiseComparisons :=
        performPairwiseComparisons scoringResult options constraints in
      let dominanceRelations := findDominantOptions options constraints scoringResult in
      let recommendations :=
        generateRecommendations optionAnalyses dominanceRelations scoringResult in
      createSuccess
        {| optionAnalyses := optionAnalyses;
           pairwiseComparisons := pairwiseComparisons;
           dominanceRelations := dominanceRelations;
           recommendations := recommendations |}
  end.
End TradeOffAnalyzer.

(* ================================================================== *)
(** ** Text *)

(** A string is kept as the bytes of its UTF-8 encoding. *)

(** [s.trim() === '']: the string holds nothing but white space and line
    terminators.  These are the code points 9 to 13 and 32, and, on two or
    three bytes, U+00A0, U+1680, U+2000 to U+200A, U+2028, U+2029, U+202F,
    U+205F, U+3000 and U+FEFF. *)
Definition whiteSpace3 (b1 b2 b3 : N) : bool :=
  ((b1 =? 225) && (b2 =? 154) && (b3 =? 128)
   || (b1 =? 226) && (b2 =? 128)
      && ((128 <=? b3) && (b3 <=? 138) || (b3 =? 168) || (b3 =? 169) || (b3 =? 175))
   || (b1 =? 226) && (b2 =? 129) && (b3 =? 159)
   || (b1 =? 227) && (b2 =? 128) && (b3 =? 128)
   || (b1 =? 239) && (b2 =? 187) && (b3 =? 191))%N.

Fixpoint trim_is_empty (s : string) : bool :=
  match s with
  | EmptyString => true
  | String c1 r1 =>
      let b1 := Ascii.N_of_ascii c1 in
      if ((9 <=? b1) && (b1 <=? 13) || (b1 =? 32))%N then trim_is_empty r1
      else
        match r1 with
        | EmptyString => false
        | String c2 r2 =>
            let b2 := Ascii.N_of_ascii c2 in
            if ((b1 =? 194) && (b2 =? 160))%N then trim_is_empty r2
            else
              match r2 with
              | EmptyString => false
              | String c3 r3 =>
                  if whiteSpace3 b1 b2 (Ascii.N_of_ascii c3) then trim_is_empty r3
                  else false
              end
        end
  end.

(** [!s || s.trim() === ''] *)
Definition missing (s : string) : bool :=
  match s with EmptyString => true | _ => trim_is_empty s end.

(** The character class [[a-zA-Z0-9_-]]. *)
Definition idChar (c : Ascii.ascii) : bool :=
  let b := Ascii.N_of_ascii c in
  ((97 <=? b) && (b <=? 122) || (65 <=? b) && (b <=? 90)
   || (48 <=? b) && (b <=? 57) || (b =? 95) || (b =? 45))%N.

Fixpoint allIdChars (s : string) : bool :=
  match s with
  | EmptyString => true
  | String c r => idChar c && allIdChars r
  end.

(** [/^[a-zA-Z0-9_-]+$/.test(s)]; without the [m] flag [$] is the end of the
    input. *)
Definition idFormat (s : string) : bool :=
  match s with EmptyString => false | _ => allIdChars s end.

(** [ValidationError] and [ValidationResult] of [types/core.ts] again, here
    with the message as its text. *)
Record TextError : Type := createTextError {
  te_field : string;
  te_message : string;
  te_code : string
}.

Record TextValidation : Type := {
  tv_isValid : bool;
  tv_errors : list TextError;
  tv_warnings : list string
}.

(** [Map.prototype.delete] *)
Fixpoint map_delete {V : Type} (m : JSMap.t V) (k : string) : JSMap.t V :=
  match m with
  | [] => []
  | (k', v) :: r => if String.eqb k' k then r else (k', v) :: map_delete r k
  end.

(* ================================================================== *)
(** ** [validators/InputValidator.ts] *)

Section InputValidator.
Context {num : Type} `{Number num}.

(** [validateDataCompleteness(options, constraints)]: the errors of all
    options in turn, and their warnings in turn. *)
Definition validateDataCompleteness
    (options : list (Option num)) (constraints : list (Constraint num))
    : TextValidation :=
  let constraintIds := set_of (map (@c_id num) constraints) in
  let errors :=
    List.concat
      (mapi (fun optionIndex option =>
               flat_map
                 (fun constraintId =>
                    if JSMap.has (opt_scores option) constraintId then []
                    else [createTextError
                            ("options[" ++ nat_to_string optionIndex ++ "].scores")
                            ("Missing score for constraint '" ++ constraintId
                             ++ "' in option '" ++ opt_name option ++ "'")
                            "MISSING_SCORE"])
                 constraintIds)
            options) in
  let warnings :=
    flat_map
      (fun option =>
         flat_map
           (fun scoreConstraintId =>
              if set_has constraintIds scoreConstraintId then []
              else [("Option '" ++ opt_name option
                     ++ "' has score for unknown constraint '"
                     ++ scoreConstraintId ++ "'")%string])
           (JSMap.keys (opt_scores option)))
      options in
  {| tv_isValid := match errors with [] => true | _ :: _ => false end;
     tv_errors := errors;
     tv_warnings := warnings |}.
End InputValidator.

(* ================================================================== *)
(** ** [managers/OptionManager.ts] *)

(** The state of an [OptionManager] is its map [options]; a method takes the
    map and returns its result with the map it leaves.  The manager stores a
    shallow copy of an option, which shares the option's [scores] map with
    the caller; the map is taken not to be changed from outside afterwards.
    [updateOption] is left out: its [Partial<Option>] argument may carry a
    field that is explicitly [undefined], which the record of an option
    cannot hold. *)
Module OptionManager.
Section Methods.
Context {num : Type} `{Number num}.

Definition MIN_OPTIONS : nat := 2.
Definition MAX_OPTIONS : nat := 5.

Definition validateOption (option : Option num) : TextValidation :=
  let errors :=
    (if missing (opt_id option)
     then [createTextError "id" "Option ID is required" "MISSING_ID"]
     else [])
    ++ (if missing (opt_name option)
        then [createTextError "name" "Option name is required" "MISSING_NAME"]
        else [])
    ++ (if match opt_id option with EmptyString => false | _ => true end
           && negb (idFormat (opt_id option))
        then [createTextError "id"
                "Option ID must contain only letters, numbers, underscores, and hyphens"
                "INVALID_ID_FORMAT"]
        else [])
    ++ (if (JSMap.size (opt_scores option) =? 0)%nat then []
        else flat_map
               (fun entry =>
                  if isNaN (snd entry) || negb (isFinite (snd entry))
                  then [createTextError "scores"
                          ("Invalid score for constraint '" ++ fst entry
                           ++ "': must be a finite number")
                          "INVALID_SCORE"]
                  else [])
               (opt_scores option)) in
  let warnings :=
    if (JSMap.size (opt_scores option) =? 0)%nat
    then ["Option has no scores defined"%string] else [] in
  {| tv_isValid := match errors with [] => true | _ :: _ => false end;
     tv_errors := errors;
     tv_warnings := warnings |}.

Definition addOption (options : JSMap.t (Option num)) (option : Option num)
    : Result unit TextError * JSMap.t (Option num) :=
  match tv_errors (validateOption option) with
  | error0 :: _ => (createError error0, options)
  | [] =>
      if (MAX_OPTIONS <=? JSMap.size options)%nat
      then (createError
              (createTextError "options"
                 ("Cannot add more than " ++ nat_to_string MAX_OPTIONS ++ " options")
                 "MAX_OPTIONS_EXCEEDED"),
            options)
      else if JSMap.has options (opt_id option)
      then (createError
              (createTextError "id"
                 ("Option with ID '" ++ opt_id option ++ "' already exists")
                 "DUPLICATE_ID"),
            options)
      else (createSuccess tt, JSMap.set options (opt_id option) option)
  end.

Definition removeOption (options : JSMap.t (Option num)) (optionId : string)
    : bool * JSMap.t (Option num) :=
  (JSMap.has options optionId, map_delete options optionId).

Definition getOptions (options : JSMap.t (Option num)) : list (Option num) :=
  JSMap.values options.

Definition getOption (options : JSMap.t (Option num)) (optionId : string)
    : option (Option num) :=
  JSMap.get options optionId.

Definition getOptionCount (options : JSMap.t (Option num)) : nat :=
  JSMap.size options.

Definition validateOptionCount (options : JSMap.t (Option num))
    : Result unit TextError :=
  let count := JSMap.size options in
  if (count <? MIN_OPTIONS)%nat
  then createError
         (createTextError "options"
            ("Need at least " ++ nat_to_string MIN_OPTIONS
             ++ " options for comparison, currently have " ++ nat_to_string count)
            "INSUFFICIENT_OPTIONS")
  else if (MAX_OPTIONS <? count)%nat
  then createError
         (createTextError "options"
            ("Cannot compare more than " ++ nat_to_string MAX_OPTIONS
             ++ " options, currently have " ++ nat_to_string count)
            "TOO_MANY_OPTIONS")
  else createSuccess tt.

Definition clear (options : JSMap.t (Option num)) : JSMap.t (Option num) := [].

Definition hasOption (options : JSMap.t (Option num)) (optionId : string) : bool :=
  JSMap.has options optionId.

Definition getOptionIds (options : JSMap.t (Option num)) : list string :=
  JSMap.keys options.

Definition validateScoreCompleteness
    (options : JSMap.t (Option num)) (constraintIds : list string) : TextValidation :=
  let errors :=
    flat_map
      (fun option =>
         flat_map
           (fun constraintId =>
              if JSMap.has (opt_scores option) constraintId then []
              else [createTextError "scores"
                      ("Option '" ++ opt_name option
                       ++ "' missing score for constraint '" ++ constraintId ++ "'")
                      "MISSING_SCORE"])
           constraintIds)
      (JSMap.values options) in
  {| tv_isValid := match errors with [] => true | _ :: _ => false end;
     tv_errors := errors;
     tv_warnings := [] |}.
End Methods.
End OptionManager.

(* ================================================================== *)
(** * The vocabulary of the statements *)

(** ** Views of a result and variations of an input *)

(** [id] and [rank] of each ranking, in list order. *)
Definition rankOrder {num : Type} (r : ScoringResult num) : list (string * Z) :=
  map (fun x => (opt_id (r_option x), r_rank x)) (rankings r).

(** Option, rank and closeness score of each ranking, in list order. *)
Definition rankingOutline {num : Type} (r : ScoringResult num)
    : list (Option num * Z * num) :=
  map (fun x => (r_option x, r_rank x, r_closenessScore x)) (rankings r).

(** The same criteria with every weight multiplied by [c]. *)
Definition scaleWeights {num : Type} `{Number num} (c : num)
    (constraints : list (Constraint num)) : list (Constraint num) :=
  map (fun k => {| c_id := c_id k; c_name := c_name k;
                   c_weight := (c * c_weight k)%js;
                   c_type := c_type k; c_direction := c_direction k;
                   c_scale := c_scale k |})
      constraints.


(** The option with a score 0 entered for every criterion it has no score
    for. *)
Definition fillMissing {num : Type} `{Number num}
    (constraints : list (Constraint num)) (o : Option num) : Option num :=
  {| opt_id := opt_id o;
     opt_name := opt_name o;
     opt_scores :=
       fold_left (fun m k => if JSMap.has m (c_id k) then m
                             else JSMap.set m (c_id k) zero)
                 constraints (opt_scores o) |}.

(** The engine's threshold for a strength tag, by direction. *)
Definition engineStrength {num : Type} `{Number num}
    (d : ConstraintDirection) (percentileRank : num) : bool :=
  match d with
  | maximize => (percentileRank >=? lit 75 100)%js
  | minimize => (percentileRank <=? lit 25 100)%js
  end.

(** The engine's threshold for a weakness tag, by direction. *)
Definition engineWeakness {num : Type} `{Number num}
    (d : ConstraintDirection) (percentileRank : num) : bool :=
  match d with
  | maximize => (percentileRank <=? lit 25 100)%js
  | minimize => (percentileRank >=? lit 75 100)%js
  end.

(** Every analysis is filed under its own identifier, and no key repeats. *)
Definition wellKeyed {num : Type} (m : JSMap.t (OptionAnalysis num)) : Prop :=
  NoDup (JSMap.keys m) /\ forall k a, In (k, a) m -> oa_optionId a = k.

(** The recommendation [rec] is drawn from the analysis [a] of the map [m]. *)
Definition drawnFrom {num : Type} `{Number num}
    (m : JSMap.t (OptionAnalysis num)) (rec : Recommendation num)
    (a : OptionAnalysis num) : Prop :=
  JSMap.get m (oa_optionId a) = Some a /\
  rec_optionId rec = oa_optionId a /\
  rec_confidence rec = calculateConfidence a m.



(** On criterion [k], [a] is behind [b]: the comparison on which the loop of
    [dominates] returns false. *)
Definition behindOn {num : Type} `{Number num}
    (k : Constraint num) (a b : Option num) : bool :=
  match c_direction k with
  | maximize => (score_or_zero a (c_id k) <? score_or_zero b (c_id k))%js
  | minimize => (score_or_zero a (c_id k) >? score_or_zero b (c_id k))%js
  end.

(** On criterion [k], [a] is ahead of [b]: the comparison on which the loop
    notes an advantage. *)
Definition aheadOn {num : Type} `{Number num}
    (k : Constraint num) (a b : Option num) : bool :=
  match c_direction k with
  | maximize => (score_or_zero a (c_id k) >? score_or_zero b (c_id k))%js
  | minimize => (score_or_zero a (c_id k) <? score_or_zero b (c_id k))%js
  end.


(** ** Exact arithmetic *)

(** [a] is placed before [b]: a higher score, or the same score and an
    earlier position in the input. *)
Definition placedBefore (a b : @IndexedRanking R) : Prop :=
  (ir_closenessScore a > ir_closenessScore b)%R \/
  (ir_closenessScore a = ir_closenessScore b /\ (ir_index a < ir_index b)%nat).

(** On criterion [k], [a] is at least as good as [b]. *)
Definition notWorse (k : Constraint R) (a b : Option R) : Prop :=
  match c_direction k with
  | maximize => (score_or_zero b (c_id k) <= score_or_zero a (c_id k))%R
  | minimize => (score_or_zero a (c_id k) <= score_or_zero b (c_id k))%R
  end.

(** On criterion [k], [a] is strictly better than [b]. *)
Definition strictlyBetter (k : Constraint R) (a b : Option R) : Prop :=
  match c_direction k with
  | maximize => (score_or_zero b (c_id k) < score_or_zero a (c_id k))%R
  | minimize => (score_or_zero a (c_id k) < score_or_zero b (c_id k))%R
  end.


(** The confidence formula, in the words of the specification. *)
Definition specConfidence (N : nat) (rank : Z) (strengthCount weaknessCount : nat) : R :=
  let rankScore := ((INR N - IZR rank + 1) / INR N)%R in
  let strengthScore := Rmin (INR strengthCount / 3) 1 in
  let weaknessScore := Rmax 0 (1 - INR weaknessCount / 3) in
  Rmin (95 / 100)
       (5 / 10 * rankScore + 3 / 10 * strengthScore + 2 / 10 * weaknessScore)%R.

(** ** Inputs on binary64 *)

Module Scenario.
Import Float64.
Local Open Scope float_scope.
Local Open Scope string_scope.

Definition criterion (id name : string) (weight : float) (type : ConstraintType)
    (direction : ConstraintDirection) (max : float) : Constraint float :=
  {| c_id := id; c_name := name; c_weight := weight; c_type := type;
     c_direction := direction;
     c_scale := {| scale_min := 0; scale_max := max |} |}.

Definition alternative (id name : string) (scores : list (string * float))
    : Option float :=
  {| opt_id := id; opt_name := name; opt_scores := JSMap.of_entries scores |}.

(** The supplier selection example of the engine's test suite. *)
Definition supplierCriteria : list (Constraint float) :=
  [ criterion "cost" "Cost" 30 cost minimize 500;
    criterion "quality" "Quality" 40 performance maximize 50;
    criterion "delivery" "Delivery Time" 20 performance maximize 10;
    criterion "service" "Service Level" 10 performance maximize 10 ].

Definition suppliers : list (Option float) :=
  [ alternative "supplier_a" "Supplier A"
      [("cost", 250); ("quality", 16); ("delivery", 8.5); ("service", 5)];
    alternative "supplier_b" "Supplier B"
      [("cost", 200); ("quality", 16); ("delivery", 9); ("service", 4)];
    alternative "supplier_c" "Supplier C"
      [("cost", 300); ("quality", 32); ("delivery", 7); ("service", 4)] ].

(** Two options on cost and performance, as in the basic test. *)
Definition option1 : Option float :=
  alternative "opt1" "Option 1" [("cost", 100); ("performance", 80)].

Definition option2 : Option float :=
  alternative "opt2" "Option 2" [("cost", 80); ("performance", 90)].

Definition twoOptions : list (Option float) := [option1; option2].

Definition costCriterion (weight : float) : Constraint float :=
  criterion "cost" "Cost" weight cost minimize 200.

Definition performanceCriterion (weight : float) : Constraint float :=
  criterion "performance" "Performance" weight performance maximize 100.

Definition twoCriteria (costWeight performanceWeight : float)
    : list (Constraint float) :=
  [costCriterion costWeight; performanceCriterion performanceWeight].
End Scenario.

(** Two alternatives whose closeness scores tie exactly at 1/2; the third
    criterion does not separate them.  The weights sum to 100. *)
Module TiedScenario.
Import Float64.
Local Open Scope float_scope.
Local Open Scope string_scope.

Definition criteria : list (Constraint float) :=
  [ Scenario.criterion "x" "X" 50 performance maximize 10;
    Scenario.criterion "y" "Y" 10 performance maximize 10;
    Scenario.criterion "z" "Z" 40 performance maximize 10 ].

Definition alternatives : list (Option float) :=
  [ Scenario.alternative "a" "A" [("x", 3); ("y", 1); ("z", 1)];
    Scenario.alternative "b" "B" [("x", 4); ("y", 0); ("z", 1)] ].
End TiedScenario.

(** The two options of the basic test, the second without a performance
    score. *)
Module MissingScenario.
Local Open Scope float_scope.
Local Open Scope string_scope.

Definition criteria : list (Constraint float) := Scenario.twoCriteria 60 40.

Definition incomplete : list (Option float) :=
  [ Scenario.alternative "opt1" "Option 1" [("cost", 100); ("performance", 80)];
    Scenario.alternative "opt2" "Option 2" [("cost", 80)] ].
End MissingScenario.

(** Weights so large that the squares of the weighted gaps overflow.  A
    weight is validated as a finite number only, so these pass. *)
Module OverflowScenario.
Local Open Scope float_scope.
Local Open Scope string_scope.



(** One criterion weighted 2^520, about 3.4e156, and four options: the
    squared gap between the best and the worst weighted value overflows,
    the smaller gaps do not. *)
Definition criteria : list (Constraint float) :=
  [ Scenario.criterion "x" "X" 0x1p+520 performance maximize 10 ].

Definition alternatives : list (Option float) :=
  [ Scenario.alternative "mid1" "Mid 1" [("x", 2)];
    Scenario.alternative "low" "Low" [("x", 1)];
    Scenario.alternative "top" "Top" [("x", 4)];
    Scenario.alternative "mid2" "Mid 2" [("x", 3)] ].
End OverflowScenario.

(** Two options filed under the same identifier, the second better on the
    one criterion. *)
Module DuplicateScenario.
Local Open Scope float_scope.
Local Open Scope string_scope.

Definition criteria : list (Constraint float) :=
  [ Scenario.criterion "x" "X" 100 performance maximize 10 ].

Definition alternatives : list (Option float) :=
  [ Scenario.alternative "a" "First" [("x", 1)];
    Scenario.alternative "a" "Second" [("x", 2)] ].
End DuplicateScenario.

(** Three options, two of them under one identifier, with closeness scores
    that all differ. *)
Module SharedIdScenario.
Local Open Scope float_scope.
Local Open Scope string_scope.
Definition criteria : list (Constraint float) :=
  [ Scenario.criterion "x" "X" 50 performance maximize 10;
    Scenario.criterion "y" "Y" 50 performance maximize 10 ].
Definition alternatives : list (Option float) :=
  [ Scenario.alternative "a" "First" [("x", 4); ("y", 1)];
    Scenario.alternative "a" "Second" [("x", 1); ("y", 3)];
    Scenario.alternative "b" "Third" [("x", 2); ("y", 4)] ].
End SharedIdScenario.

(** Three options, each with one score that is NaN, so that each is ahead of
    the next on one criterion and comparable with it on no other.  The
    scoring result is that of the same three identifiers with 0 in place of
    NaN. *)
Module CycleScenario.
Local Open Scope float_scope.
Local Open Scope string_scope.

Definition criteria : list (Constraint float) :=
  [ Scenario.criterion "x" "X" 40 performance maximize 10;
    Scenario.criterion "y" "Y" 30 performance maximize 10;
    Scenario.criterion "z" "Z" 30 performance maximize 10 ].

Definition alternatives : list (Option float) :=
  [ Scenario.alternative "a" "A" [("x", 2); ("y", nan); ("z", 1)];
    Scenario.alternative "b" "B" [("x", 1); ("y", 2); ("z", nan)];
    Scenario.alternative "c" "C" [("x", nan); ("y", 1); ("z", 2)] ].

Definition measured : list (Option float) :=
  [ Scenario.alternative "a" "A" [("x", 2); ("y", 0); ("z", 1)];
    Scenario.alternative "b" "B" [("x", 1); ("y", 2); ("z", 0)];
    Scenario.alternative "c" "C" [("x", 0); ("y", 1); ("z", 2)] ].
End CycleScenario.

(** ** The order of binary64 *)

(** The place of a binary64 value other than NaN in the order of [<]: minus
    infinity, the negative numbers, the two zeros, the positive numbers,
    infinity; numbers of one sign by exponent and then by mantissa. *)
Definition orderKey (x : spec_float) : Z * Z * Z :=
  match x with
  | S754_nan => (0, 0, 0)%Z
  | S754_infinity true => (-2, 0, 0)%Z
  | S754_infinity false => (2, 0, 0)%Z
  | S754_zero _ => (0, 0, 0)%Z
  | S754_finite true m e => (-1, - e, Zneg m)%Z
  | S754_finite false m e => (1, e, Zpos m)%Z
  end.

(** The lexicographic order of the keys. *)
Definition keyBelow (a b : Z * Z * Z) : Prop :=
  (fst (fst a) < fst (fst b))%Z \/
  (fst (fst a) = fst (fst b) /\
   ((snd (fst a) < snd (fst b))%Z \/
    (snd (fst a) = snd (fst b) /\ (snd a < snd b)%Z))).

(** ** An input over the reals *)

(** A small input over the reals: two options, scored 3 and 4 on x and 1 and
    0 on y, both criteria to maximize with weight 50. *)
Module ExactScenario.
Local Open Scope R_scope.
Local Open Scope string_scope.

Definition criterion (id : string) (weight : R) : Constraint R :=
  {| c_id := id; c_name := id; c_weight := weight; c_type := performance;
     c_direction := maximize;
     c_scale := {| scale_min := 0; scale_max := 10 |} |}.

Definition alternative (id : string) (x y : R) : Option R :=
  {| opt_id := id; opt_name := id; opt_scores := [("x", x); ("y", y)] |}.

Definition criteria : list (Constraint R) := [criterion "x" 50; criterion "y" 50].
Definition alternatives : list (Option R) := [alternative "a" 3 1; alternative "b" 4 0].

(** The scoring result of this input, written out. *)
Definition scoring : ScoringResult R :=
  {| rankings :=
       [ {| r_option := alternative "a" 3 1; r_rank := 1; r_closenessScore := 5 / 6;
            r_strengthAreas := ["y"]; r_weaknessAreas := [] |};
         {| r_option := alternative "b" 4 0; r_rank := 2; r_closenessScore := 1 / 6;
            r_strengthAreas := ["x"]; r_weaknessAreas := [] |} ];
     normalizedScores :=
       [("a", [("x", 3 / 5); ("y", 1)]); ("b", [("x", 4 / 5); ("y", 0)])];
     weightedScores :=
       [("a", [("x", 3 / 10); ("y", 1 / 2)]); ("b", [("x", 2 / 5); ("y", 0)])];
     closenessScores := [("a", 5 / 6); ("b", 1 / 6)];
     idealSolution := [2 / 5; 1 / 2];
     negativeIdealSolution := [3 / 10; 0] |}.
End ExactScenario.

(** ** Further vocabulary *)

(** The codes of the errors that the engine's validation raises. *)
Definition validationCodes : list string :=
  [ "INSUFFICIENT_OPTIONS"; "NO_CONSTRAINTS"; "MISSING_SCORE"; "INVALID_SCORE";
    "INVALID_WEIGHT" ]%string.

(** The four conditions under which the engine's validation raises no
    error. *)
Definition acceptable {num : Type} `{Number num}
    (options : list (Option num)) (constraints : list (Constraint num)) : Prop :=
  (2 <= List.length options)%nat /\
  (1 <= List.length constraints)%nat /\
  (forall o c, In o options -> In c constraints ->
     exists s, JSMap.get (opt_scores o) (c_id c) = Some s /\ invalidNumber s = false) /\
  (forall c, In c constraints -> invalidNumber (c_weight c) = false).

(** The weighted normalized decision matrix that [calculateScores] works
    on. *)
Definition weightedMatrixOf {num : Type} `{Number num}
    (options : list (Option num)) (constraints : list (Constraint num))
    : list (list num) :=
  applyWeights (normalizeMatrix (buildDecisionMatrix options constraints) constraints)
               constraints.

(** Two alternatives over the reals, the first at least as good as the second
    on both criteria. *)
Module LeaderScenario.
Local Open Scope R_scope.
Local Open Scope string_scope.

Definition leader : Option R := ExactScenario.alternative "a" 4 1.
Definition alternatives : list (Option R) :=
  [leader; ExactScenario.alternative "b" 3 0].
End LeaderScenario.

(** One pass of the body of the double loop of [findDominantOptions], at the
    positions and options [(i, a)] and [(j, b)].  The loop records that [a]
    dominates [b] when the positions differ and [dominates] says so. *)
Definition recordsDominance {num : Type} `{Number num}
    (constraints : list (Constraint num))
    (e : (nat * Option num) * (nat * Option num)) : bool :=
  negb (fst (fst e) =? fst (snd e))%nat
  && dominates (snd (fst e)) (snd (snd e)) constraints.

Definition dominatorId {num : Type}
    (e : (nat * Option num) * (nat * Option num)) : string :=
  opt_id (snd (fst e)).

Definition dominatedId {num : Type}
    (e : (nat * Option num) * (nat * Option num)) : string :=
  opt_id (snd (snd e)).

(** Option [a] at one position of the input dominates option [b] at
    another. *)
Definition dominatesAmong {num : Type} `{Number num}
    (options : list (Option num)) (constraints : list (Constraint num))
    (a b : Option num) : Prop :=
  exists i j, i <> j /\ nth_error options i = Some a /\ nth_error options j = Some b /\
              dominates a b constraints = true.

(** ** The option store *)

(** What [validateOption] asks of an option: an identifier of letters,
    digits, underscores and hyphens, a name that is not blank, and scores
    that are finite numbers. *)
Definition wellFormedOption {num : Type} `{Number num} (o : Option num) : Prop :=
  idFormat (opt_id o) = true /\
  missing (opt_name o) = false /\
  forall k v, In (k, v) (opt_scores o) -> isNaN v = false /\ isFinite v = true.

(** Every option is filed once, under its own identifier, is well formed, and
    there are no more than [MAX_OPTIONS] of them. *)
Definition consistentStore {num : Type} `{Number num}
    (options : JSMap.t (Option num)) : Prop :=
  (JSMap.size options <= OptionManager.MAX_OPTIONS)%nat /\
  NoDup (JSMap.keys options) /\
  forall k o, In (k, o) options -> opt_id o = k /\ wellFormedOption o.

(** The calls that change the store. *)
Inductive StoreCall (num : Type) : Type :=
| CallAdd (option : Option num)
| CallRemove (optionId : string)
| CallClear.
Arguments CallAdd {num} option.
Arguments CallRemove {num} optionId.
Arguments CallClear {num}.

(** The store after a sequence of calls, whatever each call returned. *)
Definition afterCall {num : Type} `{Number num}
    (options : JSMap.t (Option num)) (call : StoreCall num) : JSMap.t (Option num) :=
  match call with
  | CallAdd option => snd (OptionManager.addOption options option)
  | CallRemove optionId => snd (OptionManager.removeOption options optionId)
  | CallClear => OptionManager.clear options
  end.

Definition afterCalls {num : Type} `{Number num}
    (calls : list (StoreCall num)) : JSMap.t (Option num) :=
  fold_left afterCall calls [].

(** ** A change of unit *)

(** The option with its score on criterion [k] multiplied by [c], as when the
    unit of that criterion changes. *)
Definition rescaleScore {num : Type} `{Number num} (k : string) (c : num)
    (o : Option num) : Option num :=
  {| opt_id := opt_id o;
     opt_name := opt_name o;
     opt_scores :=
       map (fun entry => if String.eqb (fst entry) k
                         then (fst entry, (c * snd entry)%js) else entry)
           (opt_scores o) |}.

(** A ranking without the option's scores: identifier, rank, closeness score
    and tags. *)
Definition rankingSummary {num : Type} (x : OptionRanking num)
    : string * Z * num * list string * list string :=
  (opt_id (r_option x), r_rank x, r_closenessScore x,
   r_strengthAreas x, r_weaknessAreas x).

(** Two alternatives over the reals with the same scores. *)
Module TwinScenario.
Local Open Scope R_scope.
Local Open Scope string_scope.

Definition first : Option R := ExactScenario.alternative "a" 3 1.
Definition second : Option R := ExactScenario.alternative "b" 3 1.
Definition alternatives : list (Option R) := [first; second].
End TwinScenario.

(* ================================================================== *)
(** * Properties *)

(** ** Arrays *)

Section ArrayFacts.
Context {A B : Type}.

Lemma mapi_from_length (f : nat -> A -> B) (l : list A) (k : nat) :
  List.length (mapi_from f k l) = List.length l.
Proof.
  revert k; induction l as [|x r IH]; intros k; simpl; [reflexivity|].
  now rewrite IH.
Qed.

Lemma mapi_length (f : nat -> A -> B) (l : list A) :
  List.length (mapi f l) = List.length l.
Proof. apply mapi_from_length. Qed.

Lemma mapi_from_nth_error (f : nat -> A -> B) (l : list A) (k n : nat) :
  nth_error (mapi_from f k l) n = option_map (f (k + n)%nat) (nth_error l n).
Proof.
  revert k n; induction l as [|x r IH]; intros k n; simpl.
  - now destruct n.
  - destruct n as [|n]; simpl.
    + now rewrite Nat.add_0_r.
    + rewrite IH. now replace (S k + n)%nat with (k + S n)%nat by lia.
Qed.

Lemma mapi_nth_error (f : nat -> A -> B) (l : list A) (n : nat) :
  nth_error (mapi f l) n = option_map (f n) (nth_error l n).
Proof. apply (mapi_from_nth_error f l 0 n). Qed.

Lemma mapi_from_In (f : nat -> A -> B) (l : list A) (k : nat) (y : B) :
  In y (mapi_from f k l) <->
  exists n x, nth_error l n = Some x /\ y = f (k + n)%nat x.
Proof.
  split.
  - intros Hy. apply In_nth_error in Hy as [n Hn].
    rewrite mapi_from_nth_error in Hn.
    destruct (nth_error l n) as [x|] eqn:E; [|discriminate].
    exists n, x. split; [exact E|]. simpl in Hn. congruence.
  - intros (n & x & Hn & ->).
    apply nth_error_In with (n := n).
    now rewrite mapi_from_nth_error, Hn.
Qed.

Lemma mapi_In (f : nat -> A -> B) (l : list A) (y : B) :
  In y (mapi f l) <-> exists n x, nth_error l n = Some x /\ y = f n x.
Proof. apply (mapi_from_In f l 0 y). Qed.

Lemma mapi_from_ext (f g : nat -> A -> B) (l : list A) (k : nat) :
  (forall n x, nth_error l n = Some x -> f (k + n)%nat x = g (k + n)%nat x) ->
  mapi_from f k l = mapi_from g k l.
Proof.
  revert k; induction l as [|x r IH]; intros k Hfg; simpl; [reflexivity|].
  f_equal.
  - specialize (Hfg 0%nat x eq_refl). now rewrite Nat.add_0_r in Hfg.
  - apply IH. intros n y Hn.
    replace (S k + n)%nat with (k + S n)%nat by lia. now apply Hfg.
Qed.

Lemma mapi_ext (f g : nat -> A -> B) (l : list A) :
  (forall n x, nth_error l n = Some x -> f n x = g n x) ->
  mapi f l = mapi g l.
Proof. intros Hfg. apply mapi_from_ext. exact Hfg. Qed.
End ArrayFacts.

Lemma mapi_from_map {A B C : Type} (f : nat -> B -> C) (g : A -> B)
    (l : list A) (k : nat) :
  mapi_from f k (map g l) = mapi_from (fun n x => f n (g x)) k l.
Proof.
  revert k; induction l as [|x r IH]; intros k; simpl; [reflexivity|].
  now rewrite IH.
Qed.

Lemma map_mapi_from {A B C : Type} (g : B -> C) (f : nat -> A -> B)
    (l : list A) (k : nat) :
  map g (mapi_from f k l) = mapi_from (fun n x => g (f n x)) k l.
Proof.
  revert k; induction l as [|x r IH]; intros k; simpl; [reflexivity|].
  now rewrite IH.
Qed.

Lemma mapi_from_index {A : Type} (l : list A) (k : nat) :
  mapi_from (fun n _ => n) k l = seq k (List.length l).
Proof.
  revert k; induction l as [|x r IH]; intros k; simpl; [reflexivity|].
  now rewrite IH.
Qed.

(** ** The sort permutes its argument, whatever the comparator answers *)

Section SortFacts.
Context {num : Type} `{Number num} {A : Type}.
Variable cmp : A -> A -> num.

Lemma sort_insert_perm (x : A) (l : list A) :
  Permutation (sort_insert cmp x l) (x :: l).
Proof.
  induction l as [|y r IH]; simpl; [reflexivity|].
  destruct (cmp x y >? of_Z 0)%js; [|reflexivity].
  rewrite IH. apply perm_swap.
Qed.

Lemma sort_perm (l : list A) : Permutation (sort cmp l) l.
Proof.
  induction l as [|x r IH]; simpl; [reflexivity|].
  rewrite sort_insert_perm. now constructor.
Qed.

Lemma sort_In (l : list A) (x : A) : In x (sort cmp l) <-> In x l.
Proof.
  split; apply Permutation_in; [apply sort_perm|].
  symmetry; apply sort_perm.
Qed.

Lemma sort_length (l : list A) : List.length (sort cmp l) = List.length l.
Proof. apply Permutation_length, sort_perm. Qed.
End SortFacts.

(* ================================================================== *)
(** ** The engine on binary64: literals and two runs *)

(** [lit n d] is the double a JavaScript engine reads the literal as: 0.95,
    0.75, 0.25, 0.5, 0.3, 0.2, 0.15, 0.01 and 0.6. *)
Lemma decimal_literals_binary64 :
  [lit 95 100; lit 75 100; lit 25 100; lit 5 10; lit 3 10; lit 2 10;
   lit 15 100; lit 1 100; lit 6 10]
  = [0x1.e666666666666p-1; 0x1.8p-1; 0x1p-2; 0x1p-1; 0x1.3333333333333p-2;
     0x1.999999999999ap-3; 0x1.3333333333333p-3; 0x1.47ae147ae147bp-7;
     0x1.3333333333333p-1]%float.
Proof. vm_compute. reflexivity. Qed.

(** C9: on the three suppliers the engine ranks C first, B second and A
    third; C's closeness score is above 0.6 and the three scores are strictly
    descending. *)
Theorem supplier_scenario_ranking :
  exists (r : ScoringResult float) (cC cB cA : float),
    calculateScores Scenario.suppliers Scenario.supplierCriteria = Success r /\
    rankOrder r
      = [("supplier_c"%string, 1%Z); ("supplier_b"%string, 2%Z);
         ("supplier_a"%string, 3%Z)] /\
    map (@r_closenessScore float) (rankings r) = [cC; cB; cA] /\
    (cC >? lit 6 10)%js = true /\
    (cC >? cB)%js = true /\ (cB >? cA)%js = true.
Proof.
  do 4 eexists.
  split; [vm_compute; reflexivity|].
  split; [vm_compute; reflexivity|].
  split; [vm_compute; reflexivity|].
  repeat split; vm_compute; reflexivity.
Qed.

(** C1, the failing input: with weights 130 and -30 the validation reports no
    error and no warning, and the call succeeds with a ranking instead of
    failing with [INVALID_WEIGHT]. *)
Theorem negative_weight_accepted :
  let constraints := Scenario.twoCriteria 130%float (-30)%float in
  let validation := topsis_validateInputs Scenario.twoOptions constraints in
  existsb (fun c => (c_weight c <? zero)%js) constraints = true /\
  errors validation = [] /\
  warnings validation = [] /\
  exists r : ScoringResult float,
    calculateScores Scenario.twoOptions constraints = Success r /\
    rankOrder r = [("opt2"%string, 1%Z); ("opt1"%string, 2%Z)].
Proof.
  cbv zeta.
  split; [vm_compute; reflexivity|].
  split; [vm_compute; reflexivity|].
  split; [vm_compute; reflexivity|].
  eexists. split; vm_compute; reflexivity.
Qed.

(* ================================================================== *)
(** ** Validation in the scoring engine *)

Section ValidationFacts.
Context {num : Type} `{Number num}.

Lemma concat_all_nil {A : Type} (l : list (list A)) :
  (forall x, In x l -> x = []) -> List.concat l = [].
Proof.
  induction l as [|x r IH]; intros Hall; simpl; [reflexivity|].
  rewrite (Hall x (or_introl eq_refl)), IH; [reflexivity|].
  intros y Hy. apply Hall. now right.
Qed.

Lemma In_concat_intro {A : Type} (l : list (list A)) (x : list A) (a : A) :
  In x l -> In a x -> In a (List.concat l).
Proof. intros Hx Ha. apply in_concat. now exists x. Qed.

(** Scores that are all present and finite raise no error. *)
Lemma scoreErrors_none (options : list (Option num)) (constraints : list (Constraint num)) :
  (forall o c, In o options -> In c constraints ->
     exists s, JSMap.get (opt_scores o) (c_id c) = Some s /\ invalidNumber s = false) ->
  List.concat
    (mapi (fun i option => List.concat (map (scoreErrors i option) constraints))
          options) = [].
Proof.
  intros Hok. apply concat_all_nil. intros errs Herrs.
  apply mapi_In in Herrs as (i & o & Hio & ->).
  apply concat_all_nil. intros e He.
  apply in_map_iff in He as (c & <- & Hc).
  destruct (Hok o c (nth_error_In _ _ Hio) Hc) as (s & Hs & Hfin).
  unfold scoreErrors. now rewrite Hs, Hfin.
Qed.

Lemma weightErrors_code (constraints : list (Constraint num)) (e : ValidationError num) :
  In e (List.concat (map weightErrors constraints)) -> code e = "INVALID_WEIGHT"%string.
Proof.
  intros He. apply in_concat in He as (errs & Herrs & He).
  apply in_map_iff in Herrs as (c & <- & _).
  unfold weightErrors in He.
  destruct (invalidNumber (c_weight c)); simpl in He; [|contradiction].
  destruct He as [<-|[]]. reflexivity.
Qed.

Lemma weightErrors_some (constraints : list (Constraint num)) (c : Constraint num) :
  In c constraints -> invalidNumber (c_weight c) = true ->
  List.concat (map weightErrors constraints) <> [].
Proof.
  intros Hc Hbad Hnil.
  assert (Hin : In (createValidationError "constraints"
                      (MsgInvalidWeight (c_id c) (c_weight c)) "INVALID_WEIGHT")
                   (List.concat (map weightErrors constraints))).
  { apply In_concat_intro with (x := weightErrors c).
    - now apply in_map.
    - unfold weightErrors. rewrite Hbad. now left. }
  rewrite Hnil in Hin. contradiction.
Qed.

(** A weight that is NaN or infinite, all else being in order, makes the call
    fail with [INVALID_WEIGHT]. *)
Lemma non_finite_weight_rejected
    (options : list (Option num)) (constraints : list (Constraint num)) :
  (2 <= List.length options)%nat ->
  (forall o c, In o options -> In c constraints ->
     exists s, JSMap.get (opt_scores o) (c_id c) = Some s /\ invalidNumber s = false) ->
  (exists c, In c constraints /\ invalidNumber (c_weight c) = true) ->
  exists e, calculateScores options constraints = Failure e /\
            code e = "INVALID_WEIGHT"%string.
Proof.
  intros Hlen Hscores (c & Hc & Hbad).
  unfold calculateScores, topsis_validateInputs. cbn [errors].
  assert (Hcs : (0 < List.length constraints)%nat)
    by (destruct constraints; [contradiction|simpl; lia]).
  replace (List.length options <? 2)%nat with false
    by (symmetry; apply Nat.ltb_ge; lia).
  replace (List.length constraints =? 0)%nat with false
    by (symmetry; apply Nat.eqb_neq; lia).
  replace (0 <? List.length options)%nat with true
    by (symmetry; apply Nat.ltb_lt; lia).
  replace (0 <? List.length constraints)%nat with true
    by (symmetry; apply Nat.ltb_lt; lia).
  cbn [andb app]. rewrite (scoreErrors_none _ _ Hscores). cbn [app].
  destruct (List.concat (map weightErrors constraints)) as [|e rest] eqn:E.
  - exfalso. now apply (weightErrors_some _ _ Hc Hbad).
  - exists e. split; [reflexivity|].
    apply (weightErrors_code constraints). rewrite E. now left.
Qed.

(** A missing score puts a [MISSING_SCORE] error in the validation result. *)
Lemma missing_score_reported
    (options : list (Option num)) (constraints : list (Constraint num))
    (o : Option num) (c : Constraint num) :
  In o options -> In c constraints ->
  JSMap.has (opt_scores o) (c_id c) = false ->
  exists e, In e (errors (topsis_validateInputs options constraints)) /\
            code e = "MISSING_SCORE"%string.
Proof.
  intros Ho Hc Hmiss.
  apply In_nth_error in Ho as [i Hi].
  exists (createValidationError
            ("options[" ++ nat_to_string i ++ "].scores")%string
            (MsgMissingScore (opt_name o) (c_id c)) "MISSING_SCORE").
  split; [|reflexivity].
  unfold topsis_validateInputs. cbn [errors].
  assert (Hos : (0 < List.length options)%nat).
  { destruct options; [destruct i; discriminate|simpl; lia]. }
  assert (Hcs : (0 < List.length constraints)%nat)
    by (destruct constraints; [contradiction|simpl; lia]).
  replace (0 <? List.length options)%nat with true
    by (symmetry; apply Nat.ltb_lt; lia).
  replace (0 <? List.length constraints)%nat with true
    by (symmetry; apply Nat.ltb_lt; lia).
  cbn [andb]. apply in_or_app; right. apply in_or_app; right.
  apply in_or_app; left.
  apply In_concat_intro
    with (x := List.concat (map (scoreErrors i o) constraints)).
  - apply mapi_In. now exists i, o.
  - apply In_concat_intro with (x := scoreErrors i o c).
    + now apply in_map.
    + unfold scoreErrors. unfold JSMap.has in Hmiss.
      destruct (JSMap.get (opt_scores o) (c_id c)); [discriminate|now left].
Qed.

Lemma calculateScores_fails_on_errors
    (options : list (Option num)) (constraints : list (Constraint num)) :
  errors (topsis_validateInputs options constraints) <> [] ->
  exists e, calculateScores options constraints = Failure e /\
            In e (errors (topsis_validateInputs options constraints)).
Proof.
  intros Hne. unfold calculateScores.
  destruct (errors (topsis_validateInputs options constraints)) as [|e rest];
    [contradiction|].
  exists e. split; [reflexivity|now left].
Qed.

Lemma calculateScores_success_inv
    (options : list (Option num)) (constraints : list (Constraint num))
    (r : ScoringResult num) :
  calculateScores options constraints = Success r ->
  errors (topsis_validateInputs options constraints) = [] /\
  let decisionMatrix := buildDecisionMatrix options constraints in
  let normalizedMatrix := normalizeMatrix decisionMatrix constraints in
  let weightedMatrix := applyWeights normalizedMatrix constraints in
  let ideals := calculateIdealSolutions weightedMatrix constraints in
  let distances := calculateDistances weightedMatrix (fst ideals) (snd ideals) in
  let closenessList := calculateClosenessScores (fst distances) (snd distances) in
  r = {| rankings := generateRankings options closenessList weightedMatrix constraints;
         normalizedScores := buildScoreMap options constraints normalizedMatrix;
         weightedScores := buildScoreMap options constraints weightedMatrix;
         closenessScores :=
           JSMap.of_entries
             (mapi (fun index option => (opt_id option, nth index closenessList zero))
                   options);
         idealSolution := fst ideals;
         negativeIdealSolution := snd ideals |}.
Proof.
  unfold calculateScores.
  destruct (errors (topsis_validateInputs options constraints)) as [|e rest];
    [|discriminate].
  intros Hr. split; [reflexivity|].
  cbv zeta in *. unfold createSuccess in Hr.
  destruct (calculateIdealSolutions _ _) as [ideal negativeIdeal].
  destruct (calculateDistances _ _ _) as [pos neg].
  simpl fst; simpl snd. congruence.
Qed.

Lemma validated_sizes
    (options : list (Option num)) (constraints : list (Constraint num)) :
  errors (topsis_validateInputs options constraints) = [] ->
  (2 <= List.length options)%nat /\ (1 <= List.length constraints)%nat.
Proof.
  unfold topsis_validateInputs. cbn [errors]. intros Herr.
  destruct (List.length options <? 2)%nat eqn:E1; [discriminate|].
  destruct (List.length constraints =? 0)%nat eqn:E2; [discriminate|].
  apply Nat.ltb_ge in E1. apply Nat.eqb_neq in E2. lia.
Qed.
End ValidationFacts.

(* ================================================================== *)
(** ** The weighting step *)

Section WeightingFacts.
Context {num : Type} `{Number num}.
Local Open Scope js_scope.

Lemma buildDecisionMatrix_length
    (options : list (Option num)) (constraints : list (Constraint num)) :
  List.length (buildDecisionMatrix options constraints) = List.length options.
Proof. unfold buildDecisionMatrix. apply length_map. Qed.

Lemma normalizeMatrix_length (m : list (list num)) (constraints : list (Constraint num)) :
  List.length (normalizeMatrix m constraints) = List.length m.
Proof. unfold normalizeMatrix. apply length_map. Qed.

Lemma applyWeights_length (m : list (list num)) (constraints : list (Constraint num)) :
  List.length (applyWeights m constraints) = List.length m.
Proof. unfold applyWeights. apply length_map. Qed.

(** Cell by cell, the weighted value is the normalized value times the
    criterion's own weight over 100. *)
Lemma cell_applyWeights
    (normalizedMatrix : list (list num)) (constraints : list (Constraint num))
    (i j : nat) (c : Constraint num) :
  (i < List.length normalizedMatrix)%nat ->
  nth_error constraints j = Some c ->
  cell (applyWeights normalizedMatrix constraints) i j
  = cell normalizedMatrix i j * (c_weight c / of_Z 100).
Proof.
  intros Hi Hj. unfold cell, applyWeights.
  destruct (nth_error normalizedMatrix i) as [row|] eqn:Hrow.
  2:{ apply nth_error_None in Hrow. lia. }
  rewrite (nth_error_nth _ _ _ Hrow).
  set (weigh := fun row : list num => mapi _ constraints).
  assert (Hw : nth_error (map weigh normalizedMatrix) i = Some (weigh row))
    by (rewrite nth_error_map, Hrow; reflexivity).
  rewrite (nth_error_nth _ _ _ Hw). unfold weigh.
  apply nth_error_nth. rewrite mapi_nth_error, Hj. reflexivity.
Qed.
End WeightingFacts.

(** C8, as the code has it: the weights are applied as they are given.  In a
    successful result the weighted scores are the normalized scores times
    [weight_j / 100], whatever the weights sum to. *)
Theorem weights_applied_as_given
    {num : Type} `{Number num}
    (options : list (Option num)) (constraints : list (Constraint num))
    (r : ScoringResult num) :
  calculateScores options constraints = Success r ->
  exists normalizedMatrix weightedMatrix : list (list num),
    normalizedScores r = buildScoreMap options constraints normalizedMatrix /\
    weightedScores r = buildScoreMap options constraints weightedMatrix /\
    forall i j c,
      (i < List.length options)%nat ->
      nth_error constraints j = Some c ->
      cell weightedMatrix i j
      = (cell normalizedMatrix i j * (c_weight c / of_Z 100))%js.
Proof.
  intros Hr. apply calculateScores_success_inv in Hr as [_ Hr]. cbv zeta in Hr.
  exists (normalizeMatrix (buildDecisionMatrix options constraints) constraints).
  exists (applyWeights
            (normalizeMatrix (buildDecisionMatrix options constraints) constraints)
            constraints).
  subst r. cbn [normalizedScores weightedScores].
  split; [reflexivity|]. split; [reflexivity|].
  intros i j c Hi Hj. apply cell_applyWeights; [|exact Hj].
  now rewrite normalizeMatrix_length, buildDecisionMatrix_length.
Qed.

(** Weights 3 and 2, which sum to 5: the call succeeds and the weighted cost
    of the first option is its normalized cost times 0.03. *)
Lemma weights_applied_as_given_witness :
  exists r : ScoringResult float,
    calculateScores Scenario.twoOptions (Scenario.twoCriteria 3 2) = Success r /\
    exists normalizedMatrix weightedMatrix : list (list float),
      normalizedScores r
      = buildScoreMap Scenario.twoOptions (Scenario.twoCriteria 3 2) normalizedMatrix /\
      weightedScores r
      = buildScoreMap Scenario.twoOptions (Scenario.twoCriteria 3 2) weightedMatrix /\
      forall i j c,
        (i < List.length Scenario.twoOptions)%nat ->
        nth_error (Scenario.twoCriteria 3 2) j = Some c ->
        cell weightedMatrix i j
        = (cell normalizedMatrix i j * (c_weight c / of_Z 100))%js.
Proof.
  eexists. split; [vm_compute; reflexivity|].
  apply (@weights_applied_as_given float Float64.number
           Scenario.twoOptions (Scenario.twoCriteria 3 2)).
  vm_compute; reflexivity.
Defined.

(** C8 as stated fails: with weights 3 and 2 the weighted cost of the first
    option is its normalized cost times 3/100, a twentieth of what a
    re-normalization to [3 / (3 + 2)] would give. *)
Lemma no_defensive_renormalization :
  let constraints := Scenario.twoCriteria 3 2 in
  exists (r : ScoringResult float) (rowN rowW : JSMap.t float) (n w : float),
    calculateScores Scenario.twoOptions constraints = Success r /\
    JSMap.get (normalizedScores r) "opt1" = Some rowN /\
    JSMap.get rowN "cost" = Some n /\
    JSMap.get (weightedScores r) "opt1" = Some rowW /\
    JSMap.get rowW "cost" = Some w /\
    (w === n * lit 3 100)%js = true /\
    (w === n * of_Z 3 / totalWeight constraints)%js = false /\
    (w * of_Z 10 <? n * of_Z 3 / totalWeight constraints)%js = true.
Proof.
  cbv zeta. do 5 eexists.
  split; [vm_compute; reflexivity|].
  split; [vm_compute; reflexivity|].
  split; [vm_compute; reflexivity|].
  split; [vm_compute; reflexivity|].
  split; [vm_compute; reflexivity|].
  repeat split; vm_compute; reflexivity.
Qed.

(* ================================================================== *)
(** ** From the matrices to the rankings *)

Section RankingFacts.
Context {num : Type} `{Number num}.

Lemma indexedRankings_nth_error
    (options : list (Option num)) (closenessList : list num) (i : nat) :
  nth_error (indexedRankings options closenessList) i
  = option_map (fun option =>
                  {| ir_option := option; ir_index := i;
                     ir_closenessScore := nth i closenessList zero |})
               (nth_error options i).
Proof. unfold indexedRankings. apply mapi_nth_error. Qed.

Lemma indexedRankings_In
    (options : list (Option num)) (closenessList : list num) (item : IndexedRanking) :
  In item (indexedRankings options closenessList) ->
  nth_error options (ir_index item) = Some (ir_option item) /\
  ir_closenessScore item = nth (ir_index item) closenessList zero.
Proof.
  intros Hitem. apply mapi_In in Hitem as (i & o & Hi & ->). now split.
Qed.

Lemma indexedRankings_indices (options : list (Option num)) (closenessList : list num) :
  map ir_index (indexedRankings options closenessList)
  = seq 0 (List.length options).
Proof.
  unfold indexedRankings, mapi. rewrite map_mapi_from. cbn [ir_index].
  apply mapi_from_index.
Qed.

(** Every ranking is one of the options, with the closeness score computed for
    its position in the input. *)
Lemma generateRankings_In
    (options : list (Option num)) (closenessList : list num)
    (weightedMatrix : list (list num)) (constraints : list (Constraint num))
    (x : OptionRanking num) :
  In x (generateRankings options closenessList weightedMatrix constraints) ->
  exists i, nth_error options i = Some (r_option x) /\
            r_closenessScore x = nth i closenessList zero.
Proof.
  intros Hx. apply mapi_In in Hx as (k & item & Hk & ->).
  apply nth_error_In in Hk. apply sort_In in Hk.
  apply indexedRankings_In in Hk as [Ho Hc].
  exists (ir_index item). now split.
Qed.

(** The closeness score at position [i] comes from the two distances of row
    [i] of the weighted matrix. *)
Lemma closenessScores_nth
    (weightedMatrix : list (list num)) (ideal negativeIdeal row : list num) (i : nat) :
  nth_error weightedMatrix i = Some row ->
  nth i (calculateClosenessScores (map (distanceTo ideal) weightedMatrix)
                                  (map (distanceTo negativeIdeal) weightedMatrix))
        zero
  = closeness (distanceTo ideal row) (distanceTo negativeIdeal row).
Proof.
  intros Hrow. apply nth_error_nth. unfold calculateClosenessScores.
  rewrite mapi_nth_error, nth_error_map, Hrow. cbn [option_map]. f_equal. f_equal.
  apply nth_error_nth. now rewrite nth_error_map, Hrow.
Qed.
End RankingFacts.

(* ================================================================== *)
(** ** Exact arithmetic: the closeness score *)

Section ExactCloseness.
Local Open Scope R_scope.

Lemma Rltb_true (a b : R) : Exact.Rltb a b = true <-> a < b.
Proof. unfold Exact.Rltb. destruct (Rlt_dec a b); split; intros; try easy. Qed.

Lemma Rltb_false (a b : R) : Exact.Rltb a b = false <-> b <= a.
Proof.
  unfold Exact.Rltb. destruct (Rlt_dec a b); split; intros; try easy; lra.
Qed.

Lemma Rleb_true (a b : R) : Exact.Rleb a b = true <-> a <= b.
Proof. unfold Exact.Rleb. destruct (Rle_dec a b); split; intros; try easy. Qed.

Lemma Reqb_true (a b : R) : Exact.Reqb a b = true <-> a = b.
Proof. unfold Exact.Reqb. destruct (Req_dec_T a b); split; intros; try easy. Qed.

Lemma Reqb_false (a b : R) : Exact.Reqb a b = false <-> a <> b.
Proof. unfold Exact.Reqb. destruct (Req_dec_T a b); split; intros; try easy. Qed.

Lemma closeness_exact (p n : R) :
  closeness p n = if Req_dec_T (p + n) 0 then 1 else n / (p + n).
Proof.
  unfold closeness, zero. cbn [eqb add of_Z div Exact.number]. unfold Exact.Reqb.
  now destruct (Req_dec_T (p + n) 0).
Qed.



Lemma distanceTo_nonneg (point row : list R) : 0 <= distanceTo point row.
Proof. unfold distanceTo. apply sqrt_pos. Qed.
End ExactCloseness.

(** ** binary64: distances that are zero *)

Section RankingCloseness.
Context {num : Type} `{Number num}.

End RankingCloseness.

Section Binary64Zero.
Local Open Scope float_scope.


End Binary64Zero.


(* ================================================================== *)
(** ** The input over the reals, scored *)

Section ExactScenarioFacts.
Import ExactScenario.
Local Open Scope R_scope.

(** Settle the comparisons of real constants that a run meets. *)
Ltac decide_reals :=
  repeat match goal with
  | |- context [Rlt_dec ?a ?b] =>
      destruct (Rlt_dec a b); [try (exfalso; lra)|try (exfalso; lra)]
  | |- context [Req_dec_T ?a ?b] =>
      destruct (Req_dec_T a b); [try (exfalso; lra)|try (exfalso; lra)]
  | |- context [Rle_dec ?a ?b] =>
      destruct (Rle_dec a b); [try (exfalso; lra)|try (exfalso; lra)]
  end.

(** Compare two lists (or pairs of lists) entry by entry. *)
Ltac by_entries tac :=
  repeat match goal with
  | |- _ :: _ = _ :: _ => f_equal
  | |- (_, _) = (_, _) => f_equal
  end; try reflexivity; tac.

Lemma sqrt_of_square (x y : R) : 0 <= y -> x = y * y -> R_sqrt.sqrt x = y.
Proof. intros Hy ->. now apply sqrt_square. Qed.

Lemma exactScenario_distinct_ids : NoDup (map (@opt_id R) alternatives).
Proof. repeat constructor; simpl; intuition discriminate. Qed.

Lemma exactScenario_normalized :
  normalizeMatrix (buildDecisionMatrix alternatives criteria) criteria
  = [[3 / 5; 1]; [4 / 5; 0]].
Proof.
  cbv [normalizeMatrix buildDecisionMatrix alternatives criteria alternative
       criterion map mapi mapi_from score_or_zero JSMap.get opt_scores c_id
       String.eqb Ascii.eqb Bool.eqb columnSumSquares column nth fold_left zero
       ltb add mul div sqrt of_Z Exact.number Exact.Rltb].
  rewrite (@sqrt_of_square (0 + 3 * 3 + 4 * 4) 5) by lra.
  rewrite (@sqrt_of_square (0 + 1 * 1 + 0 * 0) 1) by lra.
  decide_reals. by_entries lra.
Qed.

Lemma exactScenario_weighted :
  applyWeights [[3 / 5; 1]; [4 / 5; 0]] criteria = [[3 / 10; 1 / 2]; [2 / 5; 0]].
Proof.
  cbv [applyWeights criteria criterion map mapi mapi_from nth c_weight zero
       mul div of_Z Exact.number].
  by_entries lra.
Qed.

Lemma exactScenario_ideals :
  calculateIdealSolutions [[3 / 10; 1 / 2]; [2 / 5; 0]] criteria
  = ([2 / 5; 1 / 2], [3 / 10; 0]).
Proof.
  cbv [calculateIdealSolutions criteria criterion map mapi mapi_from nth
       c_direction zero column Math_max Math_min fold_left max2 min2 of_Z
       Exact.number Rmax Rmin].
  decide_reals; reflexivity.
Qed.

Lemma exactScenario_distances :
  calculateDistances [[3 / 10; 1 / 2]; [2 / 5; 0]] [2 / 5; 1 / 2] [3 / 10; 0]
  = ([1 / 10; 1 / 2], [1 / 2; 1 / 10]).
Proof.
  cbv [calculateDistances distanceTo map mapi mapi_from nth fold_left zero
       add sub mul sqrt of_Z Exact.number].
  by_entries ltac:(apply sqrt_of_square; lra).
Qed.

Lemma exactScenario_closeness :
  calculateClosenessScores [1 / 10; 1 / 2] [1 / 2; 1 / 10] = [5 / 6; 1 / 6].
Proof.
  cbv [calculateClosenessScores closeness mapi mapi_from nth zero add div eqb
       of_Z Exact.number Exact.Reqb].
  decide_reals. by_entries lra.
Qed.

Lemma exactScenario_rankings :
  generateRankings alternatives [5 / 6; 1 / 6] [[3 / 10; 1 / 2]; [2 / 5; 0]] criteria
  = rankings scoring.
Proof.
  cbv [generateRankings indexedRankings sort fold_right sort_insert
       byClosenessDescending alternatives mapi mapi_from nth ir_closenessScore
       ir_option ir_index zero sub ltb of_Z Exact.number Exact.Rltb].
  decide_reals.
  cbv [topsis_identifyStrengths topsis_identifyWeaknesses tagPercentile cell
       column criteria criterion mapi mapi_from map nth c_direction c_name
       List.concat fold_right app sort sort_insert indexOf indexOf_from
       List.length lit zero sub ltb leb eqb div of_Z Exact.number Exact.Rltb
       Exact.Rleb Exact.Reqb Z.add Z.of_nat Pos.add Pos.of_succ_nat Pos.succ].
  decide_reals. reflexivity.
Qed.

(** The engine, run on the input over the reals, returns [scoring]. *)
Lemma exactScenario_scored : calculateScores alternatives criteria = Success scoring.
Proof.
  unfold calculateScores.
  change (errors (topsis_validateInputs alternatives criteria)) with
    (@nil (ValidationError R)).
  cbv iota zeta.
  rewrite exactScenario_normalized, exactScenario_weighted, exactScenario_ideals,
    exactScenario_distances, exactScenario_closeness, exactScenario_rankings.
  reflexivity.
Qed.
End ExactScenarioFacts.



(* ================================================================== *)
(** ** Exact arithmetic: the order of the rankings *)

Section SortedFacts.
Context {A B : Type}.


Lemma StronglySorted_of_map (R : B -> B -> Prop) (f : A -> B) (l : list A) :
  StronglySorted R (map f l) -> StronglySorted (fun a b => R (f a) (f b)) l.
Proof.
  induction l as [|a l IH]; simpl; intros Hs; [constructor|].
  apply StronglySorted_inv in Hs as [Hs Hall]. constructor; [now apply IH|].
  rewrite Forall_forall in *. intros b Hb. apply Hall. now apply in_map.
Qed.
End SortedFacts.

Lemma StronglySorted_seq (k n : nat) : StronglySorted lt (seq k n).
Proof.
  revert k; induction n as [|n IH]; intros k; simpl; constructor; [apply IH|].
  apply Forall_forall. intros j Hj. apply in_seq in Hj. lia.
Qed.

Lemma mapi_from_const {A B : Type} (g : A -> B) (l : list A) (k : nat) :
  mapi_from (fun _ x => g x) k l = map g l.
Proof.
  revert k; induction l as [|x r IH]; intros k; simpl; [reflexivity|].
  now rewrite IH.
Qed.


Section ExactOrder.
Local Open Scope R_scope.

Lemma placedBefore_score (a b : @IndexedRanking R) :
  placedBefore a b -> ir_closenessScore b <= ir_closenessScore a.
Proof. intros [Hgt|[Heq _]]; lra. Qed.

Lemma byClosenessDescending_swap (x y : @IndexedRanking R) :
  (byClosenessDescending x y >? of_Z 0)%js = true
  <-> ir_closenessScore x < ir_closenessScore y.
Proof.
  unfold byClosenessDescending. cbn [ltb sub of_Z Exact.number].
  rewrite Rltb_true. lra.
Qed.

Lemma sort_insert_placed (x : @IndexedRanking R) (l : list (@IndexedRanking R)) :
  StronglySorted placedBefore l ->
  Forall (fun z => (ir_index x < ir_index z)%nat) l ->
  StronglySorted placedBefore (sort_insert byClosenessDescending x l).
Proof.
  induction l as [|y r IH]; intros Hs Hidx; cbn [sort_insert].
  - constructor; constructor.
  - apply StronglySorted_inv in Hs as [Hs Hy].
    apply Forall_cons_iff in Hidx as [Hxy Hidx].
    destruct (byClosenessDescending x y >? of_Z 0)%js eqn:E.
    + apply byClosenessDescending_swap in E.
      constructor; [now apply IH|].
      apply Forall_forall. intros z Hz.
      apply (Permutation_in _ (sort_insert_perm _ x r)) in Hz.
      destruct Hz as [<-|Hz]; [left; lra|].
      rewrite Forall_forall in Hy. now apply Hy.
    + assert (Hle : ir_closenessScore y <= ir_closenessScore x).
      { destruct (Rlt_dec (ir_closenessScore x) (ir_closenessScore y)) as [Hlt|Hge];
          [|lra].
        apply byClosenessDescending_swap in Hlt. congruence. }
      constructor; [now constructor|].
      apply Forall_forall. intros z Hz.
      assert (Hzx : ir_closenessScore z <= ir_closenessScore x).
      { destruct Hz as [<-|Hz]; [exact Hle|].
        rewrite Forall_forall in Hy. specialize (Hy z Hz).
        apply placedBefore_score in Hy. lra. }
      assert (Hiz : (ir_index x < ir_index z)%nat).
      { destruct Hz as [<-|Hz]; [exact Hxy|].
        rewrite Forall_forall in Hidx. now apply Hidx. }
      destruct (Rle_lt_or_eq_dec _ _ Hzx) as [Hlt|Heq].
      * left. lra.
      * right. split; [now symmetry|exact Hiz].
Qed.

Lemma sort_placed (l : list (@IndexedRanking R)) :
  StronglySorted (fun a b => (ir_index a < ir_index b)%nat) l ->
  StronglySorted placedBefore (sort byClosenessDescending l).
Proof.
  induction l as [|x r IH]; intros Hs; simpl; [constructor|].
  apply StronglySorted_inv in Hs as [Hs Hx].
  apply sort_insert_placed; [now apply IH|].
  apply Forall_forall. intros z Hz. apply sort_In in Hz.
  rewrite Forall_forall in Hx. now apply Hx.
Qed.

Lemma sorted_indexedRankings (options : list (Option R)) (closenessList : list R) :
  StronglySorted placedBefore
    (sort byClosenessDescending (indexedRankings options closenessList)).
Proof.
  apply sort_placed. apply StronglySorted_of_map with (R := lt).
  rewrite indexedRankings_indices. apply StronglySorted_seq.
Qed.
End ExactOrder.

Section DenseRanks.
Context {num : Type} `{Number num}.

End DenseRanks.





(* ================================================================== *)
(** ** Scaling all weights by a constant *)

Section ExactScaling.
Local Open Scope R_scope.
Variable c : R.
Hypothesis c_pos : 0 < c.

Local Abbreviation scaled := (map (Rmult c)).

Lemma Rmin_scale (p q : R) : Rmin (c * p) (c * q) = c * Rmin p q.
Proof.
  unfold Rmin. destruct (Rle_dec (c * p) (c * q)), (Rle_dec p q);
    try reflexivity; exfalso; nra.
Qed.

Lemma Rmax_scale (p q : R) : Rmax (c * p) (c * q) = c * Rmax p q.
Proof. apply RmaxRmult. lra. Qed.

Lemma nth_scaled (l : list R) (j : nat) : nth j (scaled l) 0 = c * nth j l 0.
Proof.
  replace 0 with (c * 0) at 1 by lra. apply map_nth.
Qed.

Lemma Math_max_scaled (l : list R) : Math_max (scaled l) = c * Math_max l.
Proof.
  destruct l as [|x r]; simpl; [lra|].
  revert x. induction r as [|y r IH]; intros x; simpl; [reflexivity|].
  rewrite Rmax_scale. apply IH.
Qed.

Lemma Math_min_scaled (l : list R) : Math_min (scaled l) = c * Math_min l.
Proof.
  destruct l as [|x r]; simpl; [lra|].
  revert x. induction r as [|y r IH]; intros x; simpl; [reflexivity|].
  rewrite Rmin_scale. apply IH.
Qed.

Lemma column_scaled (m : list (list R)) (j : nat) :
  column (map scaled m) j = scaled (column m j).
Proof.
  unfold column. rewrite !map_map. apply map_ext.
  intros row. apply nth_scaled.
Qed.

Lemma scoreErrors_scaleWeights (i : nat) (o : Option R) (constraints : list (Constraint R)) :
  map (scoreErrors i o) (scaleWeights c constraints) = map (scoreErrors i o) constraints.
Proof. unfold scaleWeights. rewrite map_map. reflexivity. Qed.

Lemma weightErrors_exact (constraints : list (Constraint R)) :
  List.concat (map weightErrors constraints) = [].
Proof. apply concat_all_nil. intros e He. apply in_map_iff in He as (k & <- & _). reflexivity. Qed.

(** Validation raises the same errors for the scaled weights. *)
Lemma errors_scaleWeights (options : list (Option R)) (constraints : list (Constraint R)) :
  errors (topsis_validateInputs options (scaleWeights c constraints))
  = errors (topsis_validateInputs options constraints).
Proof.
  unfold topsis_validateInputs. cbn [errors].
  rewrite !weightErrors_exact.
  replace (List.length (scaleWeights c constraints)) with (List.length constraints)
    by (unfold scaleWeights; now rewrite length_map).
  do 3 f_equal.
  destruct ((0 <? List.length options)%nat && (0 <? List.length constraints)%nat);
    [|reflexivity].
  f_equal. apply mapi_ext. intros i o _. now rewrite scoreErrors_scaleWeights.
Qed.

Lemma buildDecisionMatrix_scaleWeights
    (options : list (Option R)) (constraints : list (Constraint R)) :
  buildDecisionMatrix options (scaleWeights c constraints)
  = buildDecisionMatrix options constraints.
Proof.
  unfold buildDecisionMatrix, scaleWeights. apply map_ext. intros o.
  now rewrite map_map.
Qed.

Lemma normalizeMatrix_scaleWeights (m : list (list R)) (constraints : list (Constraint R)) :
  normalizeMatrix m (scaleWeights c constraints) = normalizeMatrix m constraints.
Proof.
  unfold normalizeMatrix, scaleWeights, mapi. apply map_ext. intros row.
  now rewrite mapi_from_map.
Qed.

Lemma applyWeights_scaleWeights (m : list (list R)) (constraints : list (Constraint R)) :
  applyWeights m (scaleWeights c constraints) = map scaled (applyWeights m constraints).
Proof.
  unfold applyWeights, scaleWeights, mapi. rewrite map_map.
  apply map_ext. intros row. cbv beta.
  rewrite mapi_from_map, map_mapi_from. apply mapi_from_ext.
  intros j k _. cbn [c_weight mul div of_Z Exact.number]. lra.
Qed.

Lemma calculateIdealSolutions_scaled (m : list (list R)) (constraints : list (Constraint R)) :
  calculateIdealSolutions (map scaled m) (scaleWeights c constraints)
  = (scaled (fst (calculateIdealSolutions m constraints)),
     scaled (snd (calculateIdealSolutions m constraints))).
Proof.
  unfold calculateIdealSolutions, scaleWeights, mapi. cbn [fst snd].
  rewrite !mapi_from_map, !map_mapi_from.
  f_equal; apply mapi_from_ext; intros j k _; cbn [c_direction];
    rewrite column_scaled; destruct (c_direction k);
    first [apply Math_max_scaled | apply Math_min_scaled].
Qed.

Lemma sumSquares_scaled (ds : list R) (a : R) :
  fold_left (fun acc d => acc + d * d) (scaled ds) (c * c * a)
  = c * c * fold_left (fun acc d => acc + d * d) ds a.
Proof.
  revert a. induction ds as [|d ds IH]; intros a; simpl; [reflexivity|].
  replace (c * c * a + c * d * (c * d)) with (c * c * (a + d * d)) by ring.
  apply IH.
Qed.

Lemma sumSquares_nonneg (ds : list R) (a : R) :
  0 <= a -> 0 <= fold_left (fun acc d => acc + d * d) ds a.
Proof.
  revert a. induction ds as [|d ds IH]; intros a Ha; simpl; [exact Ha|].
  apply IH. nra.
Qed.

Lemma distanceTo_scaled (point row : list R) :
  distanceTo (scaled point) (scaled row) = c * distanceTo point row.
Proof.
  unfold distanceTo. cbn [sqrt add sub mul Exact.number]. unfold zero. cbn [of_Z Exact.number].
  replace (mapi (fun j x => x - nth j (scaled point) 0) (scaled row))
    with (scaled (mapi (fun j x => x - nth j point 0) row)).
  2:{ unfold mapi. rewrite mapi_from_map, map_mapi_from.
      apply mapi_from_ext. intros j x _. rewrite nth_scaled. ring. }
  replace 0 with (c * c * 0) at 1 by ring.
  rewrite sumSquares_scaled.
  rewrite sqrt_mult_alt by nra.
  rewrite sqrt_square by lra. reflexivity.
Qed.

Lemma calculateDistances_scaled (m : list (list R)) (ideal negativeIdeal : list R) :
  calculateDistances (map scaled m) (scaled ideal) (scaled negativeIdeal)
  = (scaled (fst (calculateDistances m ideal negativeIdeal)),
     scaled (snd (calculateDistances m ideal negativeIdeal))).
Proof.
  unfold calculateDistances. cbn [fst snd].
  rewrite !map_map. f_equal; apply map_ext; intros row; apply distanceTo_scaled.
Qed.

Lemma closeness_scaled (p n : R) : closeness (c * p) (c * n) = closeness p n.
Proof.
  rewrite !closeness_exact.
  destruct (Req_dec_T (c * p + c * n) 0) as [E|E], (Req_dec_T (p + n) 0) as [E'|E'];
    try reflexivity.
  - exfalso. apply E'. nra.
  - exfalso. apply E. nra.
  - field. split; [exact E'|lra].
Qed.

Lemma calculateClosenessScores_scaled (pos neg : list R) :
  calculateClosenessScores (scaled pos) (scaled neg) = calculateClosenessScores pos neg.
Proof.
  unfold calculateClosenessScores, mapi. rewrite mapi_from_map.
  apply mapi_from_ext. intros i p _. unfold zero. cbn [of_Z Exact.number].
  rewrite nth_scaled. apply closeness_scaled.
Qed.
End ExactScaling.

Lemma generateRankings_outline {num : Type} `{Number num}
    (options : list (Option num)) (closenessList : list num)
    (W W' : list (list num)) (constraints constraints' : list (Constraint num)) :
  map (fun x => (r_option x, r_rank x, r_closenessScore x))
      (generateRankings options closenessList W constraints)
  = map (fun x => (r_option x, r_rank x, r_closenessScore x))
        (generateRankings options closenessList W' constraints').
Proof.
  unfold generateRankings, mapi. now rewrite !map_mapi_from.
Qed.

(** C6, in exact arithmetic: multiplying every weight by the same [c > 0]
    leaves the call successful, with the same options at the same ranks and
    with the same closeness scores. *)
Theorem ranking_invariant_under_weight_scaling
    (c : R) (options : list (Option R)) (constraints : list (Constraint R))
    (r : ScoringResult R) :
  (0 < c)%R ->
  calculateScores options constraints = Success r ->
  exists r' : ScoringResult R,
    calculateScores options (scaleWeights c constraints) = Success r' /\
    rankingOutline r' = rankingOutline r.
Proof.
  intros Hc Hr.
  apply calculateScores_success_inv in Hr as [Hvalid Hr]. cbv zeta in Hr.
  unfold calculateScores. rewrite (errors_scaleWeights c), Hvalid.
  rewrite buildDecisionMatrix_scaleWeights, normalizeMatrix_scaleWeights,
    (applyWeights_scaleWeights c).
  set (W := applyWeights _ constraints) in *.
  rewrite (calculateIdealSolutions_scaled Hc).
  rewrite (calculateDistances_scaled Hc).
  rewrite (calculateClosenessScores_scaled Hc).
  eexists. split; [reflexivity|].
  subst r. unfold rankingOutline. cbn [rankings].
  apply generateRankings_outline.
Qed.

(** On the input over the reals, with every weight times 5. *)
Lemma ranking_invariant_under_weight_scaling_witness :
  exists r r' : ScoringResult R,
    calculateScores ExactScenario.alternatives ExactScenario.criteria = Success r /\
    calculateScores ExactScenario.alternatives
      (scaleWeights 5%R ExactScenario.criteria) = Success r' /\
    rankingOutline r' = rankingOutline r.
Proof.
  eexists.
  destruct (@ranking_invariant_under_weight_scaling
              5%R ExactScenario.alternatives ExactScenario.criteria _
              ltac:(lra) eq_refl) as (r' & Hr' & Hsame).
  exists r'. split; [reflexivity|]. split; [exact Hr'|exact Hsame].
Defined.

(** C6 as stated fails on binary64.  With weights 50, 10, 40 the weighted
    gap on x is 0.4 - 0.3, which rounds above the gap 0.1 on y, and b is
    ranked first; with the weights times 5 both gaps are exactly 0.5, the
    scores tie and a, first in the input, is ranked first. *)
Lemma weight_scaling_changes_order_in_binary64 :
  exists r r' : ScoringResult float,
    (5%float >? zero)%js = true /\
    calculateScores TiedScenario.alternatives TiedScenario.criteria = Success r /\
    calculateScores TiedScenario.alternatives
      (scaleWeights 5%float TiedScenario.criteria) = Success r' /\
    rankOrder r = [("b"%string, 1%Z); ("a"%string, 2%Z)] /\
    rankOrder r' = [("a"%string, 1%Z); ("b"%string, 2%Z)].
Proof.
  do 2 eexists.
  split; [vm_compute; reflexivity|].
  split; [vm_compute; reflexivity|].
  split; [vm_compute; reflexivity|].
  split; vm_compute; reflexivity.
Qed.

(* ================================================================== *)
(** ** Maps *)

Section MapFacts.
Context {V : Type}.

Lemma get_set_same (m : JSMap.t V) (k : string) (v : V) :
  JSMap.get (JSMap.set m k v) k = Some v.
Proof.
  induction m as [|[k' v'] m IH]; simpl.
  - now rewrite String.eqb_refl.
  - destruct (String.eqb k' k) eqn:E; simpl; rewrite E; [reflexivity|exact IH].
Qed.

Lemma get_set_other (m : JSMap.t V) (k k' : string) (v : V) :
  k <> k' -> JSMap.get (JSMap.set m k v) k' = JSMap.get m k'.
Proof.
  intros Hne. induction m as [|[k0 v0] m IH]; simpl.
  - destruct (String.eqb k k') eqn:E; [|reflexivity].
    apply String.eqb_eq in E. contradiction.
  - destruct (String.eqb k0 k) eqn:E; simpl.
    + apply String.eqb_eq in E. subst k0.
      destruct (String.eqb k k') eqn:E'; [|reflexivity].
      apply String.eqb_eq in E'. contradiction.
    + destruct (String.eqb k0 k'); [reflexivity|exact IH].
Qed.

Lemma keys_set (m : JSMap.t V) (k : string) (v : V) :
  JSMap.keys (JSMap.set m k v)
  = if JSMap.has m k then JSMap.keys m else JSMap.keys m ++ [k].
Proof.
  unfold JSMap.has, JSMap.keys. induction m as [|[k' v'] m IH]; simpl; [reflexivity|].
  destruct (String.eqb k' k) eqn:E; simpl; [reflexivity|].
  rewrite IH. now destruct (JSMap.get m k).
Qed.

Lemma has_keys (m : JSMap.t V) (k : string) :
  JSMap.has m k = true <-> In k (JSMap.keys m).
Proof.
  unfold JSMap.has, JSMap.keys. induction m as [|[k' v'] m IH]; simpl.
  - split; [discriminate|contradiction].
  - destruct (String.eqb k' k) eqn:E.
    + apply String.eqb_eq in E. split; [now left|reflexivity].
    + rewrite IH. apply String.eqb_neq in E. split; [now right|].
      intros [Heq|Hin]; [contradiction|exact Hin].
Qed.
End MapFacts.

Lemma NoDup_map_injective {A B : Type} (f : A -> B) (l : list A) (a b : A) :
  NoDup (map f l) -> In a l -> In b l -> f a = f b -> a = b.
Proof.
  induction l as [|x l IH]; simpl; intros Hnd Ha Hb Hf; [contradiction|].
  apply NoDup_cons_iff in Hnd as [Hx Hnd].
  destruct Ha as [->|Ha], Hb as [->|Hb]; [reflexivity| | |now apply IH].
  - exfalso. apply Hx. rewrite Hf. now apply in_map.
  - exfalso. apply Hx. rewrite <- Hf. now apply in_map.
Qed.

(* ================================================================== *)
(** ** Dominance *)

Section DominanceLoops.
Context {num : Type} `{Number num}.

Lemma get_list_push_other (m : JSMap.t (list string)) (k k' x : string) :
  k <> k' -> get_list (push_at m k x) k' = get_list m k'.
Proof.
  intros Hne. unfold get_list, push_at.
  destruct (JSMap.get m k); [|reflexivity]. now rewrite get_set_other.
Qed.

Lemma get_list_initialRelations (options : list (Option num)) (k : string) :
  get_list (initialRelations options) k = [].
Proof.
  unfold initialRelations.
  assert (Hgen : forall m : JSMap.t (list string),
             get_list m k = [] ->
             get_list (fold_left (fun m option => JSMap.set m (opt_id option) [])
                                 options m) k = []).
  { induction options as [|o os IH]; intros m Hm; simpl; [exact Hm|].
    apply IH. unfold get_list.
    destruct (string_dec (opt_id o) k) as [->|Hne].
    - now rewrite get_set_same.
    - rewrite get_set_other by exact Hne. exact Hm. }
  now apply Hgen.
Qed.

(** No array of [dominatedBy] is written unless some option dominates the
    option the array belongs to. *)
Lemma dominatedBy_untouched
    (options : list (Option num)) (constraints : list (Constraint num)) (k : string) :
  (forall a b, In a options -> In b options -> opt_id b = k ->
               dominates a b constraints = false) ->
  get_list (snd (dominanceLoops options constraints)) k = [].
Proof.
  intros Hnone. unfold dominanceLoops.
  assert (Hpairs : forall ia, In ia (mapi pair options) -> In (snd ia) options).
  { intros ia Hia. apply mapi_In in Hia as (i & o & Hio & ->).
    simpl. eapply nth_error_In; eassumption. }
  assert (Hinner : forall ia, In (snd ia) options ->
             forall js st, (forall jb, In jb js -> In (snd jb) options) ->
             get_list (snd st) k = [] ->
             get_list (snd (fold_left (dominanceStep constraints ia) js st)) k = []).
  { intros ia Hia js. induction js as [|jb js IH]; intros st Hjs Hst; simpl;
      [exact Hst|].
    apply IH; [intros x Hx; apply Hjs; now right|].
    unfold dominanceStep.
    destruct (fst ia =? fst jb)%nat; [exact Hst|].
    destruct (dominates (snd ia) (snd jb) constraints) eqn:Hdom; [|exact Hst].
    cbn [snd]. rewrite get_list_push_other; [exact Hst|].
    intros Heq. rewrite (Hnone (snd ia) (snd jb) Hia) in Hdom;
      [discriminate| |exact Heq].
    apply Hjs. now left. }
  assert (Houter : forall is_ st, (forall ia, In ia is_ -> In (snd ia) options) ->
             get_list (snd st) k = [] ->
             get_list (snd (fold_left
                              (fun st ia =>
                                 fold_left (dominanceStep constraints ia)
                                           (mapi pair options) st)
                              is_ st)) k = []).
  { intros is_. induction is_ as [|ia is_ IH]; intros st His Hst; simpl;
      [exact Hst|].
    apply IH; [intros x Hx; apply His; now right|].
    apply Hinner; [apply His; now left|exact Hpairs|exact Hst]. }
  apply Houter; [exact Hpairs|]. cbn [snd]. apply get_list_initialRelations.
Qed.

(** An option no option dominates is on the frontier. *)
Lemma undominated_on_frontier
    (options : list (Option num)) (constraints : list (Constraint num))
    (scoringResult : ScoringResult num) (m : Option num) :
  NoDup (map (@opt_id num) options) ->
  In m options ->
  (forall a, In a options -> dominates a m constraints = false) ->
  In (opt_id m)
     (paretoFrontier (findDominantOptions options constraints scoringResult)).
Proof.
  intros Hnd Hm Hmax. unfold findDominantOptions.
  pose proof (dominatedBy_untouched options constraints (k := opt_id m)) as Hk.
  destruct (dominanceLoops options constraints) as [dominanceMatrix dominatedBy].
  cbn [paretoFrontier snd] in *.
  apply in_map. apply filter_In. split; [exact Hm|].
  rewrite Hk; [reflexivity|].
  intros a b Ha Hb Hid.
  rewrite (NoDup_map_injective (@opt_id num) options b m Hnd Hb Hm Hid).
  now apply Hmax.
Qed.
End DominanceLoops.

(** In a non-empty list, a relation that is a strict partial order on the
    list leaves some element that none of the list is above. *)
Lemma exists_undominated {A : Type} (above : A -> A -> bool) (l : list A) :
  (forall a, In a l -> above a a = false) ->
  (forall a b c, In a l -> In b l -> In c l ->
     above a b = true -> above b c = true -> above a c = true) ->
  l <> [] ->
  exists m, In m l /\ forall a, In a l -> above a m = false.
Proof.
  induction l as [|x l IH]; intros Hirr Htrans Hne; [contradiction|].
  destruct l as [|y l'].
  - exists x. split; [now left|]. intros a [<-|[]]. apply Hirr. now left.
  - destruct IH as (m & Hm & Hmax).
    + intros a Ha. apply Hirr. now right.
    + intros a b c Ha Hb Hc. apply Htrans; now right.
    + discriminate.
    + destruct (above x m) eqn:Hxm.
      * exists x. split; [now left|]. intros a [<-|Ha]; [apply Hirr; now left|].
        destruct (above a x) eqn:Hax; [|reflexivity].
        rewrite <- (Hmax a Ha). symmetry.
        apply Htrans with (b := x); [now right|now left|now right|exact Hax|exact Hxm].
      * exists m. split; [now right|].
        intros a [<-|Ha]; [exact Hxm|now apply Hmax].
Qed.

Section AnalyzerValidation.
Context {num : Type} `{Number num}.

Lemma analyzeTradeOffs_success_inv
    (scoringResult : ScoringResult num) (options : list (Option num))
    (constraints : list (Constraint num)) (analysis : TradeOffAnalysis num) :
  analyzeTradeOffs scoringResult options constraints = Success analysis ->
  errors (validateInputs scoringResult options constraints) = [] /\
  analysis =
    {| optionAnalyses := generateOptionAnalyses scoringResult options constraints;
       pairwiseComparisons :=
         performPairwiseComparisons scoringResult options constraints;
       dominanceRelations := findDominantOptions options constraints scoringResult;
       recommendations :=
         generateRecommendations
           (generateOptionAnalyses scoringResult options constraints)
           (findDominantOptions options constraints scoringResult)
           scoringResult |}.
Proof.
  unfold analyzeTradeOffs.
  destruct (errors (validateInputs scoringResult options constraints));
    [|discriminate].
  unfold createSuccess. intros Heq. split; [reflexivity|]. congruence.
Qed.

Lemma analyzer_validated_sizes
    (scoringResult : ScoringResult num) (options : list (Option num))
    (constraints : list (Constraint num)) :
  errors (validateInputs scoringResult options constraints) = [] ->
  (2 <= List.length options)%nat /\ (1 <= List.length constraints)%nat.
Proof.
  unfold validateInputs. cbn [errors]. intros Herr.
  destruct (List.length options <? 2)%nat eqn:E1; [discriminate|].
  destruct (List.length constraints =? 0)%nat eqn:E2; [discriminate|].
  apply Nat.ltb_ge in E1. apply Nat.eqb_neq in E2. lia.
Qed.
End AnalyzerValidation.

(* ================================================================== *)
(** ** Exact arithmetic: dominance is a strict partial order *)

Section ExactDominance.
Local Open Scope R_scope.

Lemma dominates_loop_spec (a b : Option R) (constraints : list (Constraint R))
    (hasAdvantage : bool) :
  dominates_loop a b constraints hasAdvantage = true <->
  (forall k, In k constraints -> notWorse k a b) /\
  (hasAdvantage = true \/ exists k, In k constraints /\ strictlyBetter k a b).
Proof.
  revert hasAdvantage.
  induction constraints as [|k ks IH]; intros hasAdvantage; cbn [dominates_loop].
  - split.
    + intros ->. split; [intros k []|now left].
    + intros [_ [Hadv|(k & [] & _)]]. exact Hadv.
  - cbn [ltb Exact.number].
    set (sa := score_or_zero a (c_id k)). set (sb := score_or_zero b (c_id k)).
    assert (Hhead : forall P : Prop, notWorse k a b ->
              ((forall k', In k' (k :: ks) -> notWorse k' a b) /\ P
               <-> (forall k', In k' ks -> notWorse k' a b) /\ P)).
    { intros P Hk. split; intros [Hall HP]; split; try exact HP.
      - intros k' Hk'. apply Hall. now right.
      - intros k' [<-|Hk']; [exact Hk|now apply Hall]. }
    unfold notWorse, strictlyBetter in *. fold sa sb in Hhead |- *.
    destruct (c_direction k) eqn:Hdir.
    + destruct (Exact.Rltb sa sb) eqn:Elt.
      * apply Rltb_true in Elt. split; [discriminate|].
        intros [Hall _]. specialize (Hall k (or_introl eq_refl)).
        rewrite Hdir in Hall. fold sa sb in Hall. lra.
      * apply Rltb_false in Elt. rewrite IH.
        rewrite (Hhead _ Elt). apply and_iff_compat_l.
        destruct (Exact.Rltb sb sa) eqn:Egt.
        -- apply Rltb_true in Egt. split; [|now left].
           intros _. right. exists k. split; [now left|].
           rewrite Hdir. exact Egt.
        -- apply Rltb_false in Egt. split.
           ++ intros [Hadv|(k' & Hk' & Hb)]; [now left|].
              right. exists k'. split; [now right|exact Hb].
           ++ intros [Hadv|(k' & [<-|Hk'] & Hb)]; [now left| |].
              ** rewrite Hdir in Hb. fold sa sb in Hb. lra.
              ** right. now exists k'.
    + destruct (Exact.Rltb sb sa) eqn:Egt.
      * apply Rltb_true in Egt. split; [discriminate|].
        intros [Hall _]. specialize (Hall k (or_introl eq_refl)).
        rewrite Hdir in Hall. fold sa sb in Hall. lra.
      * apply Rltb_false in Egt. rewrite IH.
        rewrite (Hhead _ Egt). apply and_iff_compat_l.
        destruct (Exact.Rltb sa sb) eqn:Elt.
        -- apply Rltb_true in Elt. split; [|now left].
           intros _. right. exists k. split; [now left|].
           rewrite Hdir. exact Elt.
        -- apply Rltb_false in Elt. split.
           ++ intros [Hadv|(k' & Hk' & Hb)]; [now left|].
              right. exists k'. split; [now right|exact Hb].
           ++ intros [Hadv|(k' & [<-|Hk'] & Hb)]; [now left| |].
              ** rewrite Hdir in Hb. fold sa sb in Hb. lra.
              ** right. now exists k'.
Qed.

(** [dominates]: never worse, and strictly better somewhere. *)
Lemma dominates_spec (a b : Option R) (constraints : list (Constraint R)) :
  dominates a b constraints = true <->
  (forall k, In k constraints -> notWorse k a b) /\
  (exists k, In k constraints /\ strictlyBetter k a b).
Proof.
  unfold dominates. rewrite dominates_loop_spec.
  apply and_iff_compat_l. split; [intros [Habs|Hex]|intros Hex].
  - discriminate.
  - exact Hex.
  - now right.
Qed.

Lemma dominates_irreflexive (a : Option R) (constraints : list (Constraint R)) :
  dominates a a constraints = false.
Proof.
  destruct (dominates a a constraints) eqn:E; [|reflexivity].
  apply dominates_spec in E as [_ (k & _ & Hk)].
  unfold strictlyBetter in Hk. destruct (c_direction k); lra.
Qed.

Lemma dominates_transitive (a b c : Option R) (constraints : list (Constraint R)) :
  dominates a b constraints = true -> dominates b c constraints = true ->
  dominates a c constraints = true.
Proof.
  rewrite !dominates_spec. intros [Hab (k & Hk & Hbetter)] [Hbc _]. split.
  - intros k' Hk'. specialize (Hab k' Hk'). specialize (Hbc k' Hk').
    unfold notWorse in *. destruct (c_direction k'); lra.
  - exists k. split; [exact Hk|]. specialize (Hbc k Hk).
    unfold notWorse, strictlyBetter in *. destruct (c_direction k); lra.
Qed.
End ExactDominance.

(* ================================================================== *)
(** ** Dominance over scores that are ordered *)

Section DominanceSpec.
Context {num : Type} `{Number num}.
Local Open Scope js_scope.

Lemma dominates_loop_true (a b : Option num) (constraints : list (Constraint num))
    (hasAdvantage : bool) :
  dominates_loop a b constraints hasAdvantage = true <->
  (forall k, In k constraints -> behindOn k a b = false) /\
  (hasAdvantage = true \/ exists k, In k constraints /\ aheadOn k a b = true).
Proof.
  revert hasAdvantage.
  induction constraints as [|k ks IH]; intros hasAdvantage; cbn [dominates_loop].
  - split.
    + intros ->. split; [intros k []|now left].
    + intros [_ [Hadv|(k & [] & _)]]. exact Hadv.
  - assert (Hhead : forall P : Prop, behindOn k a b = false ->
              ((forall k', In k' (k :: ks) -> behindOn k' a b = false) /\ P
               <-> (forall k', In k' ks -> behindOn k' a b = false) /\ P)).
    { intros P Hk. split; intros [Hall HP]; split; try exact HP.
      - intros k' Hk'. apply Hall. now right.
      - intros k' [<-|Hk']; [exact Hk|now apply Hall]. }
    assert (Hadv : forall h : bool,
              aheadOn k a b = h ->
              ((if h then true else hasAdvantage) = true \/
               (exists k', In k' ks /\ aheadOn k' a b = true))
              <-> (hasAdvantage = true \/
                   exists k', In k' (k :: ks) /\ aheadOn k' a b = true)).
    { intros h Hh. destruct h.
      - split; [|now left]. intros _. right. exists k. split; [now left|exact Hh].
      - split.
        + intros [Hadv|(k' & Hk' & Hb)]; [now left|].
          right. exists k'. split; [now right|exact Hb].
        + intros [Hadv|(k' & [<-|Hk'] & Hb)]; [now left|congruence|].
          right. now exists k'. }
    unfold behindOn, aheadOn in Hhead, Hadv.
    destruct (c_direction k) eqn:Hdir.
    + destruct (score_or_zero a (c_id k) <? score_or_zero b (c_id k)) eqn:Elt.
      * split; [discriminate|]. intros [Hall _].
        specialize (Hall k (or_introl eq_refl)). unfold behindOn in Hall.
        rewrite Hdir in Hall. congruence.
      * rewrite IH, (Hhead _ eq_refl). apply and_iff_compat_l.
        now apply Hadv.
    + destruct (score_or_zero a (c_id k) >? score_or_zero b (c_id k)) eqn:Egt.
      * split; [discriminate|]. intros [Hall _].
        specialize (Hall k (or_introl eq_refl)). unfold behindOn in Hall.
        rewrite Hdir in Hall. congruence.
      * rewrite IH, (Hhead _ eq_refl). apply and_iff_compat_l.
        now apply Hadv.
Qed.

(** [dominates]: behind on no criterion, and ahead on some. *)
Lemma dominates_true (a b : Option num) (constraints : list (Constraint num)) :
  dominates a b constraints = true <->
  (forall k, In k constraints -> behindOn k a b = false) /\
  (exists k, In k constraints /\ aheadOn k a b = true).
Proof.
  unfold dominates. rewrite dominates_loop_true.
  apply and_iff_compat_l. split; [intros [Habs|Hex]|intros Hex].
  - discriminate.
  - exact Hex.
  - now right.
Qed.
End DominanceSpec.

(** Where [<] is irreflexive and settles every third score against two
    scores it separates, [dominates] is a strict partial order of the
    options, and some option is dominated by none. *)
Section OrderedDominance.
Context {num : Type} `{Number num}.
Local Open Scope js_scope.
Variable comparable : num -> Prop.
Hypothesis lt_irreflexive : forall x, comparable x -> (x <? x) = false.
Hypothesis lt_cotransitive :
  forall x y z, comparable x -> comparable y -> comparable z ->
    (x <? y) = true -> (x <? z) = true \/ (z <? y) = true.
Variable options : list (Option num).
Variable constraints : list (Constraint num).
Hypothesis scores_comparable :
  forall o k, In o options -> In k constraints -> comparable (score_or_zero o (c_id k)).

Lemma ordered_dominates_irreflexive (a : Option num) :
  In a options -> dominates a a constraints = false.
Proof.
  intros Ha. destruct (dominates a a constraints) eqn:E; [|reflexivity].
  apply dominates_true in E as [_ (k & Hk & Hahead)].
  unfold aheadOn in Hahead.
  rewrite (@lt_irreflexive _ (scores_comparable a k Ha Hk)) in Hahead.
  now destruct (c_direction k).
Qed.

Lemma ordered_dominates_transitive (a b c : Option num) :
  In a options -> In b options -> In c options ->
  dominates a b constraints = true -> dominates b c constraints = true ->
  dominates a c constraints = true.
Proof.
  intros Ha Hb Hc. rewrite !dominates_true.
  intros [Hab (k & Hk & Hahead)] [Hbc _]. split.
  - intros k' Hk'. specialize (Hab k' Hk'). specialize (Hbc k' Hk').
    pose proof (scores_comparable a k' Ha Hk') as Ca.
    pose proof (scores_comparable b k' Hb Hk') as Cb.
    pose proof (scores_comparable c k' Hc Hk') as Cc.
    unfold behindOn in *. destruct (c_direction k').
    + destruct (score_or_zero a (c_id k') <? score_or_zero c (c_id k')) eqn:E;
        [|reflexivity].
      destruct (@lt_cotransitive _ _ _ Ca Cc Cb E); congruence.
    + destruct (score_or_zero a (c_id k') >? score_or_zero c (c_id k')) eqn:E;
        [|reflexivity].
      destruct (@lt_cotransitive _ _ _ Cc Ca Cb E); congruence.
  - exists k. split; [exact Hk|]. specialize (Hbc k Hk).
    pose proof (scores_comparable a k Ha Hk) as Ca.
    pose proof (scores_comparable b k Hb Hk) as Cb.
    pose proof (scores_comparable c k Hc Hk) as Cc.
    unfold behindOn, aheadOn in *. destruct (c_direction k).
    + destruct (@lt_cotransitive _ _ _ Cb Ca Cc Hahead); [congruence|assumption].
    + destruct (@lt_cotransitive _ _ _ Ca Cb Cc Hahead); [assumption|congruence].
Qed.

Lemma ordered_undominated_exists :
  options <> [] ->
  exists m, In m options /\ forall a, In a options -> dominates a m constraints = false.
Proof.
  intros Hne.
  apply (@exists_undominated _ (fun a b => dominates a b constraints) options);
    [|intros a b c; apply ordered_dominates_transitive|exact Hne].
  intros a. apply ordered_dominates_irreflexive.
Qed.
End OrderedDominance.

(* ================================================================== *)
(** ** binary64: the order of the numbers that are not NaN *)

Section Binary64Order.

Lemma SFltb_orderKey (x y : spec_float) :
  x <> S754_nan -> y <> S754_nan ->
  (SFltb x y = true <-> keyBelow (orderKey x) (orderKey y)).
Proof.
  intros Hx Hy. unfold SFltb, keyBelow.
  destruct x as [sx|sx| |sx mx ex], y as [sy|sy| |sy my ey];
    try congruence; try destruct sx; try destruct sy; cbn;
    try (split; [discriminate|lia]); try (split; [lia|reflexivity]).
  all: change (Pos.compare_cont Eq mx my) with (Pos.compare mx my).
  all: destruct (Z.compare_spec ex ey); try destruct (Pos.compare_spec mx my); cbn;
    split; try discriminate; try reflexivity; try lia.
Qed.

Lemma is_nan_false (x : float) : PrimFloat.is_nan x = false -> Prim2SF x <> S754_nan.
Proof.
  unfold PrimFloat.is_nan. rewrite eqb_spec. intros Hx Hnan. rewrite Hnan in Hx.
  discriminate.
Qed.

Lemma binary64_lt_irreflexive (x : float) : PrimFloat.ltb x x = false.
Proof.
  rewrite ltb_spec. unfold SFltb.
  destruct (Prim2SF x) as [s|s| |s m e]; try destruct s; cbn; try reflexivity;
    rewrite Z.compare_refl;
    change (Pos.compare_cont Eq m m) with (Pos.compare m m);
    now rewrite Pos.compare_refl.
Qed.

Lemma binary64_lt_cotransitive (x y z : float) :
  PrimFloat.is_nan x = false -> PrimFloat.is_nan y = false ->
  PrimFloat.is_nan z = false ->
  PrimFloat.ltb x y = true -> PrimFloat.ltb x z = true \/ PrimFloat.ltb z y = true.
Proof.
  intros Hx Hy Hz. apply is_nan_false in Hx, Hy, Hz.
  rewrite !ltb_spec, !SFltb_orderKey by assumption.
  unfold keyBelow. lia.
Qed.
End Binary64Order.

(** C3, as the code has it: for alternatives with distinct identifiers and
    no score that is NaN that [analyzeTradeOffs] accepts, the Pareto frontier
    of the returned dominance analysis holds at least one alternative; one
    that no alternative dominates is on it. *)
Theorem pareto_frontier_nonempty
    (scoringResult : ScoringResult float) (options : list (Option float))
    (constraints : list (Constraint float)) (analysis : TradeOffAnalysis float) :
  NoDup (map (@opt_id float) options) ->
  (forall o k, In o options -> In k constraints ->
     isNaN (score_or_zero o (c_id k)) = false) ->
  analyzeTradeOffs scoringResult options constraints = Success analysis ->
  (1 <= List.length (paretoFrontier (dominanceRelations analysis)))%nat /\
  exists m, In m options /\
            (forall a, In a options -> dominates a m constraints = false) /\
            In (opt_id m) (paretoFrontier (dominanceRelations analysis)).
Proof.
  intros Hnd Hscores Hok. apply analyzeTradeOffs_success_inv in Hok as [Hvalid ->].
  cbn [dominanceRelations].
  apply analyzer_validated_sizes in Hvalid as [Hlen _].
  destruct (@ordered_undominated_exists float Float64.number
              (fun x => PrimFloat.is_nan x = false)
              (fun x _ => binary64_lt_irreflexive x)
              binary64_lt_cotransitive options constraints Hscores)
    as (m & Hm & Hmax).
  - destruct options; [simpl in Hlen; lia|discriminate].
  - pose proof (@undominated_on_frontier float _ options constraints scoringResult m
                  Hnd Hm Hmax) as Hin.
    split.
    + destruct (paretoFrontier _); [contradiction|simpl; lia].
    + now exists m.
Qed.

(** On the supplier selection example: identifiers that differ and scores
    that are numbers. *)
Lemma pareto_frontier_nonempty_witness :
  exists (r : ScoringResult float) (analysis : TradeOffAnalysis float),
    calculateScores Scenario.suppliers Scenario.supplierCriteria = Success r /\
    analyzeTradeOffs r Scenario.suppliers Scenario.supplierCriteria = Success analysis /\
    (1 <= List.length (paretoFrontier (dominanceRelations analysis)))%nat.
Proof.
  eexists. eexists. split; [vm_compute; reflexivity|].
  match goal with
  | |- analyzeTradeOffs ?r _ _ = _ /\ _ => set (scoringResult := r)
  end.
  split; [vm_compute; reflexivity|].
  match goal with
  | |- (1 <= List.length (paretoFrontier (dominanceRelations ?a)))%nat =>
      assert (Ha : analyzeTradeOffs scoringResult Scenario.suppliers
                     Scenario.supplierCriteria = Success a)
        by (vm_compute; reflexivity);
      apply (@pareto_frontier_nonempty scoringResult Scenario.suppliers
               Scenario.supplierCriteria a)
  end.
  - repeat constructor; cbn; intuition discriminate.
  - intros o k Ho Hk.
    repeat (destruct Ho as [<-|Ho];
            [repeat (destruct Hk as [<-|Hk]; [vm_compute; reflexivity|]);
             contradiction|]).
    contradiction.
  - exact Ha.
Defined.

(** C3 as stated fails for two kinds of input that [analyzeTradeOffs]
    accepts.  Two options under one identifier: the second dominates the
    first, the entry of their identifier in the dominated-by table is then
    not empty, and the filter that builds the frontier drops both.  Three
    options, each with one NaN score: every comparison with NaN is false, so
    each option dominates the next around the cycle and none is left. *)
Lemma pareto_frontier_empty :
  (exists (r : ScoringResult float) (analysis : TradeOffAnalysis float),
     calculateScores DuplicateScenario.alternatives DuplicateScenario.criteria
     = Success r /\
     analyzeTradeOffs r DuplicateScenario.alternatives DuplicateScenario.criteria
     = Success analysis /\
     List.length DuplicateScenario.alternatives = 2%nat /\
     paretoFrontier (dominanceRelations analysis) = []) /\
  (exists (r : ScoringResult float) (analysis : TradeOffAnalysis float),
     calculateScores CycleScenario.measured CycleScenario.criteria = Success r /\
     analyzeTradeOffs r CycleScenario.alternatives CycleScenario.criteria
     = Success analysis /\
     map (@opt_id float) CycleScenario.alternatives
     = ["a"; "b"; "c"]%string /\
     paretoFrontier (dominanceRelations analysis) = []).
Proof.
  split; do 2 eexists.
  - split; [vm_compute; reflexivity|].
    split; [vm_compute; reflexivity|]. split; reflexivity.
  - split; [vm_compute; reflexivity|].
    split; [vm_compute; reflexivity|]. split; reflexivity.
Qed.

(* ================================================================== *)
(** ** The option analyses and the recommendations *)

Section MapInvariants.
Context {V : Type}.

Lemma get_In (m : JSMap.t V) (k : string) (v : V) :
  JSMap.get m k = Some v -> In (k, v) m.
Proof.
  induction m as [|[k' v'] m IH]; simpl; [discriminate|].
  destruct (String.eqb k' k) eqn:E.
  - apply String.eqb_eq in E. intros [= ->]. left. now subst.
  - intros Hget. right. now apply IH.
Qed.

Lemma In_get (m : JSMap.t V) (k : string) (v : V) :
  NoDup (JSMap.keys m) -> In (k, v) m -> JSMap.get m k = Some v.
Proof.
  unfold JSMap.keys. induction m as [|[k' v'] m IH]; simpl; [contradiction|].
  intros Hnd Hin. apply NoDup_cons_iff in Hnd as [Hk' Hnd].
  destruct Hin as [[= -> ->]|Hin].
  - now rewrite String.eqb_refl.
  - destruct (String.eqb k' k) eqn:E; [|now apply IH].
    apply String.eqb_eq in E. subst k'. exfalso. apply Hk'.
    apply in_map_iff. now exists (k, v).
Qed.

Lemma In_set (m : JSMap.t V) (k k' : string) (v v' : V) :
  In (k', v') (JSMap.set m k v) -> (k', v') = (k, v) \/ In (k', v') m.
Proof.
  induction m as [|[k0 v0] m IH]; simpl.
  - intros [Heq|[]]. now left.
  - destruct (String.eqb k0 k) eqn:E; simpl.
    + apply String.eqb_eq in E. subst k0.
      intros [Heq|Hin]; [now left|right; now right].
    + intros [Heq|Hin]; [right; now left|].
      destruct (IH Hin) as [Heq|Hin']; [now left|right; now right].
Qed.

Lemma NoDup_keys_set (m : JSMap.t V) (k : string) (v : V) :
  NoDup (JSMap.keys m) -> NoDup (JSMap.keys (JSMap.set m k v)).
Proof.
  intros Hnd. rewrite keys_set. destruct (JSMap.has m k) eqn:E; [exact Hnd|].
  apply NoDup_app; [exact Hnd|repeat constructor; intros []|].
  intros x Hx [<-|[]]. apply has_keys in Hx. congruence.
Qed.
End MapInvariants.

Lemma In_set_of (l : list string) (x : string) : In x (set_of l) <-> In x l.
Proof.
  induction l as [|y l IH]; simpl; [reflexivity|].
  rewrite filter_In, IH. split.
  - intros [Heq|[Hin _]]; [now left|now right].
  - intros [Heq|Hin]; [now left|].
    destruct (String.eqb y x) eqn:E.
    + apply String.eqb_eq in E. now left.
    + right. split; [exact Hin|reflexivity].
Qed.

Lemma set_has_In (s : list string) (k : string) : set_has s k = true <-> In k s.
Proof.
  unfold set_has. rewrite existsb_exists. split.
  - intros (x & Hx & E). apply String.eqb_eq in E. now subst.
  - intros Hk. exists k. split; [exact Hk|apply String.eqb_refl].
Qed.

Section OptionAnalyses.
Context {num : Type} `{Number num}.

(** Validation has found every option of the input in the rankings. *)
Lemma validated_options_ranked
    (scoringResult : ScoringResult num) (options : list (Option num))
    (constraints : list (Constraint num)) (o : Option num) :
  errors (validateInputs scoringResult options constraints) = [] ->
  In o options ->
  exists ranking,
    find (fun r => String.eqb (opt_id (r_option r)) (opt_id o))
         (rankings scoringResult) = Some ranking.
Proof.
  unfold validateInputs. cbn [errors]. intros Herr Ho.
  apply app_eq_nil in Herr as [_ Herr]. apply app_eq_nil in Herr as [_ Herr].
  destruct (0 <? List.length options)%nat eqn:E.
  2:{ apply Nat.ltb_ge in E. destruct options; [contradiction|simpl in E; lia]. }
  cbv zeta in Herr.
  assert (Hin : In (opt_id o)
                   (set_of (map (fun r => opt_id (r_option r)) (rankings scoringResult)))).
  { apply set_has_In.
    destruct (set_has _ (opt_id o)) eqn:Ehas; [reflexivity|exfalso].
    assert (Hid : In (opt_id o) (set_of (map (@opt_id num) options)))
      by (apply In_set_of; now apply in_map).
    apply in_split in Hid as (l1 & l2 & Hsplit). rewrite Hsplit in Herr.
    rewrite flat_map_app in Herr. apply app_eq_nil in Herr as [_ Herr].
    simpl in Herr. rewrite Ehas in Herr. discriminate. }
  apply (proj1 (In_set_of _ _)) in Hin.
  apply in_map_iff in Hin as (ranking & Hid & Hr).
  destruct (find _ (rankings scoringResult)) as [found|] eqn:Efind; [now exists found|].
  exfalso. apply (find_none _ _ Efind) in Hr. rewrite Hid, String.eqb_refl in Hr.
  discriminate.
Qed.

Lemma generateOptionAnalyses_fold
    (scoringResult : ScoringResult num) (options : list (Option num))
    (constraints : list (Constraint num)) :
  generateOptionAnalyses scoringResult options constraints
  = fold_left (analysisStep scoringResult constraints) options [].
Proof. reflexivity. Qed.

Lemma wellKeyed_step
    (scoringResult : ScoringResult num) (constraints : list (Constraint num))
    (m : JSMap.t (OptionAnalysis num)) (o : Option num) :
  wellKeyed m -> wellKeyed (analysisStep scoringResult constraints m o).
Proof.
  intros [Hnd Hkeys]. unfold analysisStep.
  destruct (find _ (rankings scoringResult)); [|now split].
  split; [now apply NoDup_keys_set|].
  intros k a Hin. apply In_set in Hin as [[= -> ->]|Hin]; [reflexivity|].
  now apply Hkeys.
Qed.

Lemma wellKeyed_generateOptionAnalyses
    (scoringResult : ScoringResult num) (options : list (Option num))
    (constraints : list (Constraint num)) :
  wellKeyed (generateOptionAnalyses scoringResult options constraints).
Proof.
  rewrite generateOptionAnalyses_fold.
  assert (Hgen : forall m, wellKeyed m ->
             wellKeyed (fold_left (analysisStep scoringResult constraints) options m)).
  { induction options as [|o os IH]; intros m Hm; simpl; [exact Hm|].
    apply IH. now apply wellKeyed_step. }
  apply Hgen. split; [constructor|intros k a []].
Qed.

Lemma wellKeyed_get (m : JSMap.t (OptionAnalysis num)) (a : OptionAnalysis num) :
  wellKeyed m -> In a (JSMap.values m) -> JSMap.get m (oa_optionId a) = Some a.
Proof.
  intros [Hnd Hkeys] Ha. unfold JSMap.values in Ha.
  apply in_map_iff in Ha as ([k v] & Hv & Hin). simpl in Hv. subst v.
  rewrite (Hkeys k a Hin). now apply In_get.
Qed.

Lemma wellKeyed_get_id (m : JSMap.t (OptionAnalysis num)) (k : string)
    (a : OptionAnalysis num) :
  wellKeyed m -> JSMap.get m k = Some a -> JSMap.get m (oa_optionId a) = Some a.
Proof.
  intros [Hnd Hkeys] Hget. now rewrite (Hkeys k a (get_In _ _ Hget)).
Qed.

(** With distinct identifiers, all of them ranked, there is one analysis per
    option. *)
Lemma size_generateOptionAnalyses
    (scoringResult : ScoringResult num) (options : list (Option num))
    (constraints : list (Constraint num)) :
  NoDup (map (@opt_id num) options) ->
  errors (validateInputs scoringResult options constraints) = [] ->
  JSMap.size (generateOptionAnalyses scoringResult options constraints)
  = List.length options.
Proof.
  intros Hnd Hvalid. rewrite generateOptionAnalyses_fold.
  assert (Hgen : forall os m,
             (forall o, In o os -> In o options) ->
             NoDup (JSMap.keys m ++ map (@opt_id num) os) ->
             JSMap.keys (fold_left (analysisStep scoringResult constraints) os m)
             = JSMap.keys m ++ map (@opt_id num) os).
  { induction os as [|o os IH]; intros m Hsub Hdistinct; simpl.
    - now rewrite app_nil_r.
    - destruct (@validated_options_ranked scoringResult options constraints o
                  Hvalid (Hsub o (or_introl eq_refl)))
        as [ranking Hfind].
      assert (Hstep : JSMap.keys (analysisStep scoringResult constraints m o)
                      = JSMap.keys m ++ [opt_id o]).
      { unfold analysisStep. rewrite Hfind, keys_set.
        destruct (JSMap.has m (opt_id o)) eqn:Ehas; [|reflexivity].
        exfalso. apply has_keys in Ehas.
        apply NoDup_remove_2 in Hdistinct. apply Hdistinct.
        apply in_or_app. now left. }
      rewrite IH.
      + rewrite Hstep, <- app_assoc. reflexivity.
      + intros x Hx. apply Hsub. now right.
      + rewrite Hstep, <- app_assoc. exact Hdistinct. }
  unfold JSMap.size. rewrite <- (length_map fst). fold (JSMap.keys
    (fold_left (analysisStep scoringResult constraints) options [])).
  rewrite Hgen; [simpl; apply length_map|auto|exact Hnd].
Qed.
End OptionAnalyses.

Section Recommendations.
Context {num : Type} `{Number num}.

Lemma best_of_fold (l : list (OptionAnalysis num)) (init : option (OptionAnalysis num))
    (b : OptionAnalysis num) :
  fold_left (fun best analysis =>
               match best with
               | None => Some analysis
               | Some b => if (oa_rank analysis <? oa_rank b)%Z
                           then Some analysis else best
               end) l init = Some b ->
  init = Some b \/ In b l.
Proof.
  revert init. induction l as [|x l IH]; intros init; simpl; [now left|].
  intros Hfold. apply IH in Hfold as [Hinit|Hin]; [|right; now right].
  destruct init as [b0|].
  - destruct (oa_rank x <? oa_rank b0)%Z; [|now left].
    injection Hinit as ->. right. now left.
  - injection Hinit as ->. right. now left.
Qed.

Lemma findBestOverallOption_drawn
    (m : JSMap.t (OptionAnalysis num)) (rec : Recommendation num) :
  wellKeyed m -> findBestOverallOption m = Some rec ->
  exists a, drawnFrom m rec a.
Proof.
  intros Hm. unfold findBestOverallOption.
  destruct (fold_left _ (JSMap.values m) None) as [b|] eqn:Efold; [|discriminate].
  intros [= <-]. exists b.
  apply best_of_fold in Efold as [Habs|Hin]; [discriminate|].
  split; [now apply wellKeyed_get|]. now split.
Qed.

Lemma analysesOf_In
    (m : JSMap.t (OptionAnalysis num)) (keep : OptionAnalysis num -> bool)
    (ids : list string) (a : OptionAnalysis num) :
  In a (analysesOf m keep ids) -> exists id, JSMap.get m id = Some a.
Proof.
  unfold analysesOf. intros Ha. apply in_flat_map in Ha as (id & _ & Ha).
  exists id. destruct (JSMap.get m id) as [a'|]; [|contradiction].
  destruct (keep a'); [|contradiction]. destruct Ha as [->|[]]. reflexivity.
Qed.

Lemma findCompromiseOption_drawn
    (m : JSMap.t (OptionAnalysis num)) (dominanceRelations : DominanceAnalysis)
    (rec : Recommendation num) :
  wellKeyed m -> findCompromiseOption m dominanceRelations = Some rec ->
  exists a, drawnFrom m rec a.
Proof.
  intros Hm. unfold findCompromiseOption.
  destruct (sort _ _) as [|a rest] eqn:Esort; [discriminate|].
  intros [= <-]. exists a.
  assert (Hin : In a (a :: rest)) by now left.
  rewrite <- Esort in Hin. apply sort_In in Hin.
  apply analysesOf_In in Hin as [id Hid].
  split; [now apply wellKeyed_get_id with (k := id)|]. now split.
Qed.

Lemma findOptionToAvoid_drawn
    (m : JSMap.t (OptionAnalysis num)) (dominanceRelations : DominanceAnalysis)
    (rec : Recommendation num) :
  wellKeyed m -> findOptionToAvoid m dominanceRelations = Some rec ->
  exists a, drawnFrom m rec a.
Proof.
  intros Hm. unfold findOptionToAvoid.
  destruct (sort _ _) as [|a rest] eqn:Esort; [discriminate|].
  intros [= <-]. exists a.
  assert (Hin : In a (a :: rest)) by now left.
  rewrite <- Esort in Hin. apply sort_In in Hin.
  apply analysesOf_In in Hin as [id Hid].
  split; [now apply wellKeyed_get_id with (k := id)|]. now split.
Qed.

Lemma generateRecommendations_drawn
    (m : JSMap.t (OptionAnalysis num)) (dominanceRelations : DominanceAnalysis)
    (scoringResult : ScoringResult num) (rec : Recommendation num) :
  wellKeyed m ->
  In rec (generateRecommendations m dominanceRelations scoringResult) ->
  exists a, drawnFrom m rec a.
Proof.
  intros Hm Hrec. unfold generateRecommendations in Hrec.
  apply in_app_or in Hrec as [Hrec|Hrec]; [|apply in_app_or in Hrec as [Hrec|Hrec]].
  - destruct (findBestOverallOption m) as [x|] eqn:E; [|contradiction].
    destruct Hrec as [->|[]]. now apply findBestOverallOption_drawn.
  - destruct (findCompromiseOption m dominanceRelations) as [x|] eqn:E;
      [|contradiction].
    destruct Hrec as [->|[]]. now apply findCompromiseOption_drawn in E.
  - destruct (findOptionToAvoid m dominanceRelations) as [x|] eqn:E;
      [|contradiction].
    destruct Hrec as [->|[]]. now apply findOptionToAvoid_drawn in E.
Qed.
End Recommendations.

(* ================================================================== *)
(** ** Exact arithmetic: the confidence of a recommendation *)

Section ExactConfidence.
Local Open Scope R_scope.

Lemma calculateConfidence_spec (a : OptionAnalysis R) (m : JSMap.t (OptionAnalysis R)) :
  calculateConfidence a m
  = specConfidence (JSMap.size m) (oa_rank a)
      (List.length (oa_strengths a)) (List.length (oa_weaknesses a)).
Proof.
  unfold calculateConfidence, specConfidence, lit, zero.
  cbn [of_Z add sub mul div min2 max2 Exact.number].
  rewrite plus_IZR, minus_IZR, <- !INR_IZR_INZ.
  f_equal. ring.
Qed.

Lemma specConfidence_capped (N : nat) (rank : Z) (s w : nat) :
  specConfidence N rank s w <= 95 / 100.
Proof. unfold specConfidence. apply Rmin_l. Qed.
End ExactConfidence.

(* ================================================================== *)
(** ** The confidence of a recommendation on binary64 *)



Section AnalysisKeys.
Context {num : Type} `{Number num}.


End AnalysisKeys.

Section Binary64Confidence.


End Binary64Confidence.




(* ================================================================== *)
(** ** Missing scores in the analyzer *)

Lemma fold_left_map {A B C : Type} (f : A -> B -> A) (g : C -> B) (l : list C) (a : A) :
  fold_left f (map g l) a = fold_left (fun a x => f a (g x)) l a.
Proof. revert a. induction l as [|x l IH]; intros a; simpl; [reflexivity|apply IH]. Qed.

Lemma fold_left_ext_in {A B : Type} (f g : A -> B -> A) (l : list B) (a : A) :
  (forall a x, In x l -> f a x = g a x) -> fold_left f l a = fold_left g l a.
Proof.
  revert a. induction l as [|x l IH]; intros a Hfg; simpl; [reflexivity|].
  rewrite Hfg by now left. apply IH. intros a' y Hy. apply Hfg. now right.
Qed.

Lemma filter_map_commute {A B : Type} (p : B -> bool) (g : A -> B) (l : list A) :
  filter p (map g l) = map g (filter (fun x => p (g x)) l).
Proof.
  induction l as [|x l IH]; simpl; [reflexivity|].
  destruct (p (g x)); simpl; now rewrite IH.
Qed.

Section MissingScores.
Context {num : Type} `{Number num}.

Lemma score_or_zero_fillMissing
    (constraints : list (Constraint num)) (o : Option num) (cid : string) :
  score_or_zero (fillMissing constraints o) cid = score_or_zero o cid.
Proof.
  unfold score_or_zero, fillMissing. cbn [opt_scores].
  generalize (opt_scores o) as m.
  induction constraints as [|k ks IH]; intros m; simpl; [reflexivity|].
  rewrite IH. unfold JSMap.has.
  destruct (JSMap.get m (c_id k)) eqn:Ek; [reflexivity|].
  destruct (string_dec (c_id k) cid) as [<-|Hne].
  - now rewrite get_set_same, Ek.
  - now rewrite get_set_other.
Qed.

(** The analyzer reads an option through its identifier and through
    [score_or_zero] only. *)
Section ReadThroughScores.
Variable g : Option num -> Option num.
Hypothesis g_id : forall o, opt_id (g o) = opt_id o.
Hypothesis g_score : forall o cid, score_or_zero (g o) cid = score_or_zero o cid.

Lemma ids_through : forall options, map (@opt_id num) (map g options) = map (@opt_id num) options.
Proof. intros options. rewrite map_map. apply map_ext. exact g_id. Qed.

Lemma validateInputs_through
    (scoringResult : ScoringResult num) (options : list (Option num))
    (constraints : list (Constraint num)) :
  validateInputs scoringResult (map g options) constraints
  = validateInputs scoringResult options constraints.
Proof. unfold validateInputs. now rewrite length_map, ids_through. Qed.

Lemma performanceOf_through
    (o : Option num) (normalized : JSMap.t num) (scoringResult : ScoringResult num)
    (k : Constraint num) :
  performanceOf (g o) normalized scoringResult k
  = performanceOf o normalized scoringResult k.
Proof. unfold performanceOf. now rewrite g_score. Qed.

Lemma identifyStrengths_through
    (o : Option num) (constraints : list (Constraint num))
    (scoringResult : ScoringResult num) :
  identifyStrengths (g o) constraints scoringResult
  = identifyStrengths o constraints scoringResult.
Proof.
  unfold identifyStrengths. rewrite g_id.
  destruct (JSMap.get _ (opt_id o)); [|reflexivity].
  do 2 f_equal. apply map_ext. intros k. apply performanceOf_through.
Qed.

Lemma identifyWeaknesses_through
    (o : Option num) (constraints : list (Constraint num))
    (scoringResult : ScoringResult num) :
  identifyWeaknesses (g o) constraints scoringResult
  = identifyWeaknesses o constraints scoringResult.
Proof.
  unfold identifyWeaknesses. rewrite g_id.
  destruct (JSMap.get _ (opt_id o)); [|reflexivity].
  do 2 f_equal. apply map_ext. intros k. apply performanceOf_through.
Qed.

Lemma generateOptionAnalyses_through
    (scoringResult : ScoringResult num) (options : list (Option num))
    (constraints : list (Constraint num)) :
  generateOptionAnalyses scoringResult (map g options) constraints
  = generateOptionAnalyses scoringResult options constraints.
Proof.
  rewrite !generateOptionAnalyses_fold, fold_left_map.
  apply fold_left_ext_in. intros m o _. unfold analysisStep.
  now rewrite g_id, identifyStrengths_through, identifyWeaknesses_through.
Qed.

Lemma compareOptions_through
    (a b : Option num) (constraints : list (Constraint num))
    (scoringResult : ScoringResult num) :
  compareOptions (g a) (g b) constraints scoringResult
  = compareOptions a b constraints scoringResult.
Proof.
  unfold compareOptions. rewrite !g_id. f_equal. f_equal.
  apply map_ext. intros k. unfold constraintDifference. now rewrite !g_score.
Qed.

Lemma performPairwiseComparisons_through
    (scoringResult : ScoringResult num) (options : list (Option num))
    (constraints : list (Constraint num)) :
  performPairwiseComparisons scoringResult (map g options) constraints
  = performPairwiseComparisons scoringResult options constraints.
Proof.
  unfold performPairwiseComparisons.
  induction options as [|a os IH]; simpl; [reflexivity|].
  rewrite IH, map_map. f_equal. apply map_ext. intros b.
  apply compareOptions_through.
Qed.

Lemma dominates_through (a b : Option num) (constraints : list (Constraint num)) :
  dominates (g a) (g b) constraints = dominates a b constraints.
Proof.
  unfold dominates. generalize false as hasAdvantage.
  induction constraints as [|k ks IH]; intros hasAdvantage; simpl; [reflexivity|].
  rewrite !g_score, !IH. reflexivity.
Qed.

Lemma initialRelations_through (options : list (Option num)) :
  initialRelations (map g options) = initialRelations options.
Proof.
  unfold initialRelations. rewrite fold_left_map.
  apply fold_left_ext_in. intros m o _. now rewrite g_id.
Qed.

Lemma indexed_through (options : list (Option num)) :
  mapi pair (map g options) = map (fun ia => (fst ia, g (snd ia))) (mapi pair options).
Proof. unfold mapi. now rewrite mapi_from_map, map_mapi_from. Qed.

Lemma dominanceLoops_through
    (options : list (Option num)) (constraints : list (Constraint num)) :
  dominanceLoops (map g options) constraints = dominanceLoops options constraints.
Proof.
  unfold dominanceLoops. rewrite initialRelations_through, indexed_through.
  rewrite fold_left_map. apply fold_left_ext_in. intros st ia _.
  rewrite fold_left_map. apply fold_left_ext_in. intros st' jb _.
  unfold dominanceStep. cbn [fst snd]. now rewrite dominates_through, !g_id.
Qed.

Lemma findDominantOptions_through
    (options : list (Option num)) (constraints : list (Constraint num))
    (scoringResult : ScoringResult num) :
  findDominantOptions (map g options) constraints scoringResult
  = findDominantOptions options constraints scoringResult.
Proof.
  unfold findDominantOptions. rewrite dominanceLoops_through.
  destruct (dominanceLoops options constraints) as [dominanceMatrix dominatedBy].
  rewrite !filter_map_commute, !ids_through.
  f_equal; f_equal; apply filter_ext; intros o; now rewrite g_id.
Qed.

Lemma analyzeTradeOffs_through
    (scoringResult : ScoringResult num) (options : list (Option num))
    (constraints : list (Constraint num)) :
  analyzeTradeOffs scoringResult (map g options) constraints
  = analyzeTradeOffs scoringResult options constraints.
Proof.
  unfold analyzeTradeOffs.
  now rewrite validateInputs_through, generateOptionAnalyses_through,
    performPairwiseComparisons_through, findDominantOptions_through.
Qed.
End ReadThroughScores.
End MissingScores.

(** C2, as the code has it.  [score] returns an error whenever some
    alternative has no score for some criterion.  [analyzeTradeOffs] has no
    such check: it reads a missing raw score as 0, so that it returns what it
    returns on the alternatives with 0 entered for every missing score. *)
Theorem missing_score_error_in_score_only
    {num : Type} `{Number num}
    (options : list (Option num)) (constraints : list (Constraint num)) :
  ((exists o c, In o options /\ In c constraints /\
                JSMap.has (opt_scores o) (c_id c) = false) ->
   exists e, calculateScores options constraints = Failure e) /\
  (forall scoringResult : ScoringResult num,
     analyzeTradeOffs scoringResult options constraints
     = analyzeTradeOffs scoringResult (map (fillMissing constraints) options)
                        constraints).
Proof.
  split.
  - intros (o & c & Ho & Hc & Hmiss).
    destruct (missing_score_reported options constraints o c Ho Hc Hmiss)
      as (e & He & _).
    destruct (calculateScores_fails_on_errors options constraints) as (e' & He' & _).
    + intros Hnil. rewrite Hnil in He. contradiction.
    + now exists e'.
  - intros scoringResult. symmetry. apply analyzeTradeOffs_through.
    + reflexivity.
    + intros o cid. apply score_or_zero_fillMissing.
Qed.

(** On the two options of which the second has no performance score. *)
Lemma missing_score_error_in_score_only_witness :
  exists e : ValidationError float,
    calculateScores MissingScenario.incomplete MissingScenario.criteria = Failure e.
Proof.
  apply (proj1 (@missing_score_error_in_score_only float Float64.number
                  MissingScenario.incomplete MissingScenario.criteria)).
  exists (nth 1 MissingScenario.incomplete (Scenario.alternative "" "" [])).
  exists (nth 1 MissingScenario.criteria
              (Scenario.criterion "" "" 0 cost minimize 0)).
  split; [vm_compute; tauto|]. split; [vm_compute; tauto|].
  vm_compute; reflexivity.
Defined.

(** C2 as stated fails for [analyzeTradeOffs]: the second option has no
    performance score, the analysis succeeds all the same, and it compares
    performance 80 against 0.  With its score of 90 in place the second option
    dominates the first; with the score missing it does not. *)
Lemma analyzer_defaults_missing_score_to_zero :
  exists (scoringResult : ScoringResult float)
         (analysis complete : TradeOffAnalysis float)
         (o : Option float) (k : Constraint float),
    In o MissingScenario.incomplete /\ In k MissingScenario.criteria /\
    JSMap.has (opt_scores o) (c_id k) = false /\
    calculateScores Scenario.twoOptions MissingScenario.criteria
    = Success scoringResult /\
    analyzeTradeOffs scoringResult MissingScenario.incomplete MissingScenario.criteria
    = Success analysis /\
    map (fun d => (cd_constraintId d, cd_scoreDifference d))
        (flat_map (@pc_significantDifferences float) (pairwiseComparisons analysis))
    = [("cost"%string, 20%float); ("performance"%string, 80%float)] /\
    dominatedOptions (dominanceRelations analysis) = [] /\
    analyzeTradeOffs scoringResult Scenario.twoOptions MissingScenario.criteria
    = Success complete /\
    dominatedOptions (dominanceRelations complete) = ["opt1"%string].
Proof.
  eexists. eexists. eexists.
  exists (nth 1 MissingScenario.incomplete (Scenario.alternative "" "" [])).
  exists (nth 1 MissingScenario.criteria
              (Scenario.criterion "" "" 0 cost minimize 0)).
  split; [vm_compute; tauto|]. split; [vm_compute; tauto|].
  split; [vm_compute; reflexivity|].
  split; [vm_compute; reflexivity|].
  split; [vm_compute; reflexivity|].
  split; [vm_compute; reflexivity|].
  split; [vm_compute; reflexivity|].
  split; vm_compute; reflexivity.
Qed.

(* ================================================================== *)
(** ** Strength and weakness tags: the analyzer against the engine *)

Section Tags.
Context {num : Type} `{Number num}.
Local Open Scope js_scope.



Lemma topsis_identifyStrengths_In
    (optionIndex : nat) (weightedMatrix : list (list num))
    (constraints : list (Constraint num)) (name : string) :
  In name (topsis_identifyStrengths optionIndex weightedMatrix constraints) <->
  exists j k, nth_error constraints j = Some k /\ name = c_name k /\
              engineStrength (c_direction k)
                             (tagPercentile weightedMatrix optionIndex j) = true.
Proof.
  unfold topsis_identifyStrengths. rewrite in_concat. split.
  - intros (names & Hnames & Hname).
    apply mapi_In in Hnames as (j & k & Hjk & ->). exists j, k.
    split; [exact Hjk|]. unfold engineStrength.
    destruct (c_direction k);
      match goal with
      | H : In _ (if ?b then _ else _) |- _ =>
          destruct b; [destruct H as [<-|[]]; now split|contradiction]
      end.
  - intros (j & k & Hjk & -> & Hp). eexists. split.
    + apply mapi_In. exists j, k. split; [exact Hjk|reflexivity].
    + cbv beta zeta. unfold engineStrength in Hp.
      destruct (c_direction k); rewrite Hp; now left.
Qed.

Lemma topsis_identifyWeaknesses_In
    (optionIndex : nat) (weightedMatrix : list (list num))
    (constraints : list (Constraint num)) (name : string) :
  In name (topsis_identifyWeaknesses optionIndex weightedMatrix constraints) <->
  exists j k, nth_error constraints j = Some k /\ name = c_name k /\
              engineWeakness (c_direction k)
                             (tagPercentile weightedMatrix optionIndex j) = true.
Proof.
  unfold topsis_identifyWeaknesses. rewrite in_concat. split.
  - intros (names & Hnames & Hname).
    apply mapi_In in Hnames as (j & k & Hjk & ->). exists j, k.
    split; [exact Hjk|]. unfold engineWeakness.
    destruct (c_direction k);
      match goal with
      | H : In _ (if ?b then _ else _) |- _ =>
          destruct b; [destruct H as [<-|[]]; now split|contradiction]
      end.
  - intros (j & k & Hjk & -> & Hp). eexists. split.
    + apply mapi_In. exists j, k. split; [exact Hjk|reflexivity].
    + cbv beta zeta. unfold engineWeakness in Hp.
      destruct (c_direction k); rewrite Hp; now left.
Qed.

End Tags.

(* ================================================================== *)
(** * Further properties of the scoring engine *)

(** ** What the engine accepts, and which error comes first *)

Section EngineAcceptance.
Context {num : Type} `{Number num}.

Lemma concat_nil_inv {A : Type} (l : list (list A)) (x : list A) :
  List.concat l = [] -> In x l -> x = [].
Proof.
  induction l as [|y l IH]; simpl; intros Hnil Hx; [contradiction|].
  apply app_eq_nil in Hnil as [Hy Hl]. destruct Hx as [<-|Hx]; [exact Hy|now apply IH].
Qed.

Lemma scoreErrors_nil_inv (i : nat) (o : Option num) (c : Constraint num) :
  scoreErrors i o c = [] ->
  exists s, JSMap.get (opt_scores o) (c_id c) = Some s /\ invalidNumber s = false.
Proof.
  unfold scoreErrors. destruct (JSMap.get (opt_scores o) (c_id c)) as [s|];
    [|discriminate].
  destruct (invalidNumber s) eqn:E; [discriminate|]. intros _. now exists s.
Qed.

Lemma weightErrors_nil_inv (c : Constraint num) :
  weightErrors c = [] -> invalidNumber (c_weight c) = false.
Proof. unfold weightErrors. now destruct (invalidNumber (c_weight c)). Qed.

Lemma scoreErrors_code (i : nat) (o : Option num) (c : Constraint num)
    (e : ValidationError num) :
  In e (scoreErrors i o c) ->
  code e = "MISSING_SCORE"%string \/ code e = "INVALID_SCORE"%string.
Proof.
  unfold scoreErrors. destruct (JSMap.get (opt_scores o) (c_id c)) as [s|].
  - destruct (invalidNumber s); [|contradiction]. intros [<-|[]]. now right.
  - intros [<-|[]]. now left.
Qed.

Lemma errors_nil_iff (options : list (Option num)) (constraints : list (Constraint num)) :
  errors (topsis_validateInputs options constraints) = [] <->
  acceptable options constraints.
Proof.
  unfold acceptable. split.
  - intros Herr. destruct (validated_sizes _ _ Herr) as [Hos Hcs].
    unfold topsis_validateInputs in Herr. cbn [errors] in Herr.
    apply app_eq_nil in Herr as [_ Herr]. apply app_eq_nil in Herr as [_ Herr].
    apply app_eq_nil in Herr as [Hscores Hweights].
    replace (0 <? List.length options)%nat with true in Hscores
      by (symmetry; apply Nat.ltb_lt; lia).
    replace (0 <? List.length constraints)%nat with true in Hscores, Hweights
      by (symmetry; apply Nat.ltb_lt; lia).
    cbn [andb] in Hscores.
    split; [exact Hos|]. split; [exact Hcs|]. split.
    + intros o c Ho Hc. apply In_nth_error in Ho as [i Hi].
      apply (scoreErrors_nil_inv i).
      apply (concat_nil_inv (map (scoreErrors i o) constraints)); [|now apply in_map].
      apply (concat_nil_inv _ _ Hscores).
      apply mapi_In. now exists i, o.
    + intros c Hc. apply weightErrors_nil_inv.
      apply (concat_nil_inv _ _ Hweights). now apply in_map.
  - intros (Hos & Hcs & Hscores & Hweights).
    unfold topsis_validateInputs. cbn [errors].
    replace (List.length options <? 2)%nat with false
      by (symmetry; apply Nat.ltb_ge; lia).
    replace (List.length constraints =? 0)%nat with false
      by (symmetry; apply Nat.eqb_neq; lia).
    rewrite (scoreErrors_none _ _ Hscores).
    destruct ((0 <? List.length options)%nat && (0 <? List.length constraints)%nat),
      (0 <? List.length constraints)%nat; cbn [app]; try reflexivity;
      apply concat_all_nil; intros e He;
      apply in_map_iff in He as (c & <- & Hc);
      unfold weightErrors; now rewrite (Hweights c Hc).
Qed.

Lemma calculateScores_accepts (options : list (Option num))
    (constraints : list (Constraint num)) :
  acceptable options constraints ->
  exists r, calculateScores options constraints = Success r.
Proof.
  intros Hok. apply errors_nil_iff in Hok. unfold calculateScores. rewrite Hok.
  destruct (calculateIdealSolutions _ _) as [ideal negativeIdeal].
  destruct (calculateDistances _ _ _) as [pos neg]. eexists. reflexivity.
Qed.
End EngineAcceptance.

Section ValidationCodes.
Context {num : Type} `{Number num}.

(** Every error that validation raises carries one of its five codes. *)
Lemma topsis_validateInputs_codes (options : list (Option num))
    (constraints : list (Constraint num)) (e : ValidationError num) :
  In e (errors (topsis_validateInputs options constraints)) ->
  In (code e) validationCodes.
Proof.
  unfold topsis_validateInputs, validationCodes. cbn [errors]. intros He.
  apply in_app_or in He as [He|He].
  { destruct (List.length options <? 2)%nat; [|contradiction].
    destruct He as [<-|[]]. cbn. tauto. }
  apply in_app_or in He as [He|He].
  { destruct (List.length constraints =? 0)%nat; [|contradiction].
    destruct He as [<-|[]]. cbn. tauto. }
  apply in_app_or in He as [He|He].
  - destruct ((0 <? List.length options)%nat && (0 <? List.length constraints)%nat);
      [|contradiction].
    apply in_concat in He as (errs & Herrs & He).
    apply mapi_In in Herrs as (i & o & _ & ->).
    apply in_concat in He as (errs' & Herrs' & He).
    apply in_map_iff in Herrs' as (c & <- & _).
    apply scoreErrors_code in He as [-> | ->]; cbn; tauto.
  - destruct (0 <? List.length constraints)%nat; [|contradiction].
    apply weightErrors_code in He as ->. cbn. tauto.
Qed.
End ValidationCodes.

(** X1: [calculateScores] returns a validation error, one with the code
    INSUFFICIENT_OPTIONS, NO_CONSTRAINTS, MISSING_SCORE, INVALID_SCORE or
    INVALID_WEIGHT, exactly when the input is not acceptable: fewer than two
    options, no constraint, an option without a finite score for some
    constraint, or a weight that is not finite.  It succeeds only on an
    acceptable input. *)
Theorem calculateScores_rejects_iff
    {num : Type} `{Number num}
    (options : list (Option num)) (constraints : list (Constraint num)) :
  ((exists e, calculateScores options constraints = Failure e /\
              In (code e) validationCodes) <->
   ~ acceptable options constraints) /\
  (forall r, calculateScores options constraints = Success r ->
             acceptable options constraints).
Proof.
  pose proof (@errors_nil_iff num _ options constraints) as Hok.
  pose proof (@topsis_validateInputs_codes num _ options constraints) as Hcodes.
  unfold calculateScores.
  destruct (errors (topsis_validateInputs options constraints)) as [|e rest].
  - split; [|intros r _; now apply Hok]. split.
    + intros (e & He & _).
      destruct (calculateIdealSolutions _ _) as [ideal negativeIdeal].
      destruct (calculateDistances _ _ _) as [pos neg]. discriminate.
    + intros Hne. exfalso. apply Hne. now apply Hok.
  - split; [|discriminate]. split.
    + intros _ Hacc. apply Hok in Hacc. discriminate.
    + intros _. exists e. split; [reflexivity|]. apply Hcodes. now left.
Qed.

(** X2: the error [calculateScores] returns is the first in the order of the
    checks: too few options, then no constraint, then the first missing or
    invalid score, and a weight only when all scores are in order. *)
Theorem calculateScores_error_precedence
    {num : Type} `{Number num}
    (options : list (Option num)) (constraints : list (Constraint num)) :
  ((List.length options < 2)%nat ->
   exists e, calculateScores options constraints = Failure e /\
             code e = "INSUFFICIENT_OPTIONS"%string) /\
  ((2 <= List.length options)%nat -> constraints = [] ->
   exists e, calculateScores options constraints = Failure e /\
             code e = "NO_CONSTRAINTS"%string) /\
  ((2 <= List.length options)%nat ->
   (exists o c, In o options /\ In c constraints /\
                forall s, JSMap.get (opt_scores o) (c_id c) = Some s ->
                          invalidNumber s = true) ->
   exists e, calculateScores options constraints = Failure e /\
             (code e = "MISSING_SCORE"%string \/ code e = "INVALID_SCORE"%string)) /\
  ((2 <= List.length options)%nat ->
   (forall o c, In o options -> In c constraints ->
      exists s, JSMap.get (opt_scores o) (c_id c) = Some s /\ invalidNumber s = false) ->
   (exists c, In c constraints /\ invalidNumber (c_weight c) = true) ->
   exists e, calculateScores options constraints = Failure e /\
             code e = "INVALID_WEIGHT"%string).
Proof.
  split; [|split; [|split]];
    [unfold calculateScores, topsis_validateInputs; cbn [errors]..|].
  - intros Hlt. replace (List.length options <? 2)%nat with true
      by (symmetry; apply Nat.ltb_lt; lia).
    cbn [app]. eexists. split; reflexivity.
  - intros Hge ->. replace (List.length options <? 2)%nat with false
      by (symmetry; apply Nat.ltb_ge; lia).
    cbn. eexists. split; reflexivity.
  - intros Hge (o & c & Ho & Hc & Hbad).
    assert (Hcs : (0 < List.length constraints)%nat)
      by (destruct constraints; [contradiction|simpl; lia]).
    replace (List.length options <? 2)%nat with false
      by (symmetry; apply Nat.ltb_ge; lia).
    replace (List.length constraints =? 0)%nat with false
      by (symmetry; apply Nat.eqb_neq; lia).
    replace (0 <? List.length options)%nat with true
      by (symmetry; apply Nat.ltb_lt; lia).
    replace (0 <? List.length constraints)%nat with true
      by (symmetry; apply Nat.ltb_lt; lia).
    cbn [app andb].
    set (scoreErrs := List.concat (mapi _ options)).
    assert (Hcodes : forall e, In e scoreErrs ->
              code e = "MISSING_SCORE"%string \/ code e = "INVALID_SCORE"%string).
    { intros e He. apply in_concat in He as (errs & Herrs & He).
      apply mapi_In in Herrs as (i & o' & _ & ->).
      apply in_concat in He as (errs' & Herrs' & He).
      apply in_map_iff in Herrs' as (c' & <- & _).
      now apply scoreErrors_code in He. }
    assert (Hne : scoreErrs <> []).
    { intros Hnil. apply In_nth_error in Ho as [i Hi].
      assert (Hs : scoreErrors i o c = []).
      { apply (concat_nil_inv (map (scoreErrors i o) constraints));
          [|now apply in_map].
        apply (concat_nil_inv _ _ Hnil). apply mapi_In. now exists i, o. }
      apply scoreErrors_nil_inv in Hs as (s & Hs & Hfin).
      rewrite (Hbad s Hs) in Hfin. discriminate. }
    destruct scoreErrs as [|e rest]; [contradiction|].
    cbn [app]. exists e. split; [reflexivity|]. apply Hcodes. now left.
  - intros Hge Hscores Hweight. now apply non_finite_weight_rejected.
Qed.

Lemma calculateScores_error_precedence_witness :
  (exists e, calculateScores [Scenario.option1] (Scenario.twoCriteria 50 50) = Failure e /\
             code e = "INSUFFICIENT_OPTIONS"%string) /\
  (exists e, calculateScores Scenario.twoOptions [] = Failure e /\
             code e = "NO_CONSTRAINTS"%string) /\
  (exists e, calculateScores MissingScenario.incomplete MissingScenario.criteria
             = Failure e /\
             (code e = "MISSING_SCORE"%string \/ code e = "INVALID_SCORE"%string)) /\
  (exists e, calculateScores Scenario.twoOptions (Scenario.twoCriteria infinity 50)
             = Failure e /\
             code e = "INVALID_WEIGHT"%string).
Proof.
  split; [|split; [|split]].
  - apply (proj1 (@calculateScores_error_precedence float Float64.number
                    [Scenario.option1] (Scenario.twoCriteria 50 50))).
    simpl. lia.
  - apply (proj1 (proj2 (@calculateScores_error_precedence float Float64.number
                           Scenario.twoOptions []))); [simpl; lia|reflexivity].
  - apply (proj1 (proj2 (proj2 (@calculateScores_error_precedence float Float64.number
                           MissingScenario.incomplete MissingScenario.criteria))));
      [simpl; lia|].
    exists (nth 1 MissingScenario.incomplete (Scenario.alternative "" "" [])).
    exists (nth 1 MissingScenario.criteria
                (Scenario.criterion "" "" 0 cost minimize 0)).
    split; [vm_compute; tauto|]. split; [vm_compute; tauto|].
    intros s Hs. vm_compute in Hs. discriminate.
  - apply (proj2 (proj2 (proj2 (@calculateScores_error_precedence float Float64.number
                           Scenario.twoOptions (Scenario.twoCriteria infinity 50)))));
      [simpl; lia| |].
    + intros o c Ho Hc.
      destruct Ho as [<-|[<-|[]]]; destruct Hc as [<-|[<-|[]]];
        eexists; split; reflexivity.
    + eexists. split; [left; reflexivity|vm_compute; reflexivity].
Defined.

(** ** The shape of a scoring result *)

Section ResultShape.
Context {num : Type} `{Number num}.

Lemma get_fold_set_absent {V : Type} (l : list (string * V)) (m : JSMap.t V)
    (k : string) :
  ~ In k (map fst l) ->
  JSMap.get (fold_left (fun m kv => JSMap.set m (fst kv) (snd kv)) l m) k
  = JSMap.get m k.
Proof.
  revert m. induction l as [|[k' v'] l IH]; intros m Hk; [reflexivity|].
  cbn [fold_left fst snd]. rewrite IH by (intros Hin; apply Hk; now right).
  apply get_set_other. intros ->. apply Hk. now left.
Qed.

Lemma get_fold_set_present {V : Type} (l : list (string * V)) (m : JSMap.t V)
    (k : string) (v : V) :
  NoDup (map fst l) -> In (k, v) l ->
  JSMap.get (fold_left (fun m kv => JSMap.set m (fst kv) (snd kv)) l m) k = Some v.
Proof.
  revert m. induction l as [|[k' v'] l IH]; intros m Hnd Hin; [contradiction|].
  cbn [map fst] in Hnd. inversion Hnd as [|? ? Hk' Hnd']; subst.
  cbn [fold_left fst snd]. destruct Hin as [Heq|Hin].
  - injection Heq as -> ->. rewrite get_fold_set_absent by exact Hk'.
    apply get_set_same.
  - now apply IH.
Qed.

Lemma keys_mapi_entries {A V : Type} (key : A -> string) (value : nat -> A -> V)
    (l : list A) :
  map fst (mapi (fun i x => (key x, value i x)) l) = map key l.
Proof.
  unfold mapi. rewrite map_mapi_from. cbn [fst]. apply mapi_from_const.
Qed.

Lemma buildScoreMap_get (options : list (Option num))
    (constraints : list (Constraint num)) (matrix : list (list num))
    (i j : nat) (o : Option num) (c : Constraint num) :
  NoDup (map (@opt_id num) options) -> NoDup (map (@c_id num) constraints) ->
  nth_error options i = Some o -> nth_error constraints j = Some c ->
  exists row, JSMap.get (buildScoreMap options constraints matrix) (opt_id o) = Some row /\
              JSMap.get row (c_id c) = Some (cell matrix i j).
Proof.
  intros Hos Hcs Ho Hc. eexists. split.
  - unfold buildScoreMap. apply get_fold_set_present.
    + rewrite (keys_mapi_entries (@opt_id num)). exact Hos.
    + apply mapi_In. exists i, o. split; [exact Ho|reflexivity].
  - apply get_fold_set_present.
    + rewrite (keys_mapi_entries (@c_id num)). exact Hcs.
    + apply mapi_In. exists j, c. split; [exact Hc|reflexivity].
Qed.

Lemma ranked_options (options : list (Option num)) (closenessList : list num)
    (weightedMatrix : list (list num)) (constraints : list (Constraint num)) :
  Permutation
    (map (@r_option num)
         (generateRankings options closenessList weightedMatrix constraints))
    options.
Proof.
  unfold generateRankings, mapi. rewrite map_mapi_from. cbn [r_option].
  rewrite (mapi_from_const (@ir_option num)).
  transitivity (map (@ir_option num) (indexedRankings options closenessList)).
  - apply Permutation_map, sort_perm.
  - unfold indexedRankings, mapi. rewrite map_mapi_from. cbn [ir_option].
    rewrite (mapi_from_const (fun o : Option num => o)). now rewrite map_id.
Qed.
End ResultShape.

Section ResultKeys.
Context {V : Type}.

Lemma keys_fold_set (l : list (string * V)) (m : JSMap.t V) (k : string) :
  In k (JSMap.keys (fold_left (fun m kv => JSMap.set m (fst kv) (snd kv)) l m)) <->
  In k (JSMap.keys m) \/ In k (map fst l).
Proof.
  revert m. induction l as [|[k' v'] l IH]; intros m;
    cbn [fold_left map fst snd In].
  - tauto.
  - rewrite IH, keys_set. destruct (JSMap.has m k') eqn:Hhas.
    + apply has_keys in Hhas. split; [tauto|].
      intros [Hk|[<-|Hk]]; tauto.
    + rewrite in_app_iff. cbn [In]. tauto.
Qed.

Lemma NoDup_keys_fold_set (l : list (string * V)) (m : JSMap.t V) :
  NoDup (JSMap.keys m) ->
  NoDup (JSMap.keys (fold_left (fun m kv => JSMap.set m (fst kv) (snd kv)) l m)).
Proof.
  revert m. induction l as [|[k' v'] l IH]; intros m Hm; [exact Hm|].
  cbn [fold_left]. apply IH. now apply NoDup_keys_set.
Qed.
End ResultKeys.

(** X3: a scoring result ranks every option once: the ranked options are a
    rearrangement of the options given, each of the three score maps has
    exactly the option identifiers as its keys, none twice, and both ideal
    solutions have one entry per constraint. *)
Theorem scoring_result_shape
    {num : Type} `{Number num}
    (options : list (Option num)) (constraints : list (Constraint num))
    (r : ScoringResult num) :
  calculateScores options constraints = Success r ->
  Permutation (map (@r_option num) (rankings r)) options /\
  List.length (idealSolution r) = List.length constraints /\
  List.length (negativeIdealSolution r) = List.length constraints /\
  (forall scoreMap,
     In scoreMap [JSMap.keys (normalizedScores r); JSMap.keys (weightedScores r);
                  JSMap.keys (closenessScores r)] ->
     NoDup scoreMap /\ forall k, In k scoreMap <-> In k (map (@opt_id num) options)).
Proof.
  intros Hr. apply calculateScores_success_inv in Hr as [_ ->].
  cbn [rankings idealSolution negativeIdealSolution normalizedScores weightedScores
       closenessScores].
  split; [apply ranked_options|].
  split; [unfold calculateIdealSolutions; cbn [fst]; apply mapi_length|].
  split; [unfold calculateIdealSolutions; cbn [snd]; apply mapi_length|].
  intros scoreMap [<-|[<-|[<-|[]]]];
    (split; [apply NoDup_keys_fold_set; constructor|]);
    intros k; unfold buildScoreMap, JSMap.of_entries;
    rewrite keys_fold_set, (keys_mapi_entries (@opt_id num)); cbn [JSMap.keys map In];
    tauto.
Qed.

Lemma scoring_result_shape_witness :
  exists r : ScoringResult float,
    calculateScores Scenario.suppliers Scenario.supplierCriteria = Success r /\
    Permutation (map (@r_option float) (rankings r)) Scenario.suppliers /\
    List.length (idealSolution r) = 4%nat.
Proof.
  eexists. split; [vm_compute; reflexivity|].
  destruct (@scoring_result_shape float Float64.number
              Scenario.suppliers Scenario.supplierCriteria _ eq_refl)
    as (Hperm & Hideal & _).
  split; [exact Hperm|exact Hideal].
Defined.

(** X4: with distinct option identifiers and distinct constraint identifiers,
    the score maps of a result hold every cell of the matrices: looking up
    option [i] and constraint [j] gives the normalized value of that cell, and
    in the weighted map that value times a hundredth of the weight. *)
Theorem score_maps_hold_every_cell
    {num : Type} `{Number num}
    (options : list (Option num)) (constraints : list (Constraint num))
    (r : ScoringResult num) (i j : nat) (o : Option num) (c : Constraint num) :
  calculateScores options constraints = Success r ->
  NoDup (map (@opt_id num) options) -> NoDup (map (@c_id num) constraints) ->
  nth_error options i = Some o -> nth_error constraints j = Some c ->
  exists rowN rowW n,
    JSMap.get (normalizedScores r) (opt_id o) = Some rowN /\
    JSMap.get rowN (c_id c) = Some n /\
    n = cell (normalizeMatrix (buildDecisionMatrix options constraints) constraints) i j /\
    JSMap.get (weightedScores r) (opt_id o) = Some rowW /\
    JSMap.get rowW (c_id c) = Some (n * (c_weight c / of_Z 100))%js.
Proof.
  intros Hr Hos Hcs Ho Hc. apply calculateScores_success_inv in Hr as [_ ->].
  cbn [normalizedScores weightedScores].
  destruct (@buildScoreMap_get num _ options constraints
              (normalizeMatrix (buildDecisionMatrix options constraints) constraints)
              i j o c Hos Hcs Ho Hc) as (rowN & HrowN & Hn).
  destruct (@buildScoreMap_get num _ options constraints
              (applyWeights
                 (normalizeMatrix (buildDecisionMatrix options constraints) constraints)
                 constraints)
              i j o c Hos Hcs Ho Hc) as (rowW & HrowW & Hw).
  exists rowN, rowW. eexists.
  split; [exact HrowN|]. split; [exact Hn|]. split; [reflexivity|].
  split; [exact HrowW|]. rewrite Hw. f_equal.
  apply cell_applyWeights; [|exact Hc].
  rewrite normalizeMatrix_length, buildDecisionMatrix_length.
  apply nth_error_Some. rewrite Ho. discriminate.
Qed.

Lemma score_maps_hold_every_cell_witness :
  exists (r : ScoringResult float) (rowN rowW : JSMap.t float) (n : float),
    calculateScores Scenario.twoOptions (Scenario.twoCriteria 60 40) = Success r /\
    JSMap.get (normalizedScores r) "opt2" = Some rowN /\
    JSMap.get rowN "cost" = Some n /\
    JSMap.get (weightedScores r) "opt2" = Some rowW /\
    JSMap.get rowW "cost" = Some (n * (60 / 100))%float.
Proof.
  assert (Hos : NoDup (map (@opt_id float) Scenario.twoOptions)).
  { repeat constructor; cbn; intuition discriminate. }
  assert (Hcs : NoDup (map (@c_id float) (Scenario.twoCriteria 60 40))).
  { repeat constructor; cbn; intuition discriminate. }
  destruct (@score_maps_hold_every_cell float Float64.number
              Scenario.twoOptions (Scenario.twoCriteria 60 40) _ 1%nat 0%nat
              Scenario.option2 (Scenario.costCriterion 60)
              eq_refl Hos Hcs eq_refl eq_refl)
    as (rowN & rowW & n & HrowN & Hn & _ & HrowW & Hw).
  eexists. exists rowN, rowW, n.
  split; [reflexivity|]. split; [exact HrowN|]. split; [exact Hn|].
  split; [exact HrowW|exact Hw].
Defined.

Lemma closeness_map_get {num : Type} `{Number num}
    (options : list (Option num)) (constraints : list (Constraint num))
    (r : ScoringResult num) (x : OptionRanking num) :
  calculateScores options constraints = Success r ->
  NoDup (map (@opt_id num) options) ->
  In x (rankings r) ->
  JSMap.get (closenessScores r) (opt_id (r_option x)) = Some (r_closenessScore x).
Proof.
  intros Hr Hos Hx. apply calculateScores_success_inv in Hr as [_ ->].
  cbn [rankings closenessScores] in *.
  apply generateRankings_In in Hx as (i & Hi & ->).
  unfold JSMap.of_entries. apply get_fold_set_present.
  - rewrite (keys_mapi_entries (@opt_id num)). exact Hos.
  - apply mapi_In. exists i, (r_option x). split; [exact Hi|reflexivity].
Qed.

(** X5: with distinct option identifiers, the closeness map of a result
    agrees with its rankings: the entry under an option's identifier is the
    closeness score of that option's ranking. *)
Theorem closeness_map_agrees_with_rankings
    {num : Type} `{Number num}
    (options : list (Option num)) (constraints : list (Constraint num))
    (r : ScoringResult num) (x : OptionRanking num) :
  calculateScores options constraints = Success r ->
  NoDup (map (@opt_id num) options) ->
  In x (rankings r) ->
  JSMap.get (closenessScores r) (opt_id (r_option x)) = Some (r_closenessScore x).
Proof. apply closeness_map_get. Qed.

Lemma closeness_map_agrees_with_rankings_witness :
  exists r : ScoringResult float,
    calculateScores Scenario.suppliers Scenario.supplierCriteria = Success r /\
    forall x, In x (rankings r) ->
      JSMap.get (closenessScores r) (opt_id (r_option x)) = Some (r_closenessScore x).
Proof.
  eexists. split; [vm_compute; reflexivity|].
  intros x Hx.
  refine (@closeness_map_agrees_with_rankings float Float64.number
            Scenario.suppliers Scenario.supplierCriteria _ x eq_refl _ Hx).
  repeat constructor; cbn; intuition discriminate.
Defined.

(* ================================================================== *)
(** ** Exact arithmetic: normalization *)

Section ExactNormalization.
Local Open Scope R_scope.

Lemma nth_mapi {A B : Type} (f : nat -> A -> B) (l : list A) (j : nat) (x : A) (d : B) :
  nth_error l j = Some x -> nth j (mapi f l) d = f j x.
Proof.
  intros Hj. apply nth_error_nth. rewrite mapi_nth_error, Hj. reflexivity.
Qed.

Lemma nth_mapi_default {A B : Type} (f : nat -> A -> B) (l : list A) (j : nat) (d : B) :
  (List.length l <= j)%nat -> nth j (mapi f l) d = d.
Proof. intros Hj. apply nth_overflow. now rewrite mapi_length. Qed.

Lemma sumSquares_shift (l : list R) (a : R) :
  fold_left (fun acc v => acc + v * v) l a
  = a + fold_left (fun acc v => acc + v * v) l 0.
Proof.
  revert a. induction l as [|x l IH]; intros a; cbn [fold_left]; [lra|].
  rewrite (IH (a + x * x)), (IH (0 + x * x)). lra.
Qed.

Lemma sumSquares_bounds_entry (l : list R) (x : R) :
  In x l -> x * x <= fold_left (fun acc v => acc + v * v) l 0.
Proof.
  induction l as [|y l IH]; [contradiction|]. cbn [fold_left].
  rewrite sumSquares_shift.
  assert (0 <= fold_left (fun acc v => acc + v * v) l 0)
    by (apply sumSquares_nonneg; lra).
  intros [->|Hx]; [lra|]. specialize (IH Hx). nra.
Qed.

Lemma sumSquares_zero (l : list R) :
  (forall x, In x l -> x = 0) -> fold_left (fun acc v => acc + v * v) l 0 = 0.
Proof.
  induction l as [|y l IH]; intros Hall; [reflexivity|]. cbn [fold_left].
  rewrite (Hall y) by now left. rewrite Rmult_0_r, Rplus_0_r.
  apply IH. intros x Hx. apply Hall. now right.
Qed.

Lemma sumSquares_positive (l : list R) (x : R) :
  In x l -> x <> 0 -> 0 < fold_left (fun acc v => acc + v * v) l 0.
Proof.
  intros Hx Hne. apply sumSquares_bounds_entry in Hx.
  assert (0 < x * x) by nra. lra.
Qed.

Lemma sumSquares_divided (l : list R) (s a : R) :
  s <> 0 ->
  fold_left (fun acc v => acc + v * v) (map (fun x => x / s) l) (a / (s * s))
  = fold_left (fun acc v => acc + v * v) l a / (s * s).
Proof.
  intros Hs. revert a. induction l as [|x l IH]; intros a; cbn [fold_left map];
    [reflexivity|].
  rewrite <- IH. f_equal. field. exact Hs.
Qed.

Lemma cell_column (m : list (list R)) (i j : nat) :
  cell m i j = nth i (column m j) 0.
Proof.
  unfold cell, column. destruct (nth_error m i) as [row|] eqn:Hrow.
  - rewrite (nth_error_nth _ _ _ Hrow).
    symmetry. apply nth_error_nth. now rewrite nth_error_map, Hrow.
  - apply nth_error_None in Hrow.
    rewrite (nth_overflow m) by exact Hrow.
    rewrite (nth_overflow (map _ m)) by (rewrite length_map; exact Hrow).
    now destruct j.
Qed.

Lemma column_normalizeMatrix (decisionMatrix : list (list R))
    (constraints : list (Constraint R)) (j : nat) :
  (j < List.length constraints)%nat ->
  column (normalizeMatrix decisionMatrix constraints) j
  = map (fun x => if Rlt_dec 0 (columnSumSquares decisionMatrix j)
                  then x / R_sqrt.sqrt (columnSumSquares decisionMatrix j)
                  else 0)
        (column decisionMatrix j).
Proof.
  intros Hj. unfold column, normalizeMatrix. rewrite !map_map.
  apply map_ext. intros row.
  destruct (nth_error constraints j) as [c|] eqn:Hc;
    [|apply nth_error_None in Hc; lia].
  erewrite nth_mapi by exact Hc. unfold zero.
  cbn [ltb div sqrt of_Z Exact.number]. unfold Exact.Rltb.
  now destruct (Rlt_dec 0 (columnSumSquares decisionMatrix j)).
Qed.
End ExactNormalization.

(** X6: vector normalization, in exact arithmetic, of a matrix with one cell
    per constraint in every row.  A column with a score other than 0 is
    divided by its Euclidean norm, the square root of the sum of the squares
    of its scores: the squares of its normalized scores sum to 1, and each
    normalized score lies in [-1,1] and keeps its sign.  A column of zeros
    stays a column of zeros. *)
Theorem normalized_column_has_unit_norm
    (decisionMatrix : list (list R)) (constraints : list (Constraint R)) (j : nat) :
  (forall row, In row decisionMatrix -> List.length row = List.length constraints) ->
  (j < List.length constraints)%nat ->
  let normalizedMatrix := normalizeMatrix decisionMatrix constraints in
  let norm := R_sqrt.sqrt (columnSumSquares decisionMatrix j) in
  ((exists i, (i < List.length decisionMatrix)%nat /\
              cell decisionMatrix i j <> 0%R) ->
   columnSumSquares normalizedMatrix j = 1%R /\
   forall i, (i < List.length decisionMatrix)%nat ->
     cell normalizedMatrix i j = (cell decisionMatrix i j / norm)%R /\
     (-1 <= cell normalizedMatrix i j <= 1)%R /\
     (0 <= cell normalizedMatrix i j * cell decisionMatrix i j)%R) /\
  ((forall i, (i < List.length decisionMatrix)%nat ->
              cell decisionMatrix i j = 0%R) ->
   forall i, (i < List.length decisionMatrix)%nat ->
     cell normalizedMatrix i j = 0%R).
Proof.
  intros _ Hj normalizedMatrix norm.
  assert (Hcell : forall i, cell normalizedMatrix i j
                            = nth i (column normalizedMatrix j) 0%R)
    by (intros i; apply cell_column).
  assert (Hraw : forall i, cell decisionMatrix i j
                           = nth i (column decisionMatrix j) 0%R)
    by (intros i; apply cell_column).
  subst normalizedMatrix norm.
  pose proof (column_normalizeMatrix decisionMatrix constraints Hj) as Hcol.
  assert (Hrawlen : List.length (column decisionMatrix j) = List.length decisionMatrix)
    by (unfold column; apply length_map).
  unfold columnSumSquares in *. unfold zero in *. cbn [add mul of_Z Exact.number] in *.
  set (raw := column decisionMatrix j) in *.
  set (sumSquares := fold_left (fun acc value => (acc + value * value)%R) raw 0%R) in *.
  split.
  - intros (i0 & Hi0 & Hne). rewrite Hraw in Hne.
    assert (Hx : In (nth i0 raw 0%R) raw) by (apply nth_In; lia).
    assert (Hpos : (0 < sumSquares)%R)
      by exact (@sumSquares_positive raw _ Hx Hne).
    destruct (Rlt_dec 0 sumSquares) as [_|Hn]; [|contradiction].
    assert (Hsq : (R_sqrt.sqrt sumSquares * R_sqrt.sqrt sumSquares = sumSquares)%R)
      by (apply sqrt_sqrt; lra).
    assert (Hs : (0 < R_sqrt.sqrt sumSquares)%R) by now apply sqrt_lt_R0.
    assert (Hunit : fold_left (fun acc value => (acc + value * value)%R)
                      (column (normalizeMatrix decisionMatrix constraints) j) 0%R
                    = 1%R).
    { rewrite Hcol.
      replace 0%R with (0 / (R_sqrt.sqrt sumSquares * R_sqrt.sqrt sumSquares))%R
        at 1 by (field; lra).
      rewrite sumSquares_divided by lra. fold sumSquares. rewrite Hsq. field. lra. }
    split; [exact Hunit|]. intros i Hi. rewrite Hcell, Hraw.
    destruct (nth_error raw i) as [y|] eqn:Hy;
      [|apply nth_error_None in Hy; lia].
    rewrite (nth_error_nth _ _ _ Hy).
    assert (Hn : nth i (column (normalizeMatrix decisionMatrix constraints) j) 0%R
                 = (y / R_sqrt.sqrt sumSquares)%R).
    { apply nth_error_nth. now rewrite Hcol, nth_error_map, Hy. }
    rewrite Hn. split; [reflexivity|].
    assert (Hin : In (y / R_sqrt.sqrt sumSquares)%R
                     (column (normalizeMatrix decisionMatrix constraints) j)).
    { rewrite Hcol. apply in_map_iff. now exists y; split;
        [|apply (nth_error_In _ _ Hy)]. }
    apply sumSquares_bounds_entry in Hin. rewrite Hunit in Hin.
    split; [nra|].
    replace (y / R_sqrt.sqrt sumSquares * y)%R
      with (y * y * / R_sqrt.sqrt sumSquares)%R by (field; lra).
    apply Rmult_le_pos; [nra|]. left. now apply Rinv_0_lt_compat.
  - intros Hzero i Hi. rewrite Hcell.
    assert (Hall0 : forall x, In x raw -> x = 0%R).
    { intros x Hx. apply In_nth with (d := 0%R) in Hx as (i' & Hi' & <-).
      rewrite <- Hraw. apply Hzero. lia. }
    assert (Hall : forall x,
              In x (column (normalizeMatrix decisionMatrix constraints) j) -> x = 0%R).
    { intros x Hx. rewrite Hcol in Hx. apply in_map_iff in Hx as (y & <- & Hy).
      destruct (Rlt_dec 0 sumSquares) as [Hpos|_]; [|reflexivity].
      unfold sumSquares in Hpos. rewrite (@sumSquares_zero raw Hall0) in Hpos. lra. }
    destruct (nth_in_or_default i
                (column (normalizeMatrix decisionMatrix constraints) j) 0%R)
      as [Hin| ->]; [now apply Hall|reflexivity].
Qed.

(** On the decision matrix of the input over the reals: the scores 3 and 4
    on x are divided by 5. *)
Lemma normalized_column_has_unit_norm_witness :
  let decisionMatrix :=
    buildDecisionMatrix ExactScenario.alternatives ExactScenario.criteria in
  columnSumSquares (normalizeMatrix decisionMatrix ExactScenario.criteria) 0 = 1%R /\
  cell (normalizeMatrix decisionMatrix ExactScenario.criteria) 0 0
  = (3 / R_sqrt.sqrt (columnSumSquares decisionMatrix 0))%R.
Proof.
  cbv zeta.
  destruct (@normalized_column_has_unit_norm
              (buildDecisionMatrix ExactScenario.alternatives ExactScenario.criteria)
              ExactScenario.criteria 0%nat) as [[Hunit Hcells] _].
  - intros row [<-|[<-|[]]]; reflexivity.
  - simpl. lia.
  - exists 0%nat. split; [simpl; lia|]. cbn. lra.
  - split; [exact Hunit|].
    destruct (Hcells 0%nat) as [Hdiv _]; [simpl; lia|exact Hdiv].
Defined.

(* ================================================================== *)
(** ** Exact arithmetic: the ideal solutions *)

Section RankingOfOption.
Context {num : Type} `{Number num}.

(** Every option has its ranking, with the closeness score and the tags of
    its row. *)
Lemma ranking_of_option (options : list (Option num)) (closenessList : list num)
    (weightedMatrix : list (list num)) (constraints : list (Constraint num))
    (i : nat) (o : Option num) :
  nth_error options i = Some o ->
  exists x, In x (generateRankings options closenessList weightedMatrix constraints) /\
            r_option x = o /\
            r_closenessScore x = nth i closenessList zero /\
            r_strengthAreas x = topsis_identifyStrengths i weightedMatrix constraints /\
            r_weaknessAreas x = topsis_identifyWeaknesses i weightedMatrix constraints.
Proof.
  intros Ho.
  set (item := {| ir_option := o; ir_index := i;
                  ir_closenessScore := nth i closenessList zero |}).
  assert (Hitem : In item (sort byClosenessDescending
                             (indexedRankings options closenessList))).
  { apply sort_In. apply (nth_error_In _ i).
    rewrite indexedRankings_nth_error, Ho. reflexivity. }
  apply In_nth_error in Hitem as [rank Hrank].
  eexists. split.
  - unfold generateRankings. apply mapi_In. exists rank, item.
    split; [exact Hrank|reflexivity].
  - cbn. repeat split.
Qed.

Lemma weightedMatrixOf_length (options : list (Option num))
    (constraints : list (Constraint num)) :
  List.length (weightedMatrixOf options constraints) = List.length options.
Proof.
  unfold weightedMatrixOf.
  now rewrite applyWeights_length, normalizeMatrix_length, buildDecisionMatrix_length.
Qed.

Lemma weightedMatrixOf_row (options : list (Option num))
    (constraints : list (Constraint num)) (i : nat) (row : list num) :
  nth_error (weightedMatrixOf options constraints) i = Some row ->
  List.length row = List.length constraints.
Proof.
  unfold weightedMatrixOf, applyWeights. rewrite nth_error_map.
  destruct (nth_error _ i); [|discriminate]. cbn [option_map].
  intros [= <-]. apply mapi_length.
Qed.

(** The closeness score of option [i] in a result. *)
Lemma result_closeness (options : list (Option num))
    (constraints : list (Constraint num)) (r : ScoringResult num)
    (i : nat) (o : Option num) :
  calculateScores options constraints = Success r ->
  nth_error options i = Some o ->
  exists x row,
    In x (rankings r) /\ r_option x = o /\
    nth_error (weightedMatrixOf options constraints) i = Some row /\
    r_closenessScore x
    = closeness (distanceTo (idealSolution r) row)
                (distanceTo (negativeIdealSolution r) row).
Proof.
  intros Hr Ho. apply calculateScores_success_inv in Hr as [_ Hr]. cbv zeta in Hr.
  subst r. cbn [rankings idealSolution negativeIdealSolution].
  fold (weightedMatrixOf options constraints).
  set (W := weightedMatrixOf options constraints).
  destruct (nth_error W i) as [row|] eqn:Hrow.
  2:{ apply nth_error_None in Hrow. unfold W in Hrow.
      rewrite weightedMatrixOf_length in Hrow.
      assert (nth_error options i <> None) by congruence.
      apply nth_error_Some in H0. lia. }
  destruct (@ranking_of_option options
              (calculateClosenessScores
                 (fst (calculateDistances W (fst (calculateIdealSolutions W constraints))
                         (snd (calculateIdealSolutions W constraints))))
                 (snd (calculateDistances W (fst (calculateIdealSolutions W constraints))
                         (snd (calculateIdealSolutions W constraints)))))
              W constraints i o Ho) as (x & Hx & Hox & Hcx & _).
  exists x, row. split; [exact Hx|]. split; [exact Hox|]. split; [reflexivity|].
  rewrite Hcx. unfold calculateDistances. cbn [fst snd].
  now apply closenessScores_nth.
Qed.
End RankingOfOption.

Section ExactIdeals.
Local Open Scope R_scope.

Lemma cell_in_column (m : list (list R)) (i j : nat) :
  (i < List.length m)%nat -> In (cell m i j) (column m j).
Proof.
  intros Hi. rewrite cell_column. apply nth_In. unfold column.
  now rewrite length_map.
Qed.

Lemma in_column_cell (m : list (list R)) (j : nat) (x : R) :
  In x (column m j) -> exists i, (i < List.length m)%nat /\ cell m i j = x.
Proof.
  intros Hx. apply In_nth_error in Hx as [i Hi]. exists i. split.
  - assert (Hlt : (i < List.length (column m j))%nat)
      by (apply nth_error_Some; congruence).
    unfold column in Hlt. now rewrite length_map in Hlt.
  - rewrite cell_column. now apply nth_error_nth.
Qed.

Lemma fold_Rmax_upper (l : list R) (a : R) :
  a <= fold_left Rmax l a /\ forall x, In x l -> x <= fold_left Rmax l a.
Proof.
  revert a. induction l as [|y l IH]; intros a; cbn [fold_left].
  - split; [lra|contradiction].
  - destruct (IH (Rmax a y)) as [Ha Hl].
    pose proof (Rmax_l a y). pose proof (Rmax_r a y).
    split; [lra|]. intros x [<-|Hx]; [lra|now apply Hl].
Qed.

Lemma fold_Rmax_attained (l : list R) (a : R) :
  fold_left Rmax l a = a \/ In (fold_left Rmax l a) l.
Proof.
  revert a. induction l as [|y l IH]; intros a; cbn [fold_left]; [now left|].
  destruct (IH (Rmax a y)) as [Heq|Hin]; [|right; now right].
  rewrite Heq. unfold Rmax. destruct (Rle_dec a y); [right; now left|now left].
Qed.

Lemma fold_Rmin_lower (l : list R) (a : R) :
  fold_left Rmin l a <= a /\ forall x, In x l -> fold_left Rmin l a <= x.
Proof.
  revert a. induction l as [|y l IH]; intros a; cbn [fold_left].
  - split; [lra|contradiction].
  - destruct (IH (Rmin a y)) as [Ha Hl].
    pose proof (Rmin_l a y). pose proof (Rmin_r a y).
    split; [lra|]. intros x [<-|Hx]; [lra|now apply Hl].
Qed.

Lemma fold_Rmin_attained (l : list R) (a : R) :
  fold_left Rmin l a = a \/ In (fold_left Rmin l a) l.
Proof.
  revert a. induction l as [|y l IH]; intros a; cbn [fold_left]; [now left|].
  destruct (IH (Rmin a y)) as [Heq|Hin]; [|right; now right].
  rewrite Heq. unfold Rmin. destruct (Rle_dec a y); [now left|right; now left].
Qed.

Lemma Math_max_upper (l : list R) (x : R) : In x l -> x <= Math_max l.
Proof.
  destruct l as [|a l]; [contradiction|]. cbn [Math_max max2 Exact.number].
  destruct (fold_Rmax_upper l a) as [Ha Hl]. intros [<-|Hx]; [exact Ha|now apply Hl].
Qed.

Lemma Math_max_attained (l : list R) : l <> [] -> In (Math_max l) l.
Proof.
  destruct l as [|a l]; [congruence|]. intros _. cbn [Math_max max2 Exact.number].
  destruct (fold_Rmax_attained l a) as [-> |Hin]; [now left|now right].
Qed.

Lemma Math_min_lower (l : list R) (x : R) : In x l -> Math_min l <= x.
Proof.
  destruct l as [|a l]; [contradiction|]. cbn [Math_min min2 Exact.number].
  destruct (fold_Rmin_lower l a) as [Ha Hl]. intros [<-|Hx]; [exact Ha|now apply Hl].
Qed.

Lemma Math_min_attained (l : list R) : l <> [] -> In (Math_min l) l.
Proof.
  destruct l as [|a l]; [congruence|]. intros _. cbn [Math_min min2 Exact.number].
  destruct (fold_Rmin_attained l a) as [-> |Hin]; [now left|now right].
Qed.

Lemma ideal_nth (weightedMatrix : list (list R)) (constraints : list (Constraint R))
    (j : nat) (c : Constraint R) :
  nth_error constraints j = Some c ->
  nth j (fst (calculateIdealSolutions weightedMatrix constraints)) 0
  = match c_direction c with
    | maximize => Math_max (column weightedMatrix j)
    | minimize => Math_min (column weightedMatrix j)
    end /\
  nth j (snd (calculateIdealSolutions weightedMatrix constraints)) 0
  = match c_direction c with
    | maximize => Math_min (column weightedMatrix j)
    | minimize => Math_max (column weightedMatrix j)
    end.
Proof.
  intros Hc. unfold calculateIdealSolutions. cbn [fst snd].
  split; erewrite nth_mapi by exact Hc; reflexivity.
Qed.
End ExactIdeals.

(** X7: in the result of [calculateScores], in exact arithmetic, the ideal
    solution holds for every constraint the best weighted value of its
    column and the negative ideal the worst, by the constraint's direction:
    every option lies between the two, and each of the two is the value of
    some option. *)
Theorem ideal_solutions_bound_every_option
    (options : list (Option R)) (constraints : list (Constraint R))
    (r : ScoringResult R) (i j : nat) (c : Constraint R) :
  calculateScores options constraints = Success r ->
  nth_error constraints j = Some c ->
  (i < List.length options)%nat ->
  let weightedMatrix := weightedMatrixOf options constraints in
  match c_direction c with
  | maximize =>
      (nth j (negativeIdealSolution r) 0 <= cell weightedMatrix i j
       <= nth j (idealSolution r) 0)%R
  | minimize =>
      (nth j (idealSolution r) 0 <= cell weightedMatrix i j
       <= nth j (negativeIdealSolution r) 0)%R
  end /\
  (exists best, (best < List.length options)%nat /\
                cell weightedMatrix best j = nth j (idealSolution r) 0%R) /\
  (exists worst, (worst < List.length options)%nat /\
                 cell weightedMatrix worst j = nth j (negativeIdealSolution r) 0%R).
Proof.
  intros Hr Hc Hi weightedMatrix.
  apply calculateScores_success_inv in Hr as [_ Hr]. cbv zeta in Hr. subst r.
  cbn [idealSolution negativeIdealSolution].
  fold (weightedMatrixOf options constraints). fold weightedMatrix.
  assert (Hlen : List.length weightedMatrix = List.length options)
    by apply weightedMatrixOf_length.
  rewrite <- Hlen in *.
  destruct (@ideal_nth weightedMatrix constraints j c Hc) as [-> ->].
  pose proof (@cell_in_column weightedMatrix i j Hi) as Hin.
  assert (Hne : column weightedMatrix j <> []).
  { intros Hnil. rewrite Hnil in Hin. contradiction. }
  pose proof (@Math_max_upper _ _ Hin). pose proof (@Math_min_lower _ _ Hin).
  pose proof (@in_column_cell _ _ _ (@Math_max_attained _ Hne)) as (hi & Hhi & Hhi').
  pose proof (@in_column_cell _ _ _ (@Math_min_attained _ Hne)) as (lo & Hlo & Hlo').
  destruct (c_direction c); (split; [lra|split]);
    solve [exists hi; now split | exists lo; now split].
Qed.

(** On the input over the reals: on y the weighted value of the first option
    lies between the worst, 0, and the best, 1/2. *)
Lemma ideal_solutions_bound_every_option_witness :
  (0 <= cell (weightedMatrixOf ExactScenario.alternatives ExactScenario.criteria) 0 1
   <= 1 / 2)%R.
Proof.
  destruct (@ideal_solutions_bound_every_option
              ExactScenario.alternatives ExactScenario.criteria ExactScenario.scoring
              0%nat 1%nat (ExactScenario.criterion "y" 50)
              exactScenario_scored eq_refl) as [Hbound _].
  - simpl. lia.
  - cbn [c_direction ExactScenario.criterion ExactScenario.scoring
         idealSolution negativeIdealSolution nth] in Hbound.
    exact Hbound.
Defined.

Section ExactDistances.
Local Open Scope R_scope.

Lemma sumSquares_zero_inv (l : list R) :
  fold_left (fun acc v => acc + v * v) l 0 = 0 -> forall x, In x l -> x = 0.
Proof.
  intros Hsum x Hx. apply sumSquares_bounds_entry in Hx. rewrite Hsum in Hx. nra.
Qed.

(** A row is at distance 0 from a point when it agrees with it entry by
    entry. *)
Lemma distanceTo_zero_iff (point row : list R) :
  distanceTo point row = 0 <->
  forall j, (j < List.length row)%nat -> nth j row 0 = nth j point 0.
Proof.
  unfold distanceTo, zero. cbn [sqrt add mul sub of_Z Exact.number].
  set (diffs := mapi (fun j x => x - nth j point 0) row).
  assert (Hdiffs : (forall d, In d diffs -> d = 0) <->
                   forall j, (j < List.length row)%nat -> nth j row 0 = nth j point 0).
  { split.
    - intros Hall j Hj. destruct (nth_error row j) as [x|] eqn:Hx;
        [|apply nth_error_None in Hx; lia].
      rewrite (nth_error_nth _ _ _ Hx).
      assert (x - nth j point 0 = 0); [|lra].
      apply Hall. apply mapi_In. now exists j, x.
    - intros Hall d Hd. apply mapi_In in Hd as (j & x & Hx & ->).
      rewrite <- (Hall j) by (apply nth_error_Some; congruence).
      rewrite (nth_error_nth _ _ _ Hx). lra. }
  rewrite <- Hdiffs. split.
  - intros Hsqrt. apply sumSquares_zero_inv.
    apply sqrt_eq_0; [apply sumSquares_nonneg; lra|exact Hsqrt].
  - intros Hall. rewrite (sumSquares_zero _ Hall). apply sqrt_0.
Qed.

Lemma closeness_one_iff (p n : R) :
  0 <= p -> 0 <= n -> (closeness p n = 1 <-> p = 0).
Proof.
  intros Hp Hn. rewrite closeness_exact.
  destruct (Req_dec_T (p + n) 0) as [Hz|Hne]; [split; intros; lra|].
  split.
  - intros Heq. apply (f_equal (fun q => q * (p + n))) in Heq.
    unfold Rdiv in Heq. rewrite Rmult_assoc, Rinv_l in Heq by exact Hne. lra.
  - intros ->. field. lra.
Qed.

Lemma closeness_zero_iff (p n : R) :
  0 <= p -> 0 <= n -> (closeness p n = 0 <-> n = 0 /\ p <> 0).
Proof.
  intros Hp Hn. rewrite closeness_exact.
  destruct (Req_dec_T (p + n) 0) as [Hz|Hne]; [split; [lra|intros [_ Hp0]; lra]|].
  split.
  - intros Heq. apply (f_equal (fun q => q * (p + n))) in Heq.
    unfold Rdiv in Heq. rewrite Rmult_assoc, Rinv_l in Heq by exact Hne.
    split; [lra|]. intros ->. lra.
  - intros [-> _]. unfold Rdiv. ring.
Qed.

Lemma row_cell (m : list (list R)) (i j : nat) (row : list R) :
  nth_error m i = Some row -> cell m i j = nth j row 0.
Proof. intros Hrow. unfold cell. now rewrite (nth_error_nth _ _ _ Hrow). Qed.
End ExactDistances.

(** X8: in exact arithmetic an option scores 1 exactly when its weighted
    values are those of the ideal solution on every constraint, and 0 exactly
    when they are those of the negative ideal on every constraint while
    differing from the ideal on some. *)
Theorem closeness_extremes
    (options : list (Option R)) (constraints : list (Constraint R))
    (r : ScoringResult R) (i : nat) (o : Option R) :
  calculateScores options constraints = Success r ->
  nth_error options i = Some o ->
  let atIdeal := forall j, (j < List.length constraints)%nat ->
    cell (weightedMatrixOf options constraints) i j = nth j (idealSolution r) 0%R in
  let atNegativeIdeal := forall j, (j < List.length constraints)%nat ->
    cell (weightedMatrixOf options constraints) i j
    = nth j (negativeIdealSolution r) 0%R in
  exists x, In x (rankings r) /\ r_option x = o /\
            (r_closenessScore x = 1%R <-> atIdeal) /\
            (r_closenessScore x = 0%R <-> atNegativeIdeal /\ ~ atIdeal).
Proof.
  intros Hr Ho atIdeal atNegativeIdeal. subst atIdeal atNegativeIdeal.
  destruct (@result_closeness R _ options constraints r i o Hr Ho)
    as (x & row & Hx & Hox & Hrow & Hcx).
  exists x. split; [exact Hx|]. split; [exact Hox|]. rewrite Hcx.
  pose proof (@weightedMatrixOf_row R _ options constraints i row Hrow) as Hlen.
  assert (Hcells : forall j, cell (weightedMatrixOf options constraints) i j
                             = nth j row 0%R)
    by (intros j; now apply row_cell).
  rewrite closeness_one_iff, closeness_zero_iff by apply distanceTo_nonneg.
  rewrite !distanceTo_zero_iff, Hlen.
  split; [|split; intros [Hn Hp]; (split; [|intros Hq; apply Hp])];
    try (split; intros Hall j Hj; specialize (Hall j Hj)); try intros j Hj;
    try specialize (Hn j Hj); try specialize (Hq j Hj); congruence.
Qed.

Lemma closeness_extremes_witness :
  exists x, In x (rankings ExactScenario.scoring) /\
            r_option x = ExactScenario.alternative "a" 3 1 /\
            (r_closenessScore x = 1%R <->
             forall j, (j < 2)%nat ->
               cell (weightedMatrixOf ExactScenario.alternatives ExactScenario.criteria)
                    0 j
               = nth j [2 / 5; 1 / 2]%R 0%R).
Proof.
  destruct (@closeness_extremes ExactScenario.alternatives ExactScenario.criteria
              ExactScenario.scoring 0%nat (ExactScenario.alternative "a" 3 1)
              exactScenario_scored eq_refl) as (x & Hx & Hox & Hone & _).
  exists x. split; [exact Hx|]. split; [exact Hox|exact Hone].
Defined.

Section ExactMonotonicity.
Local Open Scope R_scope.

Lemma cell_buildDecisionMatrix (options : list (Option R))
    (constraints : list (Constraint R)) (i j : nat) (o : Option R) (c : Constraint R) :
  nth_error options i = Some o -> nth_error constraints j = Some c ->
  cell (buildDecisionMatrix options constraints) i j = score_or_zero o (c_id c).
Proof.
  intros Ho Hc. unfold cell, buildDecisionMatrix.
  erewrite (nth_error_nth (map _ options)) by (rewrite nth_error_map, Ho; reflexivity).
  apply nth_error_nth. now rewrite nth_error_map, Hc.
Qed.

Lemma cell_normalizeMatrix (decisionMatrix : list (list R))
    (constraints : list (Constraint R)) (i j : nat) (c : Constraint R) :
  (i < List.length decisionMatrix)%nat -> nth_error constraints j = Some c ->
  cell (normalizeMatrix decisionMatrix constraints) i j
  = if Rlt_dec 0 (columnSumSquares decisionMatrix j)
    then cell decisionMatrix i j / R_sqrt.sqrt (columnSumSquares decisionMatrix j)
    else 0.
Proof.
  intros Hi Hc. rewrite cell_column, column_normalizeMatrix
    by (apply nth_error_Some; congruence).
  rewrite (cell_column decisionMatrix).
  apply nth_error_nth. rewrite nth_error_map.
  rewrite (nth_error_nth' _ 0) by (unfold column; now rewrite length_map).
  reflexivity.
Qed.

(** A higher raw score gives a weighted value at least as high, when the
    weight is not negative. *)
Lemma weighted_monotone (options : list (Option R)) (constraints : list (Constraint R))
    (i i' j : nat) (o o' : Option R) (c : Constraint R) :
  nth_error options i = Some o -> nth_error options i' = Some o' ->
  nth_error constraints j = Some c ->
  0 <= c_weight c ->
  score_or_zero o (c_id c) <= score_or_zero o' (c_id c) ->
  cell (weightedMatrixOf options constraints) i j
  <= cell (weightedMatrixOf options constraints) i' j.
Proof.
  intros Ho Ho' Hc Hw Hle. unfold weightedMatrixOf.
  assert (Hi : (i < List.length options)%nat) by (apply nth_error_Some; congruence).
  assert (Hi' : (i' < List.length options)%nat) by (apply nth_error_Some; congruence).
  rewrite !(@cell_applyWeights R _ _ constraints _ j c)
    by (rewrite ?normalizeMatrix_length, ?buildDecisionMatrix_length; assumption).
  rewrite !(@cell_normalizeMatrix _ constraints _ j c)
    by (rewrite ?buildDecisionMatrix_length; assumption).
  rewrite (@cell_buildDecisionMatrix _ _ _ _ _ _ Ho Hc),
    (@cell_buildDecisionMatrix _ _ _ _ _ _ Ho' Hc).
  cbn [mul div of_Z Exact.number].
  apply Rmult_le_compat_r; [lra|].
  destruct (Rlt_dec 0 _) as [Hpos|_]; [|lra].
  apply Rmult_le_compat_r; [|exact Hle].
  left. apply Rinv_0_lt_compat. now apply sqrt_lt_R0.
Qed.
End ExactMonotonicity.

(** An option that is not worse than any option on any constraint is at
    distance 0 from the ideal solution. *)
Lemma unbeaten_closeness
    (options : list (Option R)) (constraints : list (Constraint R))
    (r : ScoringResult R) (i : nat) (o : Option R) :
  calculateScores options constraints = Success r ->
  nth_error options i = Some o ->
  (forall c, In c constraints -> (0 <= c_weight c)%R) ->
  (forall b c, In b options -> In c constraints -> notWorse c o b) ->
  exists x, In x (rankings r) /\ r_option x = o /\ r_closenessScore x = 1%R.
Proof.
  intros Hr Ho Hweights Hbest.
  destruct (@result_closeness R _ options constraints r i o Hr Ho)
    as (x & row & Hx & Hox & Hrow & Hcx).
  exists x. split; [exact Hx|]. split; [exact Hox|]. rewrite Hcx.
  apply closeness_one_iff; try apply distanceTo_nonneg.
  apply distanceTo_zero_iff. intros j Hj.
  rewrite (@weightedMatrixOf_row R _ options constraints i row Hrow) in Hj.
  rewrite <- (@row_cell _ _ j _ Hrow).
  destruct (nth_error constraints j) as [c|] eqn:Hc;
    [|apply nth_error_None in Hc; lia].
  apply calculateScores_success_inv in Hr as [_ Hr]. cbv zeta in Hr. subst r.
  cbn [idealSolution]. fold (weightedMatrixOf options constraints).
  set (W := weightedMatrixOf options constraints) in *.
  assert (Hi : (i < List.length W)%nat)
    by (apply nth_error_Some; rewrite Hrow; discriminate).
  rewrite (proj1 (@ideal_nth W constraints j c Hc)).
  pose proof (@cell_in_column W i j Hi) as Hin.
  assert (Hne : column W j <> []) by (intros Hnil; rewrite Hnil in Hin; contradiction).
  assert (Hc' : In c constraints) by exact (nth_error_In _ _ Hc).
  destruct (c_direction c) eqn:Hdir.
  - pose proof (@Math_max_upper _ _ Hin).
    destruct (@in_column_cell _ _ _ (@Math_max_attained _ Hne)) as (b & Hb & Hattained).
    rewrite <- Hattained in *. apply Rle_antisym; [assumption|].
    unfold W in Hb. rewrite weightedMatrixOf_length in Hb.
    destruct (nth_error options b) as [ob|] eqn:Hob;
      [|apply nth_error_None in Hob; lia].
    apply (@weighted_monotone _ _ _ _ _ _ _ _ Hob Ho Hc (Hweights c Hc')).
    specialize (Hbest ob c (nth_error_In _ _ Hob) Hc'). unfold notWorse in Hbest.
    now rewrite Hdir in Hbest.
  - pose proof (@Math_min_lower _ _ Hin).
    destruct (@in_column_cell _ _ _ (@Math_min_attained _ Hne)) as (b & Hb & Hattained).
    rewrite <- Hattained in *. apply Rle_antisym; [|assumption].
    unfold W in Hb. rewrite weightedMatrixOf_length in Hb.
    destruct (nth_error options b) as [ob|] eqn:Hob;
      [|apply nth_error_None in Hob; lia].
    apply (@weighted_monotone _ _ _ _ _ _ _ _ Ho Hob Hc (Hweights c Hc')).
    specialize (Hbest ob c (nth_error_In _ _ Hob) Hc'). unfold notWorse in Hbest.
    now rewrite Hdir in Hbest.
Qed.

(** X9: an option that no option beats on any constraint scores 1.  In exact
    arithmetic and with no negative weight, an option whose raw score on every
    constraint is at least as good, by the constraint's direction, as that of
    every option has closeness score 1. *)
Theorem unbeaten_option_scores_one
    (options : list (Option R)) (constraints : list (Constraint R))
    (r : ScoringResult R) (i : nat) (o : Option R) :
  calculateScores options constraints = Success r ->
  nth_error options i = Some o ->
  (forall c, In c constraints -> (0 <= c_weight c)%R) ->
  (forall b c, In b options -> In c constraints -> notWorse c o b) ->
  exists x, In x (rankings r) /\ r_option x = o /\ r_closenessScore x = 1%R.
Proof. apply unbeaten_closeness. Qed.

Lemma unbeaten_option_scores_one_witness :
  exists (r : ScoringResult R) (x : OptionRanking R),
    calculateScores LeaderScenario.alternatives ExactScenario.criteria = Success r /\
    In x (rankings r) /\ r_option x = LeaderScenario.leader /\
    r_closenessScore x = 1%R.
Proof.
  destruct (@calculateScores_accepts R _ LeaderScenario.alternatives
              ExactScenario.criteria) as [r Hr].
  { split; [simpl; lia|]. split; [simpl; lia|]. split.
    - intros o c [<-|[<-|[]]] [<-|[<-|[]]]; eexists; split; reflexivity.
    - intros c _. reflexivity. }
  exists r.
  destruct (@unbeaten_option_scores_one LeaderScenario.alternatives
              ExactScenario.criteria r 0%nat LeaderScenario.leader Hr eq_refl)
    as (x & Hx & Hox & Hone).
  - intros c [<-|[<-|[]]]; cbn; lra.
  - intros b c [<-|[<-|[]]] [<-|[<-|[]]]; unfold notWorse, score_or_zero; cbn; lra.
  - exists x. split; [exact Hr|]. split; [exact Hx|]. split; [exact Hox|exact Hone].
Defined.

(* ================================================================== *)
(** ** The engine's tags with few options *)

Section RankingTags.
Context {num : Type} `{Number num}.

Lemma generateRankings_tags (options : list (Option num)) (closenessList : list num)
    (weightedMatrix : list (list num)) (constraints : list (Constraint num))
    (x : OptionRanking num) :
  In x (generateRankings options closenessList weightedMatrix constraints) ->
  exists i, (i < List.length options)%nat /\
            r_strengthAreas x = topsis_identifyStrengths i weightedMatrix constraints /\
            r_weaknessAreas x = topsis_identifyWeaknesses i weightedMatrix constraints.
Proof.
  intros Hx. apply mapi_In in Hx as (k & item & Hk & ->).
  apply nth_error_In in Hk. apply sort_In in Hk.
  apply indexedRankings_In in Hk as [Ho _].
  exists (ir_index item). split; [|now split].
  apply nth_error_Some. congruence.
Qed.
End RankingTags.

Section ExactTags.
Local Open Scope R_scope.

Lemma indexOf_from_found (v : R) (l : list R) (k : Z) :
  In v l -> (k <= indexOf_from v l k < k + Z.of_nat (List.length l))%Z.
Proof.
  revert k. induction l as [|x l IH]; intros k Hv; [contradiction|].
  cbn [indexOf_from eqb Exact.number List.length].
  destruct (Exact.Reqb x v) eqn:E; [lia|].
  destruct Hv as [->|Hv]; [apply Reqb_false in E; contradiction|].
  specialize (IH (k + 1)%Z Hv). lia.
Qed.

(** The percentile of a tag lies between [1/n] and 1, for [n] options. *)
Lemma tagPercentile_bounds (weightedMatrix : list (list R)) (i j : nat) :
  (i < List.length weightedMatrix)%nat ->
  1 / INR (List.length weightedMatrix) <= tagPercentile weightedMatrix i j <= 1.
Proof.
  intros Hi. unfold tagPercentile.
  set (sortedValues := sort _ (column weightedMatrix j)).
  assert (Hlen : List.length sortedValues = List.length weightedMatrix).
  { unfold sortedValues. rewrite sort_length. unfold column. apply length_map. }
  assert (Hin : In (cell weightedMatrix i j) sortedValues).
  { apply sort_In. now apply cell_in_column. }
  pose proof (@indexOf_from_found _ _ 0%Z Hin) as Hidx.
  fold (indexOf (cell weightedMatrix i j) sortedValues) in Hidx.
  rewrite Hlen in *. cbn [of_Z div Exact.number].
  set (n := List.length weightedMatrix) in *.
  set (idx := indexOf _ _) in *.
  assert (Hn : 0 < INR n) by (apply lt_0_INR; lia).
  rewrite <- INR_IZR_INZ.
  assert (Hlo : 1 <= IZR (idx + 1)) by (apply IZR_le; lia).
  assert (Hhi : IZR (idx + 1) <= INR n)
    by (rewrite INR_IZR_INZ; apply IZR_le; lia).
  unfold Rdiv. split.
  - apply Rmult_le_compat_r; [left; now apply Rinv_0_lt_compat|exact Hlo].
  - apply Rmult_le_reg_r with (r := INR n); [exact Hn|].
    rewrite Rmult_assoc, Rinv_l by lra. lra.
Qed.

Lemma low_percentile_needs_four (weightedMatrix : list (list R)) (i j : nat) :
  (i < List.length weightedMatrix)%nat ->
  (List.length weightedMatrix <= 3)%nat ->
  (tagPercentile weightedMatrix i j <=? lit 25 100)%js = false.
Proof.
  intros Hi Hn. pose proof (@tagPercentile_bounds weightedMatrix i j Hi) as [Hlo _].
  match goal with |- ?b = false => destruct b eqn:E end; [|reflexivity]. exfalso.
  cbn [leb Exact.number] in E. apply Rleb_true in E. unfold lit in E.
  cbn [of_Z div Exact.number] in E.
  assert (Hpos : 0 < INR (List.length weightedMatrix)) by (apply lt_0_INR; lia).
  assert (Hle : INR (List.length weightedMatrix) <= 3).
  { replace 3 with (INR 3) by (simpl; lra). now apply le_INR. }
  assert (1 / 3 <= 1 / INR (List.length weightedMatrix)).
  { unfold Rdiv. rewrite !Rmult_1_l. apply Rinv_le_contravar; assumption. }
  lra.
Qed.
End ExactTags.

(** X10: with two or three options the engine's tags are one-sided.  The
    percentile of an option is never below 1/n, so the 25 % threshold is out
    of reach: a strength area is always a constraint to maximize, and a
    weakness area always a constraint to minimize. *)
Theorem few_options_tags_one_sided
    (options : list (Option R)) (constraints : list (Constraint R))
    (r : ScoringResult R) (x : OptionRanking R) (name : string) :
  calculateScores options constraints = Success r ->
  (List.length options <= 3)%nat ->
  In x (rankings r) ->
  (In name (r_strengthAreas x) ->
   exists c, In c constraints /\ c_name c = name /\ c_direction c = maximize) /\
  (In name (r_weaknessAreas x) ->
   exists c, In c constraints /\ c_name c = name /\ c_direction c = minimize).
Proof.
  intros Hr Hfew Hx. apply calculateScores_success_inv in Hr as [_ Hr].
  cbv zeta in Hr. subst r. cbn [rankings] in Hx.
  fold (weightedMatrixOf options constraints) in Hx.
  apply generateRankings_tags in Hx as (i & Hi & -> & ->).
  assert (Hlow : forall j, (tagPercentile (weightedMatrixOf options constraints) i j
                            <=? lit 25 100)%js = false).
  { intros j. apply low_percentile_needs_four;
      rewrite weightedMatrixOf_length; assumption. }
  split; intros Hname.
  - apply topsis_identifyStrengths_In in Hname as (j & c & Hc & -> & Htag).
    exists c. split; [exact (nth_error_In _ _ Hc)|]. split; [reflexivity|].
    destruct (c_direction c); [reflexivity|].
    cbn [engineStrength] in Htag. rewrite Hlow in Htag. discriminate.
  - apply topsis_identifyWeaknesses_In in Hname as (j & c & Hc & -> & Htag).
    exists c. split; [exact (nth_error_In _ _ Hc)|]. split; [reflexivity|].
    destruct (c_direction c); [|reflexivity].
    cbn [engineWeakness] in Htag. rewrite Hlow in Htag. discriminate.
Qed.

Lemma few_options_tags_one_sided_witness :
  exists x, In x (rankings ExactScenario.scoring) /\
            exists c, In c ExactScenario.criteria /\ c_name c = "y"%string /\
                      c_direction c = maximize.
Proof.
  exists (nth 0 (rankings ExactScenario.scoring)
              {| r_option := ExactScenario.alternative "" 0 0; r_rank := 0;
                 r_closenessScore := 0%R; r_strengthAreas := [];
                 r_weaknessAreas := [] |}).
  split; [left; reflexivity|].
  apply (proj1 (@few_options_tags_one_sided
                  ExactScenario.alternatives ExactScenario.criteria
                  ExactScenario.scoring _ "y"%string
                  exactScenario_scored ltac:(simpl; lia) (or_introl eq_refl))).
  left. reflexivity.
Defined.

(* ================================================================== *)
(** * Further properties of the trade-off analyzer *)

(** ** From the scoring result to the analysis *)

Section Pipeline.
Context {num : Type} `{Number num}.

Lemma flat_map_all_nil {A B : Type} (f : A -> list B) (l : list A) :
  (forall x, In x l -> f x = []) -> flat_map f l = [].
Proof.
  induction l as [|x l IH]; intros Hall; [reflexivity|]. cbn [flat_map].
  rewrite (Hall x) by now left. apply IH. intros y Hy. apply Hall. now right.
Qed.

Lemma analyzer_errors_nil_iff (scoringResult : ScoringResult num)
    (options : list (Option num)) (constraints : list (Constraint num)) :
  errors (validateInputs scoringResult options constraints) = [] <->
  (2 <= List.length options)%nat /\ (1 <= List.length constraints)%nat /\
  forall o, In o options ->
    exists x, In x (rankings scoringResult) /\ opt_id (r_option x) = opt_id o.
Proof.
  split.
  - intros Herr. destruct (analyzer_validated_sizes _ _ _ Herr) as [Hos Hcs].
    split; [exact Hos|]. split; [exact Hcs|]. intros o Ho.
    destruct (validated_options_ranked _ _ _ o Herr Ho) as [x Hx].
    apply find_some in Hx as [Hx Hid]. apply String.eqb_eq in Hid. now exists x.
  - intros (Hos & Hcs & Hranked). unfold validateInputs. cbn [errors].
    replace (List.length options <? 2)%nat with false
      by (symmetry; apply Nat.ltb_ge; lia).
    replace (List.length constraints =? 0)%nat with false
      by (symmetry; apply Nat.eqb_neq; lia).
    replace (0 <? List.length options)%nat with true
      by (symmetry; apply Nat.ltb_lt; lia).
    cbn [app]. apply flat_map_all_nil. intros k Hk.
    apply (proj1 (In_set_of _ _)) in Hk. apply in_map_iff in Hk as (o & <- & Ho).
    destruct (Hranked o Ho) as (x & Hx & Hid).
    replace (set_has _ (opt_id o)) with true; [reflexivity|].
    symmetry. apply set_has_In. apply In_set_of. rewrite <- Hid.
    apply (in_map (fun r => opt_id (r_option r))). exact Hx.
Qed.

Lemma analyzeTradeOffs_accepts (scoringResult : ScoringResult num)
    (options : list (Option num)) (constraints : list (Constraint num)) :
  errors (validateInputs scoringResult options constraints) = [] ->
  analyzeTradeOffs scoringResult options constraints
  = Success
      {| optionAnalyses := generateOptionAnalyses scoringResult options constraints;
         pairwiseComparisons :=
           performPairwiseComparisons scoringResult options constraints;
         dominanceRelations := findDominantOptions options constraints scoringResult;
         recommendations :=
           generateRecommendations
             (generateOptionAnalyses scoringResult options constraints)
             (findDominantOptions options constraints scoringResult)
             scoringResult |}.
Proof. intros Herr. unfold analyzeTradeOffs. now rewrite Herr. Qed.

(** The analyzer's validation passes on what the engine returns. *)
Lemma scored_then_validated (options : list (Option num))
    (constraints : list (Constraint num)) (r : ScoringResult num) :
  calculateScores options constraints = Success r ->
  errors (validateInputs r options constraints) = [].
Proof.
  intros Hr. apply analyzer_errors_nil_iff.
  destruct (calculateScores_success_inv _ _ Hr) as [Herr Hshape].
  destruct (validated_sizes _ _ Herr) as [Hos Hcs].
  split; [exact Hos|]. split; [exact Hcs|]. intros o Ho.
  cbv zeta in Hshape. subst r. cbn [rankings].
  assert (Hin : In o (map (@r_option num)
                        (generateRankings options
                           (calculateClosenessScores
                              (fst (calculateDistances
                                      (weightedMatrixOf options constraints)
                                      (fst (calculateIdealSolutions
                                              (weightedMatrixOf options constraints)
                                              constraints))
                                      (snd (calculateIdealSolutions
                                              (weightedMatrixOf options constraints)
                                              constraints))))
                              (snd (calculateDistances
                                      (weightedMatrixOf options constraints)
                                      (fst (calculateIdealSolutions
                                              (weightedMatrixOf options constraints)
                                              constraints))
                                      (snd (calculateIdealSolutions
                                              (weightedMatrixOf options constraints)
                                              constraints)))))
                           (weightedMatrixOf options constraints) constraints))).
  { eapply Permutation_in; [symmetry; apply ranked_options|exact Ho]. }
  apply in_map_iff in Hin as (x & Hox & Hx). exists x. split; [exact Hx|].
  now rewrite Hox.
Qed.
End Pipeline.

(** X11: [analyzeTradeOffs] succeeds exactly when there are at least two
    options and one constraint and every option's identifier is that of some
    ranking of the scoring result.  Scores and weights are not looked at. *)
Theorem analyzeTradeOffs_succeeds_iff
    {num : Type} `{Number num}
    (scoringResult : ScoringResult num) (options : list (Option num))
    (constraints : list (Constraint num)) :
  (exists analysis,
     analyzeTradeOffs scoringResult options constraints = Success analysis) <->
  (2 <= List.length options)%nat /\ (1 <= List.length constraints)%nat /\
  forall o, In o options ->
    exists x, In x (rankings scoringResult) /\ opt_id (r_option x) = opt_id o.
Proof.
  rewrite <- analyzer_errors_nil_iff. split.
  - intros [analysis Ha]. now apply analyzeTradeOffs_success_inv in Ha as [Herr _].
  - intros Herr. eexists. now apply analyzeTradeOffs_accepts.
Qed.

(** X12: the two stages compose.  Whatever [calculateScores] returns for an
    input, [analyzeTradeOffs] accepts together with that input. *)
Theorem scoring_result_feeds_analyzer
    {num : Type} `{Number num}
    (options : list (Option num)) (constraints : list (Constraint num))
    (r : ScoringResult num) :
  calculateScores options constraints = Success r ->
  exists analysis, analyzeTradeOffs r options constraints = Success analysis.
Proof.
  intros Hr. eexists. apply analyzeTradeOffs_accepts. now apply scored_then_validated.
Qed.

Lemma scoring_result_feeds_analyzer_witness :
  exists (r : ScoringResult float) (analysis : TradeOffAnalysis float),
    calculateScores Scenario.suppliers Scenario.supplierCriteria = Success r /\
    analyzeTradeOffs r Scenario.suppliers Scenario.supplierCriteria = Success analysis.
Proof.
  eexists. 
  destruct (@scoring_result_feeds_analyzer float Float64.number
              Scenario.suppliers Scenario.supplierCriteria _ eq_refl)
    as [analysis Ha].
  exists analysis. split; [reflexivity|exact Ha].
Defined.

(** ** The best overall recommendation *)

Section BestOverall.
Context {num : Type} `{Number num}.

Lemma generateRankings_rank (options : list (Option num)) (closenessList : list num)
    (weightedMatrix : list (list num)) (constraints : list (Constraint num))
    (k : nat) (x : OptionRanking num) :
  nth_error (generateRankings options closenessList weightedMatrix constraints) k
  = Some x ->
  r_rank x = (Z.of_nat k + 1)%Z.
Proof.
  unfold generateRankings. rewrite mapi_nth_error.
  destruct (nth_error _ k); [|discriminate]. cbn [option_map]. now intros [= <-].
Qed.

Lemma generateRankings_length (options : list (Option num)) (closenessList : list num)
    (weightedMatrix : list (list num)) (constraints : list (Constraint num)) :
  List.length (generateRankings options closenessList weightedMatrix constraints)
  = List.length options.
Proof.
  unfold generateRankings, indexedRankings.
  now rewrite mapi_length, sort_length, mapi_length.
Qed.

(** Every analysis in the map was built from the ranking that [find] returns
    for its identifier. *)
Lemma analyses_from_rankings (scoringResult : ScoringResult num)
    (options : list (Option num)) (constraints : list (Constraint num))
    (k : string) (a : OptionAnalysis num) :
  In (k, a) (generateOptionAnalyses scoringResult options constraints) ->
  exists x o,
    In o options /\ oa_optionId a = opt_id o /\
    find (fun r => String.eqb (opt_id (r_option r)) (opt_id o))
         (rankings scoringResult) = Some x /\
    oa_rank a = r_rank x /\
    oa_strengths a = identifyStrengths o constraints scoringResult /\
    oa_weaknesses a = identifyWeaknesses o constraints scoringResult.
Proof.
  unfold generateOptionAnalyses.
  assert (Hgen : forall (l : list (Option num)) (m : JSMap.t (OptionAnalysis num)),
            (forall o, In o l -> In o options) ->
            In (k, a) (fold_left (analysisStep scoringResult constraints) l m) ->
            In (k, a) m \/
            exists x o,
              In o options /\ oa_optionId a = opt_id o /\
              find (fun r => String.eqb (opt_id (r_option r)) (opt_id o))
                   (rankings scoringResult) = Some x /\
              oa_rank a = r_rank x /\
              oa_strengths a = identifyStrengths o constraints scoringResult /\
              oa_weaknesses a = identifyWeaknesses o constraints scoringResult).
  { induction l as [|o l IH]; intros m Hsub Hin; [now left|].
    cbn [fold_left] in Hin.
    apply IH in Hin as [Hin|Hin]; [|now right|intros o' Ho'; apply Hsub; now right].
    unfold analysisStep in Hin.
    destruct (find _ (rankings scoringResult)) as [x|] eqn:Hfind; [|now left].
    apply In_set in Hin as [Heq|Hin]; [|now left].
    right. injection Heq as -> ->. exists x, o.
    split; [apply Hsub; now left|]. now repeat split. }
  intros Hin. apply Hgen in Hin as [[]|Hin]; [exact Hin|auto].
Qed.

(** An option found in the rankings has its analysis in the map. *)
Lemma analysis_present (scoringResult : ScoringResult num)
    (options : list (Option num)) (constraints : list (Constraint num))
    (o : Option num) (x : OptionRanking num) :
  In o options ->
  find (fun r => String.eqb (opt_id (r_option r)) (opt_id o))
       (rankings scoringResult) = Some x ->
  exists a, JSMap.get (generateOptionAnalyses scoringResult options constraints)
                      (opt_id o) = Some a /\
            oa_optionId a = opt_id o /\ oa_rank a = r_rank x /\
            oa_overallScore a
            = get_or_zero (closenessScores scoringResult) (opt_id o).
Proof.
  intros Ho Hfind. unfold generateOptionAnalyses.
  set (good := fun m : JSMap.t (OptionAnalysis num) =>
                 exists a, JSMap.get m (opt_id o) = Some a /\
                           oa_optionId a = opt_id o /\ oa_rank a = r_rank x /\
                           oa_overallScore a
                           = get_or_zero (closenessScores scoringResult) (opt_id o)).
  assert (Hkeep : forall o' m, good m ->
                    good (analysisStep scoringResult constraints m o')).
  { intros o' m (a & Hget & Hid & Hrank). unfold good, analysisStep.
    destruct (String.eqb (opt_id o') (opt_id o)) eqn:E.
    - apply String.eqb_eq in E. rewrite E, Hfind. eexists.
      split; [apply get_set_same|]. now split.
    - apply String.eqb_neq in E.
      destruct (find (fun r => String.eqb (opt_id (r_option r)) (opt_id o')) _);
        [|now exists a].
      exists a. rewrite get_set_other by exact E. now split. }
  assert (Hgen : forall (l : list (Option num)) (m : JSMap.t (OptionAnalysis num)),
            good m \/ In o l ->
            good (fold_left (analysisStep scoringResult constraints) l m)).
  { induction l as [|o' l IH]; intros m [Hm|Hin]; cbn [fold_left];
      try contradiction; try exact Hm.
    - apply IH. left. now apply Hkeep.
    - apply IH. destruct Hin as [->|Hin]; [left|now right].
      unfold good, analysisStep. rewrite Hfind. eexists.
      split; [apply get_set_same|]. now split. }
  apply Hgen. now right.
Qed.

Lemma least_rank_of_fold (l : list (OptionAnalysis num))
    (init : option (OptionAnalysis num)) :
  exists b,
    fold_left (fun best analysis =>
                 match best with
                 | None => Some analysis
                 | Some b => if (oa_rank analysis <? oa_rank b)%Z
                             then Some analysis else best
                 end) l init = b /\
    (init <> None \/ l <> [] -> b <> None) /\
    forall b', b = Some b' ->
      (forall a, In a l -> (oa_rank b' <= oa_rank a)%Z) /\
      (forall b0, init = Some b0 -> (oa_rank b' <= oa_rank b0)%Z).
Proof.
  revert init. induction l as [|x l IH]; intros init; cbn [fold_left].
  - exists init. split; [reflexivity|]. split; [intros [Hi|Hl]; congruence|].
    intros b' ->. split; [contradiction|]. intros b0 [= ->]. lia.
  - destruct (IH (match init with
                  | None => Some x
                  | Some b => if (oa_rank x <? oa_rank b)%Z then Some x else init
                  end)) as (b & Hfold & Hsome & Hleast).
    exists b. split; [exact Hfold|]. split.
    + intros _. apply Hsome. left. destruct init as [b0|]; [|discriminate].
      destruct (oa_rank x <? oa_rank b0)%Z; discriminate.
    + intros b' Hb'. destruct (Hleast b' Hb') as [Hl Hi]. clear Hleast.
      destruct init as [b0|].
      * destruct (oa_rank x <? oa_rank b0)%Z eqn:E.
        -- apply Z.ltb_lt in E. specialize (Hi x eq_refl).
           split; [intros a [<-|Ha]; [lia|now apply Hl]|].
           intros b1 [= <-]. lia.
        -- apply Z.ltb_ge in E. specialize (Hi b0 eq_refl).
           split; [intros a [<-|Ha]; [lia|now apply Hl]|].
           intros b1 [= <-]. lia.
      * specialize (Hi x eq_refl).
        split; [intros a [<-|Ha]; [lia|now apply Hl]|discriminate].
Qed.
End BestOverall.

(** The analysis that [findBestOverallOption] picks from the analyses of a
    scoring result is that of the option ranked first. *)
Lemma best_overall_first
    {num : Type} `{Number num}
    (options : list (Option num)) (constraints : list (Constraint num))
    (r : ScoringResult num) :
  calculateScores options constraints = Success r ->
  exists first rest b,
    rankings r = first :: rest /\ r_rank first = 1%Z /\
    In b (JSMap.values (generateOptionAnalyses r options constraints)) /\
    oa_rank b = 1%Z /\ oa_optionId b = opt_id (r_option first) /\
    findBestOverallOption (generateOptionAnalyses r options constraints)
    = Some {| rec_type := best_overall;
              rec_optionId := oa_optionId b;
              rec_reasoning :=
                ReasonBest (oa_rank b) (oa_overallScore b)
                           (List.length (oa_strengths b));
              rec_confidence :=
                calculateConfidence b (generateOptionAnalyses r options constraints) |}.
Proof.
  intros Hr.
  destruct (calculateScores_success_inv _ _ Hr) as [Herr Hshape].
  destruct (validated_sizes _ _ Herr) as [Hos _].
  assert (Hranks : forall k x, nth_error (rankings r) k = Some x ->
                               r_rank x = (Z.of_nat k + 1)%Z).
  { cbv zeta in Hshape. rewrite Hshape. cbn [rankings]. intros k x.
    apply generateRankings_rank. }
  assert (Hlen : List.length (rankings r) = List.length options).
  { cbv zeta in Hshape. rewrite Hshape. cbn [rankings]. apply generateRankings_length. }
  assert (Hperm : Permutation (map (@r_option num) (rankings r)) options).
  { cbv zeta in Hshape. rewrite Hshape. cbn [rankings]. apply ranked_options. }
  clear Hshape.
  destruct (rankings r) as [|first rest] eqn:Hrankings; [simpl in Hlen; lia|].
  exists first, rest.
  assert (Hfirst : r_rank first = 1%Z) by (apply (Hranks 0%nat); reflexivity).
  assert (Hin : In (r_option first) options).
  { eapply Permutation_in; [exact Hperm|]. now left. }
  destruct (@analysis_present num _ r options constraints (r_option first) first Hin)
    as (a1 & Hget1 & _ & Hrank1 & _).
  { rewrite Hrankings. cbn [find]. now rewrite String.eqb_refl. }
  set (m := generateOptionAnalyses r options constraints) in *.
  unfold findBestOverallOption.
  assert (Hin1 : In a1 (JSMap.values m)).
  { apply get_In in Hget1. apply (in_map snd) in Hget1. exact Hget1. }
  destruct (least_rank_of_fold (JSMap.values m) None) as (b & Hfold & Hsome & Hleast).
  rewrite Hfold. destruct b as [b|].
  2:{ exfalso. apply Hsome; [|reflexivity]. right. intros Hnil.
      rewrite Hnil in Hin1. contradiction. }
  destruct (Hleast b eq_refl) as [Hle _]. specialize (Hle a1 Hin1).
  apply best_of_fold in Hfold as [Hinit|Hb]; [discriminate|].
  exists b. split; [reflexivity|]. split; [exact Hfirst|]. split; [exact Hb|].
  apply in_map_iff in Hb as ([k b'] & Hsnd & Hb). cbn [snd] in Hsnd. subst b'.
  destruct (analyses_from_rankings _ _ _ _ _ Hb)
    as (x & o & _ & Hid & Hfind & Hrank & _).
  destruct (find_some _ _ Hfind) as [Hx Heqb]. apply String.eqb_eq in Heqb.
  apply In_nth_error in Hx as [pos Hpos]. rewrite Hrankings in Hpos.
  assert (Hpos' : r_rank x = (Z.of_nat pos + 1)%Z) by (apply Hranks; exact Hpos).
  assert (pos = 0)%nat by lia. subst pos. cbn [nth_error] in Hpos.
  injection Hpos as ->.
  split; [lia|]. split; [congruence|reflexivity].
Qed.

(** X13: the recommendations of an analysis of a scoring result begin with
    the best overall option, and that is the option ranked first. *)
Theorem best_overall_is_first_ranked
    {num : Type} `{Number num}
    (options : list (Option num)) (constraints : list (Constraint num))
    (r : ScoringResult num) (analysis : TradeOffAnalysis num) :
  calculateScores options constraints = Success r ->
  analyzeTradeOffs r options constraints = Success analysis ->
  exists first rest rec recs,
    rankings r = first :: rest /\ r_rank first = 1%Z /\
    recommendations analysis = rec :: recs /\
    rec_type rec = best_overall /\
    rec_optionId rec = opt_id (r_option first).
Proof.
  intros Hr Ha.
  apply analyzeTradeOffs_success_inv in Ha as [_ ->]. cbn [recommendations].
  destruct (best_overall_first _ _ Hr)
    as (first & rest & b & Hrankings & Hfirst & _ & _ & Hid & Hbest).
  unfold generateRecommendations. rewrite Hbest. cbn [option_to_list app].
  exists first, rest. eexists. eexists.
  split; [exact Hrankings|]. split; [exact Hfirst|]. split; [reflexivity|].
  split; [reflexivity|exact Hid].
Qed.

Lemma best_overall_is_first_ranked_witness :
  exists (r : ScoringResult float) (analysis : TradeOffAnalysis float)
         (rec : Recommendation float) (recs : list (Recommendation float)),
    calculateScores Scenario.suppliers Scenario.supplierCriteria = Success r /\
    analyzeTradeOffs r Scenario.suppliers Scenario.supplierCriteria = Success analysis /\
    recommendations analysis = rec :: recs /\
    rec_type rec = best_overall /\ rec_optionId rec = "supplier_c"%string.
Proof.
  eexists. eexists.
  destruct (@best_overall_is_first_ranked float Float64.number
              Scenario.suppliers Scenario.supplierCriteria _ _ eq_refl eq_refl)
    as (first & rest & rec & recs & Hrankings & _ & Hrecs & Htype & Hid).
  exists rec, recs. split; [reflexivity|]. split; [reflexivity|].
  split; [exact Hrecs|]. split; [exact Htype|].
  rewrite Hid. vm_compute in Hrankings. injection Hrankings as <- _. reflexivity.
Defined.

(** ** Pairwise comparisons *)

Section Pairwise.
Context {num : Type} `{Number num}.

Lemma performPairwiseComparisons_length (scoringResult : ScoringResult num)
    (options : list (Option num)) (constraints : list (Constraint num)) :
  (2 * List.length (performPairwiseComparisons scoringResult options constraints)
   = List.length options * (List.length options - 1))%nat.
Proof.
  unfold performPairwiseComparisons.
  induction options as [|a later IH]; [reflexivity|].
  cbn [performPairwiseComparisons_from List.length].
  rewrite length_app, length_map. nia.
Qed.

Lemma performPairwiseComparisons_In (scoringResult : ScoringResult num)
    (options : list (Option num)) (constraints : list (Constraint num))
    (p : PairwiseComparison num) :
  In p (performPairwiseComparisons scoringResult options constraints) <->
  exists i j a b,
    (i < j)%nat /\ nth_error options i = Some a /\ nth_error options j = Some b /\
    p = compareOptions a b constraints scoringResult.
Proof.
  unfold performPairwiseComparisons.
  induction options as [|a later IH]; cbn [performPairwiseComparisons_from].
  - split; [contradiction|]. intros (i & j & x & y & _ & Hi & _). now destruct i.
  - rewrite in_app_iff, in_map_iff, IH. split.
    + intros [(b & <- & Hb)|(i & j & x & y & Hij & Hi & Hj & ->)].
      * apply In_nth_error in Hb as [j Hj]. exists 0%nat, (S j), a, b.
        split; [lia|]. now repeat split.
      * exists (S i), (S j), x, y. split; [lia|]. now repeat split.
    + intros (i & j & x & y & Hij & Hi & Hj & ->).
      destruct j as [|j]; [lia|]. cbn [nth_error] in Hj. destruct i as [|i].
      * injection Hi as ->. left. exists y. split; [reflexivity|].
        exact (nth_error_In _ _ Hj).
      * right. exists i, j, x, y. split; [lia|]. now repeat split.
Qed.
End Pairwise.

(** X14: the pairwise comparisons are one comparison per pair of options, the
    earlier option of the input as option A: [n] options give [n (n - 1) / 2]
    comparisons, and none compares an option with itself or a later option
    with an earlier one. *)
Theorem one_comparison_per_pair
    {num : Type} `{Number num}
    (scoringResult : ScoringResult num) (options : list (Option num))
    (constraints : list (Constraint num)) :
  (2 * List.length (performPairwiseComparisons scoringResult options constraints)
   = List.length options * (List.length options - 1))%nat /\
  forall p,
    In p (performPairwiseComparisons scoringResult options constraints) <->
    exists i j a b,
      (i < j)%nat /\ nth_error options i = Some a /\ nth_error options j = Some b /\
      p = compareOptions a b constraints scoringResult.
Proof.
  split; [apply performPairwiseComparisons_length|].
  intros p. apply performPairwiseComparisons_In.
Qed.

Section ExactComparison.
Local Open Scope R_scope.

Lemma ratio_le (x m c : R) : 0 < m -> x <= c * m -> x / m <= c.
Proof.
  intros Hm Hx. apply Rmult_le_reg_r with (r := m); [exact Hm|].
  unfold Rdiv. rewrite Rmult_assoc, Rinv_l by lra. lra.
Qed.

Lemma ratio_gt (x m c : R) : 0 < m -> (c < x / m <-> c * m < x).
Proof.
  intros Hm. split; intros Hc.
  - apply Rmult_lt_compat_r with (r := m) in Hc; [|exact Hm].
    unfold Rdiv in Hc. rewrite Rmult_assoc, Rinv_l in Hc by lra. lra.
  - apply Rmult_lt_reg_r with (r := m); [exact Hm|].
    unfold Rdiv. rewrite Rmult_assoc, Rinv_l by lra. lra.
Qed.

Lemma difference_within_twice_max (a b : R) :
  Rabs (a - b) <= 2 * Rmax (Rabs a) (Rabs b) /\
  (0 <= a * b -> Rabs (a - b) <= 1 * Rmax (Rabs a) (Rabs b)).
Proof.
  unfold Rmax, Rabs.
  destruct (Rcase_abs (a - b)), (Rcase_abs a), (Rcase_abs b), (Rle_dec _ _);
    split; try lra; intros Hsign; nra.
Qed.

(** The record [compareOptions] computes for one constraint: low significance
    up to 15 %, medium up to 30 %, high above. *)
Lemma constraintDifference_exact (a b : Option R) (k : Constraint R) :
  let sa := score_or_zero a (c_id k) in
  let sb := score_or_zero b (c_id k) in
  let m := Rmax (Rabs sa) (Rabs sb) in
  let d := constraintDifference a b k in
  cd_scoreDifference d = sa - sb /\
  cd_percentageDifference d = (if Rlt_dec 0 m then Rabs (sa - sb) / m else 0) /\
  (cd_significance d <> low <-> 15 / 100 * m < Rabs (sa - sb)) /\
  (cd_significance d = high <-> 3 / 10 * m < Rabs (sa - sb)).
Proof.
  intros sa sb m d. subst d. unfold constraintDifference, zero, lit.
  cbn [cd_scoreDifference cd_percentageDifference cd_significance
       ltb sub abs div max2 of_Z Exact.number].
  fold sa sb. fold m. unfold Exact.Rltb.
  assert (Hm : 0 <= m).
  { unfold m. pose proof (Rabs_pos sa). pose proof (Rmax_l (Rabs sa) (Rabs sb)). lra. }
  pose proof (Rabs_pos (sa - sb)) as Hd.
  split; [reflexivity|]. destruct (Rlt_dec 0 m) as [Hpos|Hzero].
  - split; [reflexivity|].
    destruct (Rlt_dec (3 / 10) (Rabs (sa - sb) / m)) as [Hhigh|Hhigh].
    + apply (proj1 (@ratio_gt (Rabs (sa - sb)) m (3 / 10) Hpos)) in Hhigh.
      split; (split; [intros _; lra|intros _; congruence]).
    + destruct (Rlt_dec (15 / 100) (Rabs (sa - sb) / m)) as [Hmed|Hmed].
      * apply (proj1 (@ratio_gt (Rabs (sa - sb)) m (15 / 100) Hpos)) in Hmed.
        split; [split; [intros _; lra|congruence]|].
        split; [discriminate|]. intros Hc. exfalso. apply Hhigh.
        now apply (proj2 (@ratio_gt (Rabs (sa - sb)) m (3 / 10) Hpos)).
      * split; (split; [congruence|]); intros Hc; exfalso;
          [apply Hmed; now apply (proj2 (@ratio_gt (Rabs (sa - sb)) m (15 / 100) Hpos))
          |apply Hhigh; now apply (proj2 (@ratio_gt (Rabs (sa - sb)) m (3 / 10) Hpos))].
  - split; [reflexivity|].
    assert (m = 0) by lra.
    destruct (difference_within_twice_max sa sb) as [Hle _]. fold m in Hle.
    destruct (Rlt_dec (3 / 10) 0) as [Hc|_]; [lra|].
    destruct (Rlt_dec (15 / 100) 0) as [Hc|_]; [lra|].
    split; (split; [congruence|]); intros Hc; lra.
Qed.
End ExactComparison.

(** X15: what a pairwise comparison reports, in exact arithmetic.  A
    constraint is among the significant differences exactly when the two raw
    scores differ by more than 15 % of the larger of their magnitudes, a
    missing score counting as 0; the difference is high above 30 %.  Equal
    scores are never reported, and the percentage is at most 2, at most 1 when
    the scores have the same sign. *)
Theorem significant_differences_exceed_threshold
    (a b : Option R) (constraints : list (Constraint R))
    (scoringResult : ScoringResult R) (d : ConstraintDifference R) :
  In d (pc_significantDifferences (compareOptions a b constraints scoringResult)) <->
  exists k,
    In k constraints /\ d = constraintDifference a b k /\
    let sa := score_or_zero a (c_id k) in
    let sb := score_or_zero b (c_id k) in
    let larger := Rmax (Rabs sa) (Rabs sb) in
    (15 / 100 * larger < Rabs (sa - sb))%R /\
    sa <> sb /\
    cd_scoreDifference d = (sa - sb)%R /\
    cd_percentageDifference d = (Rabs (sa - sb) / larger)%R /\
    (cd_percentageDifference d <= 2)%R /\
    (0 <= sa * sb -> cd_percentageDifference d <= 1)%R /\
    (cd_significance d = high <-> 3 / 10 * larger < Rabs (sa - sb))%R.
Proof.
  unfold compareOptions. cbn [pc_significantDifferences].
  rewrite filter_In, in_map_iff. split.
  - intros [(k & <- & Hk) Hsig]. exists k. split; [exact Hk|]. split; [reflexivity|].
    cbv zeta.
    destruct (constraintDifference_exact a b k) as (Hdiff & Hpct & Hlow & Hhigh).
    cbv zeta in Hdiff, Hpct, Hlow, Hhigh.
    set (sa := score_or_zero a (c_id k)) in *.
    set (sb := score_or_zero b (c_id k)) in *.
    set (larger := Rmax (Rabs sa) (Rabs sb)) in *.
    assert (Hreal : (15 / 100 * larger < Rabs (sa - sb))%R).
    { apply Hlow. intros Hl. rewrite Hl in Hsig. discriminate. }
    assert (Hlarger : (0 <= larger)%R).
    { unfold larger. pose proof (Rabs_pos sa). pose proof (Rmax_l (Rabs sa) (Rabs sb)).
      lra. }
    destruct (difference_within_twice_max sa sb) as [Htwice Honce].
    fold larger in Htwice, Honce.
    assert (Hpos : (0 < larger)%R) by lra.
    destruct (Rlt_dec 0 larger) as [_|Hn]; [|contradiction].
    split; [exact Hreal|]. split.
    { intros Heq. rewrite Heq, Rminus_diag, Rabs_R0 in Hreal. lra. }
    split; [exact Hdiff|]. split; [exact Hpct|].
    rewrite Hpct. split; [now apply ratio_le|].
    split; [intros Hsign; apply ratio_le; auto|exact Hhigh].
  - intros (k & Hk & -> & Hreal & _). split; [now exists k|].
    destruct (constraintDifference_exact a b k) as (_ & _ & Hlow & _).
    cbv zeta in Hlow, Hreal. apply Hlow in Hreal.
    now destruct (cd_significance (constraintDifference a b k)).
Qed.

(** ** The dominance relations *)

Section PushFold.
Context {A : Type}.
Variables (key val : A -> string) (fire : A -> bool).

Lemma has_push_at (m : JSMap.t (list string)) (k x k' : string) :
  JSMap.has (push_at m k x) k' = JSMap.has m k'.
Proof.
  unfold push_at. destruct (JSMap.get m k) as [arr|] eqn:Hget; [|reflexivity].
  unfold JSMap.has. destruct (string_dec k k') as [<-|Hne].
  - now rewrite get_set_same, Hget.
  - now rewrite get_set_other.
Qed.

Lemma get_list_push_same (m : JSMap.t (list string)) (k x : string) :
  JSMap.has m k = true -> get_list (push_at m k x) k = get_list m k ++ [x].
Proof.
  unfold JSMap.has, get_list, push_at.
  destruct (JSMap.get m k) as [arr|]; [|discriminate]. intros _.
  now rewrite get_set_same.
Qed.

(** What a run of conditional pushes leaves under a key. *)
Lemma In_push_fold (events : list A) (m : JSMap.t (list string)) (k x : string) :
  (forall e, In e events -> JSMap.has m (key e) = true) ->
  In x (get_list
          (fold_left (fun m e => if fire e then push_at m (key e) (val e) else m)
                     events m) k) <->
  In x (get_list m k) \/
  exists e, In e events /\ fire e = true /\ key e = k /\ val e = x.
Proof.
  revert m. induction events as [|e events IH]; intros m Hkeys; cbn [fold_left].
  - split; [now left|]. intros [Hx|(e & [] & _)]. exact Hx.
  - rewrite IH.
    2:{ intros e' He'. destruct (fire e); [rewrite has_push_at|]; apply Hkeys;
          now right. }
    destruct (fire e) eqn:Hfire.
    + destruct (string_dec (key e) k) as [Hk|Hne].
      * rewrite <- Hk at 1. rewrite get_list_push_same by (apply Hkeys; now left).
        rewrite in_app_iff, Hk. cbn [In]. split.
        -- intros [[Hx|[<-|[]]]|(e' & He' & Hrest)].
           ++ now left.
           ++ right. exists e. split; [now left|]. now repeat split.
           ++ right. exists e'. split; [now right|exact Hrest].
        -- intros [Hx|(e' & [<-|He'] & Hf & Hk' & Hv)].
           ++ left. now left.
           ++ left. right. left. exact Hv.
           ++ right. exists e'. now repeat split.
      * rewrite get_list_push_other by exact Hne. split.
        -- intros [Hx|(e' & He' & Hrest)]; [now left|].
           right. exists e'. split; [now right|exact Hrest].
        -- intros [Hx|(e' & [<-|He'] & Hf & Hk' & Hv)];
             [now left|contradiction|].
           right. exists e'. now repeat split.
    + split.
      * intros [Hx|(e' & He' & Hrest)]; [now left|].
        right. exists e'. split; [now right|exact Hrest].
      * intros [Hx|(e' & [<-|He'] & Hf & Hk' & Hv)]; [now left|congruence|].
        right. exists e'. now repeat split.
Qed.
End PushFold.

Section DominanceContents.
Context {num : Type} `{Number num}.
Variable constraints : list (Constraint num).

Local Abbreviation pushDominated :=
  (fun m e => if recordsDominance constraints e
              then push_at m (dominatorId e) (dominatedId e) else m).
Local Abbreviation pushDominator :=
  (fun m e => if recordsDominance constraints e
              then push_at m (dominatedId e) (dominatorId e) else m).

Lemma inner_loop_flat (ia : nat * Option num) (js : list (nat * Option num))
    (st : JSMap.t (list string) * JSMap.t (list string)) :
  fold_left (dominanceStep constraints ia) js st
  = (fold_left pushDominated (map (pair ia) js) (fst st),
     fold_left pushDominator (map (pair ia) js) (snd st)).
Proof.
  revert st. induction js as [|jb js IH]; intros st; cbn [fold_left map].
  - now destruct st.
  - rewrite IH. unfold dominanceStep, recordsDominance, dominatorId, dominatedId.
    cbn [fst snd].
    destruct (fst ia =? fst jb)%nat; cbn [negb andb]; [reflexivity|].
    now destruct (dominates (snd ia) (snd jb) constraints).
Qed.

Lemma outer_loop_flat (is_ js : list (nat * Option num))
    (st : JSMap.t (list string) * JSMap.t (list string)) :
  fold_left (fun st ia => fold_left (dominanceStep constraints ia) js st) is_ st
  = (fold_left pushDominated (list_prod is_ js) (fst st),
     fold_left pushDominator (list_prod is_ js) (snd st)).
Proof.
  revert st. induction is_ as [|ia is_ IH]; intros st; cbn [fold_left list_prod].
  - now destruct st.
  - rewrite IH, inner_loop_flat. cbn [fst snd]. now rewrite !fold_left_app.
Qed.

Lemma has_initialRelations (options : list (Option num)) (o : Option num) :
  In o options -> JSMap.has (initialRelations options) (opt_id o) = true.
Proof.
  intros Ho. apply has_keys. unfold initialRelations.
  rewrite <- (fold_left_map (fun m kv => JSMap.set m (fst kv) (snd kv))
                            (fun option : Option num => (opt_id option, @nil string))).
  apply keys_fold_set. right. rewrite map_map. cbn [fst].
  now apply (in_map (@opt_id num)).
Qed.

Lemma In_pairs (options : list (Option num)) (ia : nat * Option num) :
  In ia (mapi pair options) <-> nth_error options (fst ia) = Some (snd ia).
Proof.
  rewrite mapi_In. split.
  - now intros (i & o & Hi & ->).
  - intros Hi. exists (fst ia), (snd ia). split; [exact Hi|now destruct ia].
Qed.

(** The contents of the two maps after the loops. *)
Lemma dominanceLoops_contents (options : list (Option num)) (k x : string) :
  (In x (get_list (fst (dominanceLoops options constraints)) k) <->
   exists a b, dominatesAmong options constraints a b /\ opt_id a = k /\ opt_id b = x) /\
  (In x (get_list (snd (dominanceLoops options constraints)) k) <->
   exists a b, dominatesAmong options constraints a b /\ opt_id b = k /\ opt_id a = x).
Proof.
  unfold dominanceLoops. rewrite outer_loop_flat. cbn [fst snd].
  assert (Hkeys : forall e, In e (list_prod (mapi pair options) (mapi pair options)) ->
            JSMap.has (initialRelations options) (dominatorId e) = true /\
            JSMap.has (initialRelations options) (dominatedId e) = true).
  { intros [ia jb] He. apply in_prod_iff in He as [Hia Hjb].
    apply In_pairs in Hia, Hjb.
    split; apply has_initialRelations; eapply nth_error_In; eassumption. }
  assert (Hevents : forall P : Option num -> Option num -> Prop,
            (exists e, In e (list_prod (mapi pair options) (mapi pair options)) /\
                       recordsDominance constraints e = true /\
                       P (snd (fst e)) (snd (snd e))) <->
            exists a b, dominatesAmong options constraints a b /\ P a b).
  { intros P. split.
    - intros ([[i a] [j b]] & He & Hfire & HP). apply in_prod_iff in He as [Hia Hjb].
      apply In_pairs in Hia, Hjb. cbn [fst snd] in *.
      unfold recordsDominance in Hfire. cbn [fst snd] in Hfire.
      apply andb_true_iff in Hfire as [Hne Hdom].
      apply negb_true_iff, Nat.eqb_neq in Hne.
      exists a, b. split; [|exact HP]. exists i, j. now repeat split.
    - intros (a & b & (i & j & Hne & Hi & Hj & Hdom) & HP).
      exists ((i, a), (j, b)). split.
      + apply in_prod_iff. split; apply In_pairs; assumption.
      + unfold recordsDominance. cbn [fst snd]. split; [|exact HP].
        apply andb_true_iff. split; [|exact Hdom].
        now apply negb_true_iff, Nat.eqb_neq. }
  split.
  - rewrite (In_push_fold (@dominatorId num) (@dominatedId num)
               (recordsDominance constraints))
      by (intros e He; now apply Hkeys).
    rewrite get_list_initialRelations. cbn [In].
    rewrite <- (Hevents (fun a b => opt_id a = k /\ opt_id b = x)).
    unfold dominatorId, dominatedId. tauto.
  - rewrite (In_push_fold (@dominatedId num) (@dominatorId num)
               (recordsDominance constraints))
      by (intros e He; now apply Hkeys).
    rewrite get_list_initialRelations. cbn [In].
    rewrite <- (Hevents (fun a b => opt_id b = k /\ opt_id a = x)).
    unfold dominatorId, dominatedId. tauto.
Qed.
End DominanceContents.

(** X16: what [findDominantOptions] returns.  The dominance matrix lists under
    an identifier the options that an option of that identifier dominates from
    another position of the input; an option is dominant when it dominates
    some option, dominated when some option dominates it, and the Pareto
    frontier is the options that are not dominated. *)
Theorem dominance_relations_characterised
    {num : Type} `{Number num}
    (options : list (Option num)) (constraints : list (Constraint num))
    (scoringResult : ScoringResult num) :
  let relations := findDominantOptions options constraints scoringResult in
  (forall idA idB,
     In idB (get_list (dominanceMatrix relations) idA) <->
     exists a b, dominatesAmong options constraints a b /\
                 opt_id a = idA /\ opt_id b = idB) /\
  (forall id,
     In id (dominantOptions relations) <->
     exists a b, dominatesAmong options constraints a b /\ opt_id a = id) /\
  (forall id,
     In id (dominatedOptions relations) <->
     exists a b, dominatesAmong options constraints a b /\ opt_id b = id) /\
  (forall id,
     In id (paretoFrontier relations) <->
     In id (map (@opt_id num) options) /\ ~ In id (dominatedOptions relations)).
Proof.
  cbv zeta. unfold findDominantOptions.
  pose proof (fun k x => proj1 (dominanceLoops_contents constraints options k x))
    as Hmatrix.
  pose proof (fun k x => proj2 (dominanceLoops_contents constraints options k x))
    as Hby.
  destruct (dominanceLoops options constraints) as [byDominator byDominated].
  cbn [fst snd] in Hmatrix, Hby.
  cbn [dominanceMatrix dominantOptions dominatedOptions paretoFrontier].
  assert (Hnonempty : forall l : list string,
            (0 <? List.length l)%nat = true <-> exists x, In x l).
  { intros [|x l]; cbn; split; try discriminate; try (intros [x []]);
      try reflexivity. intros _. exists x. now left. }
  assert (Hempty : forall l : list string,
            (List.length l =? 0)%nat = true <-> ~ exists x, In x l).
  { intros [|x l]; cbn; split; try discriminate; try reflexivity.
    - intros _ [x []].
    - intros Hno. exfalso. apply Hno. exists x. now left. }
  assert (Hmember : forall a b, dominatesAmong options constraints a b ->
                                In a options /\ In b options).
  { intros a b (i & j & _ & Hi & Hj & _).
    split; eapply nth_error_In; eassumption. }
  split; [exact Hmatrix|]. split; [|split].
  - intros id. rewrite in_map_iff. split.
    + intros (o & <- & Ho). apply filter_In in Ho as [_ Ho].
      apply Hnonempty in Ho as [x Hx]. apply Hmatrix in Hx as (a & b & Hdom & Ha & _).
      now exists a, b.
    + intros (a & b & Hdom & <-). exists a. split; [reflexivity|].
      apply filter_In. split; [apply (Hmember a b Hdom)|].
      apply Hnonempty. exists (opt_id b). apply Hmatrix. now exists a, b.
  - intros id. rewrite in_map_iff. split.
    + intros (o & <- & Ho). apply filter_In in Ho as [_ Ho].
      apply Hnonempty in Ho as [x Hx]. apply Hby in Hx as (a & b & Hdom & Hb & _).
      now exists a, b.
    + intros (a & b & Hdom & <-). exists b. split; [reflexivity|].
      apply filter_In. split; [apply (Hmember a b Hdom)|].
      apply Hnonempty. exists (opt_id a). apply Hby. now exists a, b.
  - intros id. rewrite !in_map_iff. split.
    + intros (o & <- & Ho). apply filter_In in Ho as [Ho Hnone].
      split; [now exists o|]. intros (o' & Hid & Ho').
      apply filter_In in Ho' as [_ Hsome]. rewrite Hid in Hsome.
      apply Hempty in Hnone. apply Hnone. now apply Hnonempty.
    + intros [(o & <- & Ho) Hnot]. exists o. split; [reflexivity|].
      apply filter_In. split; [exact Ho|]. apply Hempty. intros Hsome.
      apply Hnot. exists o. split; [reflexivity|]. apply filter_In.
      split; [exact Ho|]. now apply Hnonempty.
Qed.

(** ** What each recommendation stands for *)

Section RecommendationKinds.
Context {num : Type} `{Number num}.

Lemma analysesOf_kept (m : JSMap.t (OptionAnalysis num))
    (keep : OptionAnalysis num -> bool) (ids : list string) (a : OptionAnalysis num) :
  In a (analysesOf m keep ids) <->
  exists id, In id ids /\ JSMap.get m id = Some a /\ keep a = true.
Proof.
  unfold analysesOf. rewrite in_flat_map. split.
  - intros (id & Hid & Ha). exists id. split; [exact Hid|].
    destruct (JSMap.get m id) as [a'|]; [|contradiction].
    destruct (keep a') eqn:Hkeep; [|contradiction].
    destruct Ha as [->|[]]. now split.
  - intros (id & Hid & Hget & Hkeep). exists id. split; [exact Hid|].
    rewrite Hget, Hkeep. now left.
Qed.

Lemma findBestOverallOption_least (m : JSMap.t (OptionAnalysis num))
    (rec : Recommendation num) :
  wellKeyed m -> findBestOverallOption m = Some rec ->
  rec_type rec = best_overall /\
  exists a, JSMap.get m (rec_optionId rec) = Some a /\
            forall a', In a' (JSMap.values m) -> (oa_rank a <= oa_rank a')%Z.
Proof.
  intros Hm. unfold findBestOverallOption.
  destruct (least_rank_of_fold (JSMap.values m) None) as (b & Hfold & _ & Hleast).
  rewrite Hfold. destruct b as [b|]; [|discriminate]. intros [= <-].
  split; [reflexivity|]. exists b. cbn [rec_optionId].
  apply best_of_fold in Hfold as [Hinit|Hb]; [discriminate|].
  split; [now apply wellKeyed_get|]. apply (Hleast b eq_refl).
Qed.

Lemma findCompromiseOption_kind (m : JSMap.t (OptionAnalysis num))
    (dominanceRelations : DominanceAnalysis) (rec : Recommendation num) :
  wellKeyed m -> findCompromiseOption m dominanceRelations = Some rec ->
  rec_type rec = compromise /\
  In (rec_optionId rec) (paretoFrontier dominanceRelations) /\
  exists a, JSMap.get m (rec_optionId rec) = Some a /\ (1 < oa_rank a)%Z.
Proof.
  intros [Hnd Hkeys]. unfold findCompromiseOption.
  destruct (sort _ _) as [|a rest] eqn:Esort; [discriminate|].
  intros [= <-]. cbn [rec_type rec_optionId].
  assert (Hin : In a (a :: rest)) by now left.
  rewrite <- Esort in Hin. apply sort_In in Hin.
  apply analysesOf_kept in Hin as (id & Hid & Hget & Hkeep).
  rewrite (Hkeys id a (get_In _ _ Hget)).
  split; [reflexivity|]. split; [exact Hid|]. exists a.
  split; [exact Hget|]. now apply Z.ltb_lt.
Qed.

Lemma findOptionToAvoid_kind (m : JSMap.t (OptionAnalysis num))
    (dominanceRelations : DominanceAnalysis) (rec : Recommendation num) :
  wellKeyed m -> findOptionToAvoid m dominanceRelations = Some rec ->
  rec_type rec = avoid /\
  In (rec_optionId rec) (dominatedOptions dominanceRelations) /\
  exists a, JSMap.get m (rec_optionId rec) = Some a /\
            (2 <= List.length (oa_weaknesses a))%nat.
Proof.
  intros [Hnd Hkeys]. unfold findOptionToAvoid.
  destruct (sort _ _) as [|a rest] eqn:Esort; [discriminate|].
  intros [= <-]. cbn [rec_type rec_optionId].
  assert (Hin : In a (a :: rest)) by now left.
  rewrite <- Esort in Hin. apply sort_In in Hin.
  apply analysesOf_kept in Hin as (id & Hid & Hget & Hkeep).
  rewrite (Hkeys id a (get_In _ _ Hget)).
  split; [reflexivity|]. split; [exact Hid|]. exists a.
  split; [exact Hget|]. now apply Nat.leb_le.
Qed.
End RecommendationKinds.

(** X17: an analysis gives at most three recommendations, no two of one type
    and none of type [best_for_constraint].  The best overall option has the
    least rank of all analyses; the compromise is on the Pareto frontier and
    not ranked first; the option to avoid is dominated and has at least two
    weaknesses. *)
Theorem recommendation_kinds
    {num : Type} `{Number num}
    (scoringResult : ScoringResult num) (options : list (Option num))
    (constraints : list (Constraint num)) (analysis : TradeOffAnalysis num) :
  analyzeTradeOffs scoringResult options constraints = Success analysis ->
  (List.length (recommendations analysis) <= 3)%nat /\
  NoDup (map (@rec_type num) (recommendations analysis)) /\
  forall rec, In rec (recommendations analysis) ->
    exists a, JSMap.get (optionAnalyses analysis) (rec_optionId rec) = Some a /\
      match rec_type rec with
      | best_overall =>
          forall a', In a' (JSMap.values (optionAnalyses analysis)) ->
                     (oa_rank a <= oa_rank a')%Z
      | compromise =>
          In (rec_optionId rec) (paretoFrontier (dominanceRelations analysis)) /\
          (1 < oa_rank a)%Z
      | avoid =>
          In (rec_optionId rec) (dominatedOptions (dominanceRelations analysis)) /\
          (2 <= List.length (oa_weaknesses a))%nat
      | best_for_constraint => False
      end.
Proof.
  intros Ha. apply analyzeTradeOffs_success_inv in Ha as [_ ->].
  cbn [recommendations optionAnalyses dominanceRelations].
  pose proof (wellKeyed_generateOptionAnalyses scoringResult options constraints)
    as Hkeyed.
  set (m := generateOptionAnalyses scoringResult options constraints) in *.
  set (d := findDominantOptions options constraints scoringResult).
  unfold generateRecommendations.
  pose proof (@findBestOverallOption_least num _ m) as Hbest.
  pose proof (@findCompromiseOption_kind num _ m d) as Hcompromise.
  pose proof (@findOptionToAvoid_kind num _ m d) as Havoid.
  destruct (findBestOverallOption m) as [rb|];
    [specialize (Hbest rb Hkeyed eq_refl) as (Htb & ab & Hgb & Hleast)|clear Hbest];
    (destruct (findCompromiseOption m d) as [rc|];
     [specialize (Hcompromise rc Hkeyed eq_refl) as (Htc & Hfc & ac & Hgc & Hrc)
     |clear Hcompromise]);
    (destruct (findOptionToAvoid m d) as [ra|];
     [specialize (Havoid ra Hkeyed eq_refl) as (Hta & Hda & aa & Hga & Hwa)
     |clear Havoid]);
    cbn [option_to_list app List.length map];
    (split; [lia|]);
    (split;
     [rewrite ?Htb, ?Htc, ?Hta; repeat constructor; cbn [In]; intuition discriminate|]);
    intros rec Hrec; cbn [In] in Hrec;
    repeat (destruct Hrec as [<-|Hrec]);
    try contradiction;
    try (exists ab; rewrite Htb; now split);
    try (exists ac; rewrite Htc; now split);
    try (exists aa; rewrite Hta; now split).
Qed.

Lemma recommendation_kinds_witness :
  exists (r : ScoringResult float) (analysis : TradeOffAnalysis float),
    calculateScores Scenario.suppliers Scenario.supplierCriteria = Success r /\
    analyzeTradeOffs r Scenario.suppliers Scenario.supplierCriteria = Success analysis /\
    (List.length (recommendations analysis) <= 3)%nat /\
    NoDup (map (@rec_type float) (recommendations analysis)).
Proof.
  eexists. eexists. split; [vm_compute; reflexivity|].
  match goal with
  | |- analyzeTradeOffs ?r _ _ = _ /\ _ => set (scoringResult := r)
  end.
  split; [vm_compute; reflexivity|].
  match goal with
  | |- (List.length (recommendations ?a) <= 3)%nat /\ _ =>
      assert (Ha : analyzeTradeOffs scoringResult Scenario.suppliers
                     Scenario.supplierCriteria = Success a)
        by (vm_compute; reflexivity);
      destruct (@recommendation_kinds float Float64.number scoringResult
                  Scenario.suppliers Scenario.supplierCriteria a Ha)
        as (Hlen & Hnd & _)
  end.
  split; [exact Hlen|exact Hnd].
Defined.

(** X18: [dominates] is a strict partial order, in exact arithmetic.  It holds
    exactly when the first option is not worse on any constraint and strictly
    better on some, a missing score counting as 0; no option dominates itself,
    two options never dominate each other, and dominance is transitive. *)
Theorem dominance_is_strict_order
    (constraints : list (Constraint R)) (a b c : Option R) :
  (dominates a b constraints = true <->
   (forall k, In k constraints -> notWorse k a b) /\
   (exists k, In k constraints /\ strictlyBetter k a b)) /\
  dominates a a constraints = false /\
  (dominates a b constraints = true -> dominates b a constraints = false) /\
  (dominates a b constraints = true -> dominates b c constraints = true ->
   dominates a c constraints = true).
Proof.
  split; [apply dominates_spec|]. split; [apply dominates_irreflexive|].
  split; [|apply dominates_transitive].
  intros Hab. destruct (dominates b a constraints) eqn:Hba; [|reflexivity].
  pose proof (dominates_transitive _ _ _ _ Hab Hba) as Haa.
  now rewrite dominates_irreflexive in Haa.
Qed.

Lemma dominance_is_strict_order_witness :
  dominates (ExactScenario.alternative "b" 3 0) LeaderScenario.leader
            ExactScenario.criteria = false.
Proof.
  apply (proj1 (proj2 (proj2 (@dominance_is_strict_order ExactScenario.criteria
                                LeaderScenario.leader
                                (ExactScenario.alternative "b" 3 0)
                                LeaderScenario.leader)))).
  apply dominates_spec. split.
  - intros k [<-|[<-|[]]]; unfold notWorse, score_or_zero; cbn; lra.
  - exists (ExactScenario.criterion "x" 50). split; [now left|].
    unfold strictlyBetter, score_or_zero; cbn; lra.
Defined.

(** ** Exact arithmetic: the range of a confidence *)

Section ExactConfidenceRange.
Local Open Scope R_scope.

Lemma specConfidence_lower (N : nat) (rank : Z) (s w : nat) :
  (1 <= N)%nat -> (1 <= rank <= Z.of_nat N)%Z ->
  1 / (2 * INR N) <= specConfidence N rank s w.
Proof.
  intros HN Hrank. unfold specConfidence. cbv zeta.
  assert (Hn : 1 <= INR N) by (replace 1 with (INR 1) by reflexivity; now apply le_INR).
  assert (Hr : 1 <= IZR rank <= INR N).
  { rewrite INR_IZR_INZ. split; apply IZR_le; lia. }
  assert (Hs : 0 <= Rmin (INR s / 3) 1).
  { apply Rmin_glb; [|lra]. pose proof (pos_INR s). lra. }
  pose proof (Rmax_l 0 (1 - INR w / 3)) as Hw.
  assert (Hinv : 0 < / INR N) by (apply Rinv_0_lt_compat; lra).
  assert (Hrankscore : 1 / INR N <= (INR N - IZR rank + 1) / INR N).
  { unfold Rdiv. apply Rmult_le_compat_r; lra. }
  assert (Hhalf : 1 / (2 * INR N) = 5 / 10 * (1 / INR N)) by (field; lra).
  assert (Hsmall : 1 / INR N <= 1).
  { apply ratio_le; lra. }
  apply Rmin_glb; rewrite Hhalf; lra.
Qed.

Lemma specConfidence_first (N : nat) (s w : nat) :
  (1 <= N)%nat -> 1 / 2 <= specConfidence N 1 s w.
Proof.
  intros HN. unfold specConfidence. cbv zeta.
  assert (Hn : 1 <= INR N) by (replace 1 with (INR 1) by reflexivity; now apply le_INR).
  assert (Hs : 0 <= Rmin (INR s / 3) 1).
  { apply Rmin_glb; [|lra]. pose proof (pos_INR s). lra. }
  pose proof (Rmax_l 0 (1 - INR w / 3)) as Hw.
  replace ((INR N - 1 + 1) / INR N) with 1 by (field; lra).
  apply Rmin_glb; lra.
Qed.
End ExactConfidenceRange.

(** X19: the range of a confidence, in exact arithmetic, when a scoring
    result is analyzed with the input it came from and the option identifiers
    are distinct.  With N options every recommendation has a confidence
    between 1/(2N) and 0.95, and the best overall recommendation at least
    0.5. *)
Theorem confidence_range
    (options : list (Option R)) (constraints : list (Constraint R))
    (r : ScoringResult R) (analysis : TradeOffAnalysis R) (rec : Recommendation R) :
  calculateScores options constraints = Success r ->
  analyzeTradeOffs r options constraints = Success analysis ->
  NoDup (map (@opt_id R) options) ->
  In rec (recommendations analysis) ->
  (1 / (2 * INR (List.length options)) <= rec_confidence rec <= 95 / 100)%R /\
  (rec_type rec = best_overall -> 1 / 2 <= rec_confidence rec)%R.
Proof.
  intros Hr Ha Hnd Hrec.
  apply analyzeTradeOffs_success_inv in Ha as [Hvalid ->]. cbn [recommendations] in Hrec.
  pose proof (wellKeyed_generateOptionAnalyses r options constraints) as Hkeyed.
  pose proof (size_generateOptionAnalyses r options constraints Hnd Hvalid) as Hsize.
  destruct (analyzer_validated_sizes _ _ _ Hvalid) as [Hos _].
  set (m := generateOptionAnalyses r options constraints) in *.
  split.
  - destruct (@generateRecommendations_drawn R _ m _ r rec Hkeyed Hrec)
      as (a & Hget & _ & ->).
    rewrite calculateConfidence_spec, Hsize. split; [|apply specConfidence_capped].
    apply specConfidence_lower; [lia|].
    apply get_In in Hget.
    destruct (analyses_from_rankings _ _ _ _ _ Hget) as (x & o & _ & _ & Hfind & -> & _).
    apply find_some in Hfind as [Hx _]. apply In_nth_error in Hx as [pos Hpos].
    assert (Hlt : (pos < List.length (rankings r))%nat)
      by (apply nth_error_Some; congruence).
    destruct (calculateScores_success_inv _ _ Hr) as [_ Hshape].
    cbv zeta in Hshape. rewrite Hshape in Hpos, Hlt. cbn [rankings] in Hpos, Hlt.
    rewrite generateRankings_length in Hlt.
    apply generateRankings_rank in Hpos. lia.
  - intros Htype.
    destruct (best_overall_first _ _ Hr)
      as (first & rest & b & _ & _ & _ & Hrank & _ & Hbest).
    fold m in Hbest. unfold generateRecommendations in Hrec. rewrite Hbest in Hrec.
    cbn [option_to_list app] in Hrec. destruct Hrec as [<-|Hrec].
    + cbn [rec_confidence]. rewrite calculateConfidence_spec, Hsize, Hrank.
      apply specConfidence_first. lia.
    + exfalso. apply in_app_or in Hrec as [Hrec|Hrec].
      * destruct (findCompromiseOption m _) as [rc|] eqn:E; [|contradiction].
        destruct Hrec as [<-|[]].
        apply findCompromiseOption_kind in E as [Hkind _]; [congruence|exact Hkeyed].
      * destruct (findOptionToAvoid m _) as [ra|] eqn:E; [|contradiction].
        destruct Hrec as [<-|[]].
        apply findOptionToAvoid_kind in E as [Hkind _]; [congruence|exact Hkeyed].
Qed.

Lemma confidence_range_witness :
  exists analysis : TradeOffAnalysis R,
    analyzeTradeOffs ExactScenario.scoring ExactScenario.alternatives
                     ExactScenario.criteria = Success analysis /\
    forall rec, In rec (recommendations analysis) ->
      (1 / (2 * INR 2) <= rec_confidence rec <= 95 / 100)%R.
Proof.
  eexists. split; [reflexivity|]. intros rec Hrec.
  apply (@confidence_range ExactScenario.alternatives ExactScenario.criteria
           ExactScenario.scoring _ rec exactScenario_scored eq_refl
           exactScenario_distinct_ids Hrec).
Defined.

(** ** The analyses and the rankings *)

Section AnalysesAndRankings.
Context {num : Type} `{Number num}.

Lemma find_by_unique_key {A : Type} (key : A -> string) (l : list A) (x : A) :
  NoDup (map key l) -> In x l ->
  find (fun y => String.eqb (key y) (key x)) l = Some x.
Proof.
  induction l as [|y l IH]; intros Hnd Hx; [contradiction|].
  cbn [map] in Hnd. inversion Hnd as [|? ? Hy Hnd']; subst. cbn [find].
  destruct Hx as [->|Hx]; [now rewrite String.eqb_refl|].
  destruct (String.eqb (key y) (key x)) eqn:E; [|now apply IH].
  apply String.eqb_eq in E. exfalso. apply Hy. rewrite E. now apply in_map.
Qed.

Lemma ranked_ids_distinct (options : list (Option num))
    (constraints : list (Constraint num)) (r : ScoringResult num) :
  calculateScores options constraints = Success r ->
  NoDup (map (@opt_id num) options) ->
  NoDup (map (fun x => opt_id (r_option x)) (rankings r)).
Proof.
  intros Hr Hnd. apply calculateScores_success_inv in Hr as [_ Hr].
  cbv zeta in Hr. subst r. cbn [rankings].
  rewrite <- (map_map (@r_option num) (@opt_id num)).
  eapply Permutation_NoDup; [|exact Hnd].
  symmetry. apply Permutation_map, ranked_options.
Qed.
End AnalysesAndRankings.

(** X20: the analyses agree with the rankings.  When a scoring result is
    analyzed with the input it came from and the option identifiers are
    distinct, there is one analysis per option, filed under the option's
    identifier, with the rank and the closeness score of the option's
    ranking. *)
Theorem analysis_agrees_with_ranking
    {num : Type} `{Number num}
    (options : list (Option num)) (constraints : list (Constraint num))
    (r : ScoringResult num) (analysis : TradeOffAnalysis num) :
  calculateScores options constraints = Success r ->
  analyzeTradeOffs r options constraints = Success analysis ->
  NoDup (map (@opt_id num) options) ->
  JSMap.size (optionAnalyses analysis) = List.length options /\
  forall x, In x (rankings r) ->
    exists a, JSMap.get (optionAnalyses analysis) (opt_id (r_option x)) = Some a /\
              oa_optionId a = opt_id (r_option x) /\
              oa_rank a = r_rank x /\
              oa_overallScore a = r_closenessScore x.
Proof.
  intros Hr Ha Hnd. apply analyzeTradeOffs_success_inv in Ha as [Hvalid ->].
  cbn [optionAnalyses]. split; [now apply size_generateOptionAnalyses|].
  intros x Hx.
  assert (Hin : In (r_option x) options).
  { destruct (calculateScores_success_inv _ _ Hr) as [_ Hshape].
    cbv zeta in Hshape. rewrite Hshape in Hx. cbn [rankings] in Hx.
    apply generateRankings_In in Hx as (i & Hi & _).
    exact (nth_error_In _ _ Hi). }
  destruct (@analysis_present num _ r options constraints (r_option x) x Hin)
    as (a & Hget & Hid & Hrank & Hscore).
  { apply (find_by_unique_key (fun y => opt_id (r_option y)));
      [now apply (ranked_ids_distinct _ _ Hr)|exact Hx]. }
  exists a. split; [exact Hget|]. split; [exact Hid|]. split; [exact Hrank|].
  rewrite Hscore. unfold get_or_zero.
  now rewrite (closeness_map_get _ _ _ Hr Hnd Hx).
Qed.

Lemma analysis_agrees_with_ranking_witness :
  exists (r : ScoringResult float) (analysis : TradeOffAnalysis float),
    calculateScores Scenario.suppliers Scenario.supplierCriteria = Success r /\
    analyzeTradeOffs r Scenario.suppliers Scenario.supplierCriteria = Success analysis /\
    JSMap.size (optionAnalyses analysis) = 3%nat.
Proof.
  eexists. eexists. split; [vm_compute; reflexivity|].
  match goal with
  | |- analyzeTradeOffs ?r _ _ = _ /\ _ => set (scoringResult := r)
  end.
  split; [vm_compute; reflexivity|].
  match goal with
  | |- JSMap.size (optionAnalyses ?a) = _ =>
      assert (Ha : analyzeTradeOffs scoringResult Scenario.suppliers
                     Scenario.supplierCriteria = Success a)
        by (vm_compute; reflexivity);
      assert (Hr : calculateScores Scenario.suppliers Scenario.supplierCriteria
                   = Success scoringResult)
        by (vm_compute; reflexivity);
      apply (@analysis_agrees_with_ranking float Float64.number
               Scenario.suppliers Scenario.supplierCriteria scoringResult a Hr Ha)
  end.
  repeat constructor; cbn; intuition discriminate.
Defined.

(** ** Exact arithmetic: the analyzer's strengths and weaknesses *)

Section ExactPercentile.
Local Open Scope R_scope.

Lemma percentile_count_bounds (value : R) (l : list R) (count : R) :
  let step := fun count v =>
                (if (v <? value)%js then count + of_Z 1
                 else if (v === value)%js then count + lit 5 10 else count)%js in
  count <= fold_left step l count <= count + INR (List.length l).
Proof.
  cbv zeta. revert count. induction l as [|v l IH]; intros count.
  - cbn [fold_left List.length INR]. lra.
  - cbn [fold_left List.length]. rewrite S_INR.
    match goal with
    | |- _ <= fold_left _ _ ?c <= _ => specialize (IH c); set (next := c) in *
    end.
    assert (Hnext : count <= next <= count + 1).
    { subst next. unfold lit. cbn [ltb eqb add div of_Z Exact.number].
      destruct (Exact.Rltb v value); [lra|].
      destruct (Exact.Reqb v value); lra. }
    lra.
Qed.

Lemma calculatePercentileRank_bounds (value : R) (sortedValues : list R) :
  0 <= calculatePercentileRank value sortedValues <= 1.
Proof.
  unfold calculatePercentileRank, zero.
  destruct sortedValues as [|x [|y l]].
  - cbn [of_Z Exact.number]. lra.
  - cbn [eqb of_Z Exact.number]. destruct (Exact.Reqb x value); lra.
  - set (values := x :: y :: l).
    pose proof (percentile_count_bounds value values 0) as Hcount.
    cbv zeta in Hcount. cbn [of_Z div Exact.number] in *.
    rewrite <- INR_IZR_INZ.
    assert (Hn : 0 < INR (List.length values)) by (apply lt_0_INR; simpl; lia).
    split.
    + apply Rmult_le_pos; [lra|]. left. now apply Rinv_0_lt_compat.
    + apply ratio_le; lra.
Qed.
End ExactPercentile.

Section SortedByKey.
Context {A : Type}.
Variable cmp : A -> A -> R.
Variable before : A -> A -> Prop.
Hypothesis before_trans : forall x y z, before x y -> before y z -> before x z.
Hypothesis swap_after : forall x y, (cmp x y >? of_Z 0)%js = true -> before y x.
Hypothesis keep_before : forall x y, (cmp x y >? of_Z 0)%js = false -> before x y.

Lemma sort_insert_sorted (x : A) (l : list A) :
  StronglySorted before l -> StronglySorted before (sort_insert cmp x l).
Proof.
  induction l as [|y l IH]; intros Hl; cbn [sort_insert].
  - repeat constructor.
  - inversion Hl as [|? ? Hl' Hy]; subst.
    destruct (cmp x y >? of_Z 0)%js eqn:E.
    + constructor; [now apply IH|].
      apply Forall_forall. intros z Hz.
      apply (Permutation_in _ (sort_insert_perm cmp x l)) in Hz.
      destruct Hz as [<-|Hz]; [now apply swap_after|].
      now apply (proj1 (Forall_forall _ _) Hy).
    + constructor; [exact Hl|]. constructor; [now apply keep_before|].
      apply Forall_forall. intros z Hz.
      apply before_trans with (y := y); [now apply keep_before|].
      now apply (proj1 (Forall_forall _ _) Hy).
Qed.

Lemma sort_sorted (l : list A) : StronglySorted before (sort cmp l).
Proof.
  induction l as [|x l IH]; [constructor|]. cbn [sort fold_right].
  now apply sort_insert_sorted.
Qed.
End SortedByKey.

(** X21: the analyzer's tags, in exact arithmetic.  A percentile rank lies in
    [0,1]; the strengths of an option are its performances at 0.75 or above,
    in descending order of percentile, its weaknesses those at 0.25 or below,
    in ascending order; no performance is both. *)
Theorem analyzer_tags_ordered_and_exclusive
    (option : Option R) (constraints : list (Constraint R))
    (scoringResult : ScoringResult R) :
  let strengths := identifyStrengths option constraints scoringResult in
  let weaknesses := identifyWeaknesses option constraints scoringResult in
  (forall p, In p strengths -> (75 / 100 <= cp_percentileRank p <= 1)%R) /\
  (forall p, In p weaknesses -> (0 <= cp_percentileRank p <= 25 / 100)%R) /\
  StronglySorted (fun p q => (cp_percentileRank q <= cp_percentileRank p)%R)
                 strengths /\
  StronglySorted (fun p q => (cp_percentileRank p <= cp_percentileRank q)%R)
                 weaknesses /\
  (forall p, In p strengths -> ~ In p weaknesses).
Proof.
  cbv zeta.
  assert (Hstrong : forall p, In p (identifyStrengths option constraints scoringResult) ->
                      (75 / 100 <= cp_percentileRank p <= 1)%R).
  { intros p Hp. unfold identifyStrengths in Hp.
    destruct (JSMap.get _ (opt_id option)) as [normalized|] eqn:Hget;
      [|contradiction].
    apply sort_In, filter_In in Hp as [Hp Hhigh].
    apply in_map_iff in Hp as (k & <- & _).
    unfold lit in Hhigh. cbn [leb div of_Z Exact.number] in Hhigh.
    apply Rleb_true in Hhigh. split; [exact Hhigh|].
    cbn [performanceOf cp_percentileRank]. apply calculatePercentileRank_bounds. }
  assert (Hweak : forall p, In p (identifyWeaknesses option constraints scoringResult) ->
                    (0 <= cp_percentileRank p <= 25 / 100)%R).
  { intros p Hp. unfold identifyWeaknesses in Hp.
    destruct (JSMap.get _ (opt_id option)) as [normalized|] eqn:Hget;
      [|contradiction].
    apply sort_In, filter_In in Hp as [Hp Hlow].
    apply in_map_iff in Hp as (k & <- & _).
    unfold lit in Hlow. cbn [leb div of_Z Exact.number] in Hlow.
    apply Rleb_true in Hlow. split; [|exact Hlow].
    cbn [performanceOf cp_percentileRank]. apply calculatePercentileRank_bounds. }
  split; [exact Hstrong|]. split; [exact Hweak|]. split; [|split].
  - unfold identifyStrengths.
    destruct (JSMap.get _ (opt_id option)); [|constructor].
    apply sort_sorted.
    + intros x y z Hxy Hyz. lra.
    + intros x y Hswap. cbn [ltb sub of_Z Exact.number] in Hswap.
      apply Rltb_true in Hswap. lra.
    + intros x y Hkeep. cbn [ltb sub of_Z Exact.number] in Hkeep.
      apply Rltb_false in Hkeep. lra.
  - unfold identifyWeaknesses.
    destruct (JSMap.get _ (opt_id option)); [|constructor].
    apply sort_sorted.
    + intros x y z Hxy Hyz. lra.
    + intros x y Hswap. cbn [ltb sub of_Z Exact.number] in Hswap.
      apply Rltb_true in Hswap. lra.
    + intros x y Hkeep. cbn [ltb sub of_Z Exact.number] in Hkeep.
      apply Rltb_false in Hkeep. lra.
  - intros p Hs Hw. apply Hstrong in Hs. apply Hweak in Hw. lra.
Qed.

(* ================================================================== *)
(** ** The analyzer's tags in the analysis, against the engine's *)

Section PercentileCount.
Local Open Scope R_scope.


End PercentileCount.

Section DirectionBlind.
Context {num : Type} `{Number num}.
Local Open Scope js_scope.




End DirectionBlind.



(* ================================================================== *)
(** * Properties of the option store *)

(** ** Identifiers and names *)

Section Text.

Lemma idChar_range (c : Ascii.ascii) :
  idChar c = true -> (45 <= Ascii.N_of_ascii c <= 122)%N.
Proof.
  unfold idChar. cbv zeta. set (b := Ascii.N_of_ascii c).
  rewrite !orb_true_iff, !andb_true_iff, !N.leb_le, !N.eqb_eq. lia.
Qed.

(** An identifier of the required format is not blank. *)
Lemma idFormat_not_missing (s : string) : idFormat s = true -> missing s = false.
Proof.
  destruct s as [|c1 r1]; [discriminate|]. cbn [idFormat allIdChars missing].
  intros Hid. apply andb_true_iff in Hid as [Hc _]. apply idChar_range in Hc.
  cbn [trim_is_empty]. cbv zeta. set (b1 := Ascii.N_of_ascii c1) in *.
  replace ((9 <=? b1) && (b1 <=? 13) || (b1 =? 32))%N with false.
  2:{ symmetry. apply orb_false_iff. split.
      - apply andb_false_iff. right. apply N.leb_gt. lia.
      - apply N.eqb_neq. lia. }
  destruct r1 as [|c2 r2]; [reflexivity|].
  replace (b1 =? 194)%N with false by (symmetry; apply N.eqb_neq; lia).
  cbn [andb]. destruct r2 as [|c3 r3]; [reflexivity|].
  unfold whiteSpace3.
  replace (b1 =? 225)%N with false by (symmetry; apply N.eqb_neq; lia).
  replace (b1 =? 226)%N with false by (symmetry; apply N.eqb_neq; lia).
  replace (b1 =? 227)%N with false by (symmetry; apply N.eqb_neq; lia).
  replace (b1 =? 239)%N with false by (symmetry; apply N.eqb_neq; lia).
  reflexivity.
Qed.
End Text.

(** ** What the store accepts *)

Section StoreFacts.
Context {num : Type} `{Number num}.

Lemma flat_map_nil_inv {A B : Type} (f : A -> list B) (l : list A) (x : A) :
  flat_map f l = [] -> In x l -> f x = [].
Proof.
  induction l as [|y l IH]; cbn [flat_map]; intros Hnil Hx; [contradiction|].
  apply app_eq_nil in Hnil as [Hy Hl]. destruct Hx as [<-|Hx]; [exact Hy|now apply IH].
Qed.

Lemma validateOption_errors_nil (o : Option num) :
  tv_errors (OptionManager.validateOption o) = [] <-> wellFormedOption o.
Proof.
  unfold OptionManager.validateOption, wellFormedOption. cbn [tv_errors]. split.
  - intros Herr. apply app_eq_nil in Herr as [Hid Herr].
    apply app_eq_nil in Herr as [Hname Herr]. apply app_eq_nil in Herr as [Hformat Hscores].
    destruct (missing (opt_id o)) eqn:Emissing; [discriminate|].
    destruct (missing (opt_name o)); [discriminate|].
    split; [|split; [reflexivity|]].
    + destruct (opt_id o) as [|c r] eqn:Eid; [discriminate|].
      cbn [andb] in Hformat. destruct (idFormat (String c r)); [reflexivity|discriminate].
    + intros k v Hkv.
      destruct (JSMap.size (opt_scores o) =? 0)%nat eqn:Esize.
      * apply Nat.eqb_eq in Esize. unfold JSMap.size in Esize.
        apply length_zero_iff_nil in Esize. rewrite Esize in Hkv. contradiction.
      * apply (flat_map_nil_inv _ _ (k, v) Hscores) in Hkv. cbn [fst snd] in Hkv.
        destruct (isNaN v); [discriminate|]. destruct (isFinite v); [|discriminate].
        now split.
  - intros (Hformat & Hname & Hscores).
    rewrite (idFormat_not_missing _ Hformat), Hname, Hformat. cbn [negb].
    rewrite andb_false_r. cbn [app].
    destruct (JSMap.size (opt_scores o) =? 0)%nat; [reflexivity|].
    apply flat_map_all_nil. intros [k v] Hkv. cbn [fst snd].
    destruct (Hscores k v Hkv) as [-> ->]. reflexivity.
Qed.

Lemma set_absent {V : Type} (m : JSMap.t V) (k : string) (v : V) :
  JSMap.has m k = false -> JSMap.set m k v = m ++ [(k, v)].
Proof.
  unfold JSMap.has. induction m as [|[k' v'] m IH]; cbn [JSMap.get JSMap.set app];
    [reflexivity|].
  destruct (String.eqb k' k); [discriminate|]. intros Hm. now rewrite IH.
Qed.

Lemma map_delete_appended {V : Type} (m : JSMap.t V) (k : string) (v : V) :
  JSMap.has m k = false -> map_delete (m ++ [(k, v)]) k = m.
Proof.
  unfold JSMap.has. induction m as [|[k' v'] m IH]; cbn [JSMap.get map_delete app].
  - now rewrite String.eqb_refl.
  - destruct (String.eqb k' k); [discriminate|]. intros Hm. now rewrite IH.
Qed.

Lemma In_map_delete {V : Type} (m : JSMap.t V) (k k' : string) (v : V) :
  In (k', v) (map_delete m k) -> In (k', v) m.
Proof.
  induction m as [|[k0 v0] m IH]; cbn [map_delete]; [trivial|].
  destruct (String.eqb k0 k); [now right|].
  intros [Heq|Hin]; [now left|right; now apply IH].
Qed.

Lemma get_map_delete_other {V : Type} (m : JSMap.t V) (k k' : string) :
  k <> k' -> JSMap.get (map_delete m k) k' = JSMap.get m k'.
Proof.
  intros Hne. induction m as [|[k0 v0] m IH]; cbn [map_delete JSMap.get];
    [reflexivity|].
  destruct (String.eqb k0 k) eqn:E.
  - apply String.eqb_eq in E. subst k0.
    now replace (String.eqb k k') with false by (symmetry; now apply String.eqb_neq).
  - cbn [JSMap.get]. now rewrite IH.
Qed.

Lemma keys_map_delete {V : Type} (m : JSMap.t V) (k : string) :
  NoDup (JSMap.keys m) ->
  NoDup (JSMap.keys (map_delete m k)) /\
  ~ In k (JSMap.keys (map_delete m k)) /\
  (forall k', In k' (JSMap.keys (map_delete m k)) -> In k' (JSMap.keys m)) /\
  List.length (map_delete m k)
  = (List.length m - if JSMap.has m k then 1 else 0)%nat.
Proof.
  unfold JSMap.has.
  induction m as [|[k0 v0] m IH]; cbn [map_delete JSMap.keys map fst JSMap.get];
    intros Hnd.
  - repeat split; auto.
  - inversion Hnd as [|? ? Hk0 Hnd']; subst.
    destruct (IH Hnd') as (IH1 & IH2 & IH3 & IH4).
    destruct (String.eqb k0 k) eqn:E.
    + apply String.eqb_eq in E. subst k0.
      repeat split; [exact Hnd'|exact Hk0|intros k' Hk'; now right|simpl; lia].
    + apply String.eqb_neq in E. cbn [JSMap.keys map fst List.length].
      repeat split.
      * constructor; [|exact IH1]. intros Hin. apply Hk0. now apply IH3.
      * intros [Heq|Hin]; [now apply E|now apply IH2].
      * intros k' [<-|Hk']; [now left|right; now apply IH3].
      * rewrite IH4. destruct (JSMap.get m k) eqn:Eget; [|lia].
        apply get_In in Eget. destruct m; [contradiction|simpl; lia].
Qed.
End StoreFacts.

(** X22: [validateOption] raises no error exactly for a well-formed option:
    an identifier of one or more letters, digits, underscores and hyphens, a
    name that is not blank, and only finite numbers as scores.  Such an
    identifier is never blank, so [MISSING_ID] adds nothing to the format
    check; an option without scores is accepted, with a warning. *)
Theorem validateOption_accepts_iff
    {num : Type} `{Number num} (o : Option num) :
  (tv_isValid (OptionManager.validateOption o) = true <-> wellFormedOption o) /\
  (idFormat (opt_id o) = true -> missing (opt_id o) = false) /\
  (opt_scores o = [] ->
   tv_warnings (OptionManager.validateOption o) = ["Option has no scores defined"%string]).
Proof.
  split; [|split].
  - rewrite <- validateOption_errors_nil. unfold OptionManager.validateOption.
    cbn [tv_isValid tv_errors]. destruct (_ ++ _); split; congruence.
  - apply idFormat_not_missing.
  - intros Hnone. unfold OptionManager.validateOption. cbn [tv_warnings].
    now rewrite Hnone.
Qed.

Lemma validateOption_accepts_iff_witness :
  tv_isValid (OptionManager.validateOption Scenario.option1) = true.
Proof.
  apply (proj1 (@validateOption_accepts_iff float Float64.number Scenario.option1)).
  split; [reflexivity|]. split; [reflexivity|].
  intros k v [Hkv|[Hkv|[]]]; injection Hkv as <- <-; split; reflexivity.
Defined.

(** X23: what [addOption] does.  It succeeds exactly when the option is well
    formed, the store holds fewer than five options and none under the
    option's identifier; the option is then filed last, under its identifier.
    Otherwise the store is left as it was, and the error is the first of: a
    validation error, [MAX_OPTIONS_EXCEEDED], [DUPLICATE_ID]. *)
Theorem addOption_outcome
    {num : Type} `{Number num}
    (options : JSMap.t (Option num)) (option : Option num) :
  let result := fst (OptionManager.addOption options option) in
  let options' := snd (OptionManager.addOption options option) in
  (result = Success tt <->
   wellFormedOption option /\
   (OptionManager.getOptionCount options < OptionManager.MAX_OPTIONS)%nat /\
   OptionManager.hasOption options (opt_id option) = false) /\
  (result = Success tt ->
   options' = options ++ [(opt_id option, option)] /\
   OptionManager.getOption options' (opt_id option) = Some option /\
   OptionManager.getOptions options' = OptionManager.getOptions options ++ [option] /\
   OptionManager.getOptionCount options'
   = S (OptionManager.getOptionCount options)) /\
  (forall e, result = Failure e ->
     options' = options /\
     (wellFormedOption option ->
      te_code e = (if (OptionManager.MAX_OPTIONS
                       <=? OptionManager.getOptionCount options)%nat
                   then "MAX_OPTIONS_EXCEEDED" else "DUPLICATE_ID")%string)).
Proof.
  cbv zeta. unfold OptionManager.addOption, OptionManager.getOptionCount,
    OptionManager.hasOption, OptionManager.getOption, OptionManager.getOptions.
  pose proof (validateOption_errors_nil option) as Hvalid.
  destruct (tv_errors (OptionManager.validateOption option)) as [|error0 rest].
  - assert (Hwell : wellFormedOption option) by now apply Hvalid.
    destruct (OptionManager.MAX_OPTIONS <=? JSMap.size options)%nat eqn:Efull.
    + apply Nat.leb_le in Efull. cbn [fst snd]. split; [|split].
      * split; [discriminate|]. intros (_ & Hlt & _). lia.
      * discriminate.
      * intros e [= <-]. split; [reflexivity|]. intros _. reflexivity.
    + apply Nat.leb_gt in Efull.
      destruct (JSMap.has options (opt_id option)) eqn:Ehas; cbn [fst snd].
      * split; [|split].
        -- split; [discriminate|]. intros (_ & _ & Hno). discriminate.
        -- discriminate.
        -- intros e [= <-]. split; [reflexivity|]. intros _. reflexivity.
      * split; [|split].
        -- split; [intros _|reflexivity].
           split; [exact Hwell|]. split; [exact Efull|reflexivity].
        -- intros _. rewrite (@set_absent _ options (opt_id option) option Ehas).
           split; [reflexivity|].
           split; [rewrite <- (@set_absent _ options (opt_id option) option Ehas);
                   apply get_set_same|].
           unfold JSMap.values, JSMap.size.
           rewrite map_app, length_app. cbn [map snd List.length]. split; [reflexivity|lia].
        -- discriminate.
  - cbn [fst snd]. split; [|split].
    + split; [discriminate|]. intros (Hwell & _). apply Hvalid in Hwell. discriminate.
    + discriminate.
    + intros e [= <-]. split; [reflexivity|]. intros Hwell.
      apply Hvalid in Hwell. discriminate.
Qed.

Lemma addOption_outcome_witness :
  OptionManager.getOptions
    (snd (OptionManager.addOption [("opt1"%string, Scenario.option1)] Scenario.option2))
  = [Scenario.option1; Scenario.option2].
Proof.
  apply (proj1 (proj2 (@addOption_outcome float Float64.number
                         [("opt1"%string, Scenario.option1)] Scenario.option2))).
  vm_compute. reflexivity.
Defined.

(** ** The store after any sequence of calls *)

Section StoreInvariant.
Context {num : Type} `{Number num}.

Lemma consistentStore_empty : consistentStore (@nil (string * Option num)).
Proof.
  split; [cbn; unfold OptionManager.MAX_OPTIONS; lia|].
  split; [constructor|contradiction].
Qed.

Lemma consistentStore_afterCall (options : JSMap.t (Option num))
    (call : StoreCall num) :
  consistentStore options -> consistentStore (afterCall options call).
Proof.
  intros Hok. pose proof Hok as (Hsize & Hnd & Hfiled).
  destruct call as [option|optionId|]; cbn [afterCall].
  - unfold OptionManager.addOption.
    pose proof (validateOption_errors_nil option) as Hvalid.
    destruct (tv_errors (OptionManager.validateOption option)); [|exact Hok].
    destruct (OptionManager.MAX_OPTIONS <=? JSMap.size options)%nat eqn:Efull;
      [exact Hok|].
    destruct (JSMap.has options (opt_id option)) eqn:Ehas; [exact Hok|].
    cbn [snd]. apply Nat.leb_gt in Efull. split; [|split].
    + rewrite (@set_absent _ options (opt_id option) option Ehas).
      unfold JSMap.size in *. rewrite length_app. cbn [List.length]. lia.
    + now apply NoDup_keys_set.
    + intros k o Hin. apply In_set in Hin as [Heq|Hin]; [|now apply Hfiled].
      injection Heq as -> ->. split; [reflexivity|now apply Hvalid].
  - unfold OptionManager.removeOption. cbn [snd].
    destruct (keys_map_delete options optionId Hnd) as (Hnd' & _ & _ & Hlen).
    split; [|split].
    + unfold JSMap.size in *. lia.
    + exact Hnd'.
    + intros k o Hin. apply Hfiled. now apply In_map_delete in Hin.
  - apply consistentStore_empty.
Qed.

Lemma consistentStore_afterCalls (calls : list (StoreCall num)) :
  consistentStore (afterCalls calls).
Proof.
  unfold afterCalls.
  assert (Hgen : forall options, consistentStore options ->
                   consistentStore (fold_left afterCall calls options)).
  { induction calls as [|call calls IH]; intros options Hok; [exact Hok|].
    cbn [fold_left]. apply IH. now apply consistentStore_afterCall. }
  apply Hgen, consistentStore_empty.
Qed.
End StoreInvariant.

(** X24: whatever calls of [addOption], [removeOption] and [clear] are made
    on a new store, in any order and whatever they return, the store holds at
    most five options, each well formed and filed once under its own
    identifier.  So [validateOptionCount] never reports [TOO_MANY_OPTIONS]: it
    succeeds from two options on and reports [INSUFFICIENT_OPTIONS] below. *)
Theorem store_stays_consistent
    {num : Type} `{Number num} (calls : list (StoreCall num)) :
  let options := afterCalls calls in
  consistentStore options /\
  NoDup (map (@opt_id num) (OptionManager.getOptions options)) /\
  (OptionManager.validateOptionCount options = Success tt <->
   (2 <= OptionManager.getOptionCount options)%nat) /\
  (forall e, OptionManager.validateOptionCount options = Failure e ->
             te_code e = "INSUFFICIENT_OPTIONS"%string).
Proof.
  cbv zeta. pose proof (consistentStore_afterCalls calls) as Hok.
  set (options := afterCalls calls) in *. split; [exact Hok|].
  destruct Hok as (Hsize & Hnd & Hfiled). split.
  - unfold OptionManager.getOptions, JSMap.values. rewrite map_map.
    replace (map (fun x => opt_id (snd x)) options) with (JSMap.keys options);
      [exact Hnd|].
    unfold JSMap.keys. apply map_ext_in. intros [k o] Hin. cbn [fst snd].
    symmetry. now apply Hfiled.
  - unfold OptionManager.validateOptionCount, OptionManager.getOptionCount.
    cbv zeta. unfold OptionManager.MIN_OPTIONS.
    destruct (JSMap.size options <? 2)%nat eqn:Efew.
    + apply Nat.ltb_lt in Efew. split; [split; [discriminate|lia]|].
      now intros e [= <-].
    + apply Nat.ltb_ge in Efew.
      replace (OptionManager.MAX_OPTIONS <? JSMap.size options)%nat with false
        by (symmetry; apply Nat.ltb_ge; exact Hsize).
      split; [split; [intros _; exact Efew|reflexivity]|discriminate].
Qed.

(** X25: what [removeOption] does on a store without a repeated key.  It
    returns whether the identifier was there; afterwards it is not, every
    other option is found as before, and the count is one less if it was
    there.  Removing the option that was just added gives the store back. *)
Theorem removeOption_outcome
    {num : Type} `{Number num}
    (options : JSMap.t (Option num)) (optionId : string) :
  NoDup (JSMap.keys options) ->
  let removed := fst (OptionManager.removeOption options optionId) in
  let options' := snd (OptionManager.removeOption options optionId) in
  removed = OptionManager.hasOption options optionId /\
  OptionManager.hasOption options' optionId = false /\
  (forall other, other <> optionId ->
     OptionManager.getOption options' other = OptionManager.getOption options other) /\
  OptionManager.getOptionCount options'
  = (OptionManager.getOptionCount options - if removed then 1 else 0)%nat /\
  (forall option, opt_id option = optionId ->
     fst (OptionManager.addOption options option) = Success tt ->
     OptionManager.removeOption (snd (OptionManager.addOption options option)) optionId
     = (true, options)).
Proof.
  intros Hnd. cbv zeta.
  unfold OptionManager.removeOption, OptionManager.hasOption, OptionManager.getOption,
    OptionManager.getOptionCount. cbn [fst snd].
  destruct (keys_map_delete options optionId Hnd) as (_ & Hgone & _ & Hlen).
  split; [reflexivity|]. split.
  { destruct (JSMap.has (map_delete options optionId) optionId) eqn:E; [|reflexivity].
    apply has_keys in E. contradiction. }
  split; [intros other Hne; apply get_map_delete_other; congruence|].
  split; [exact Hlen|].
  intros option <-. unfold OptionManager.addOption.
  destruct (tv_errors (OptionManager.validateOption option)); [|discriminate].
  destruct (OptionManager.MAX_OPTIONS <=? JSMap.size options)%nat; [discriminate|].
  destruct (JSMap.has options (opt_id option)) eqn:Ehas; [discriminate|].
  intros _. cbn [snd]. unfold JSMap.has at 1. rewrite get_set_same.
  now rewrite (@set_absent _ options (opt_id option) option Ehas), map_delete_appended.
Qed.

Lemma removeOption_outcome_witness :
  OptionManager.hasOption
    (snd (OptionManager.removeOption
            [("opt1"%string, Scenario.option1); ("opt2"%string, Scenario.option2)]
            "opt1"))
    "opt1" = false.
Proof.
  apply (@removeOption_outcome float Float64.number
           [("opt1"%string, Scenario.option1); ("opt2"%string, Scenario.option2)]
           "opt1"%string).
  repeat constructor; cbn; intuition discriminate.
Defined.

(** ** Completeness of the scores *)

Section Completeness.
Context {num : Type} `{Number num}.

Lemma flat_map_nil_iff {A B : Type} (f : A -> list B) (l : list A) :
  flat_map f l = [] <-> forall x, In x l -> f x = [].
Proof.
  split; [intros Hnil x Hx; now apply (flat_map_nil_inv f l)|apply flat_map_all_nil].
Qed.

Lemma concat_nil_iff {A : Type} (l : list (list A)) :
  List.concat l = [] <-> forall x, In x l -> x = [].
Proof.
  split; [intros Hnil x Hx; now apply (concat_nil_inv l)|apply concat_all_nil].
Qed.

Lemma validateDataCompleteness_errors_nil (options : list (Option num))
    (constraints : list (Constraint num)) :
  tv_errors (validateDataCompleteness options constraints) = [] <->
  forall o c, In o options -> In c constraints ->
              JSMap.has (opt_scores o) (c_id c) = true.
Proof.
  unfold validateDataCompleteness. cbn [tv_errors]. rewrite concat_nil_iff. split.
  - intros Hall o c Ho Hc. apply In_nth_error in Ho as [i Hi].
    assert (Hnil : flat_map
                     (fun constraintId =>
                        if JSMap.has (opt_scores o) constraintId then []
                        else [createTextError
                                ("options[" ++ nat_to_string i ++ "].scores")
                                ("Missing score for constraint '" ++ constraintId
                                 ++ "' in option '" ++ opt_name o ++ "'")
                                "MISSING_SCORE"])
                     (set_of (map (@c_id num) constraints)) = []).
    { apply Hall. apply mapi_In. now exists i, o. }
    assert (Hid : In (c_id c) (set_of (map (@c_id num) constraints)))
      by (apply In_set_of; now apply in_map).
    apply (flat_map_nil_inv _ _ _ Hnil) in Hid.
    now destruct (JSMap.has (opt_scores o) (c_id c)).
  - intros Hall errs Herrs. apply mapi_In in Herrs as (i & o & Hi & ->).
    apply flat_map_all_nil. intros k Hk. apply (proj1 (In_set_of _ _)) in Hk.
    apply in_map_iff in Hk as (c & <- & Hc).
    now rewrite (Hall o c (nth_error_In _ _ Hi) Hc).
Qed.

Lemma validateScoreCompleteness_errors_nil (options : JSMap.t (Option num))
    (constraintIds : list string) :
  tv_errors (OptionManager.validateScoreCompleteness options constraintIds) = [] <->
  forall o k, In o (OptionManager.getOptions options) -> In k constraintIds ->
              JSMap.has (opt_scores o) k = true.
Proof.
  unfold OptionManager.validateScoreCompleteness, OptionManager.getOptions.
  cbn [tv_errors]. rewrite flat_map_nil_iff. split.
  - intros Hall o k Ho Hk. specialize (Hall o Ho).
    apply (flat_map_nil_inv _ _ _ Hall) in Hk.
    now destruct (JSMap.has (opt_scores o) k).
  - intros Hall o Ho. apply flat_map_all_nil. intros k Hk.
    now rewrite (Hall o k Ho Hk).
Qed.

Lemma isValid_errors_nil (errs : list TextError) :
  match errs with [] => true | _ :: _ => false end = true <-> errs = [].
Proof. destruct errs; split; congruence. Qed.
End Completeness.

(** X26: the two completeness checks agree.  [validateScoreCompleteness] on
    the store and [validateDataCompleteness] on its options are valid
    together, exactly when every option has a score under every constraint
    identifier; every error they raise is a [MISSING_SCORE], and
    [validateDataCompleteness] warns exactly when some option has a score
    under an identifier that is no constraint's. *)
Theorem completeness_checks_agree
    {num : Type} `{Number num}
    (options : JSMap.t (Option num)) (constraints : list (Constraint num)) :
  let complete := forall o c, In o (OptionManager.getOptions options) ->
                    In c constraints -> JSMap.has (opt_scores o) (c_id c) = true in
  let viaStore :=
    OptionManager.validateScoreCompleteness options (map (@c_id num) constraints) in
  let viaValidator :=
    validateDataCompleteness (OptionManager.getOptions options) constraints in
  (tv_isValid viaStore = true <-> complete) /\
  (tv_isValid viaValidator = true <-> complete) /\
  (forall e, In e (tv_errors viaStore) \/ In e (tv_errors viaValidator) ->
             te_code e = "MISSING_SCORE"%string) /\
  (tv_warnings viaValidator = [] <->
   forall o k, In o (OptionManager.getOptions options) ->
     In k (JSMap.keys (opt_scores o)) -> In k (map (@c_id num) constraints)).
Proof.
  cbv zeta. split; [|split; [|split]].
  - unfold OptionManager.validateScoreCompleteness at 1. cbn [tv_isValid].
    rewrite isValid_errors_nil.
    change (flat_map _ (JSMap.values options))
      with (tv_errors (OptionManager.validateScoreCompleteness options
                         (map (@c_id num) constraints))).
    rewrite validateScoreCompleteness_errors_nil. split.
    + intros Hall o c Ho Hc. apply Hall; [exact Ho|now apply in_map].
    + intros Hall o k Ho Hk. apply in_map_iff in Hk as (c & <- & Hc). now apply Hall.
  - unfold validateDataCompleteness at 1. cbn [tv_isValid].
    rewrite isValid_errors_nil.
    change (List.concat _)
      with (tv_errors (validateDataCompleteness (OptionManager.getOptions options)
                         constraints)).
    apply validateDataCompleteness_errors_nil.
  - intros e [He|He].
    + unfold OptionManager.validateScoreCompleteness in He. cbn [tv_errors] in He.
      apply in_flat_map in He as (o & _ & He). apply in_flat_map in He as (k & _ & He).
      destruct (JSMap.has (opt_scores o) k); [contradiction|].
      now destruct He as [<-|[]].
    + unfold validateDataCompleteness in He. cbn [tv_errors] in He.
      apply in_concat in He as (errs & Herrs & He).
      apply mapi_In in Herrs as (i & o & _ & ->).
      apply in_flat_map in He as (k & _ & He).
      destruct (JSMap.has (opt_scores o) k); [contradiction|].
      now destruct He as [<-|[]].
  - unfold validateDataCompleteness. cbn [tv_warnings].
    rewrite flat_map_nil_iff. split.
    + intros Hall o k Ho Hk. specialize (Hall o Ho).
      apply (flat_map_nil_inv _ _ _ Hall) in Hk.
      destruct (set_has _ k) eqn:E; [|discriminate].
      apply set_has_In in E. now apply (proj1 (In_set_of _ _)) in E.
    + intros Hall o Ho. apply flat_map_all_nil. intros k Hk.
      replace (set_has _ k) with true; [reflexivity|].
      symmetry. apply set_has_In, In_set_of. now apply (Hall o).
Qed.

(** X27: the store feeds the engine.  After any calls of [addOption],
    [removeOption] and [clear] on a new store, if [validateOptionCount]
    succeeds, [validateScoreCompleteness] is valid for the constraints, there
    is a constraint and every weight is finite, then [calculateScores] succeeds
    on the options of the store, and their identifiers are distinct. *)
Theorem store_feeds_engine
    {num : Type} `{Number num}
    (calls : list (StoreCall num)) (constraints : list (Constraint num)) :
  let options := afterCalls calls in
  OptionManager.validateOptionCount options = Success tt ->
  tv_isValid (OptionManager.validateScoreCompleteness options
                (map (@c_id num) constraints)) = true ->
  constraints <> [] ->
  (forall c, In c constraints -> invalidNumber (c_weight c) = false) ->
  NoDup (map (@opt_id num) (OptionManager.getOptions options)) /\
  exists r, calculateScores (OptionManager.getOptions options) constraints = Success r.
Proof.
  cbv zeta. intros Hcount Hcomplete Hsome Hweights.
  pose proof (consistentStore_afterCalls calls) as Hok.
  set (options := afterCalls calls) in *.
  pose proof Hok as (Hsize & Hnd & Hfiled). split.
  - unfold OptionManager.getOptions, JSMap.values. rewrite map_map.
    replace (map (fun x => opt_id (snd x)) options) with (JSMap.keys options);
      [exact Hnd|].
    unfold JSMap.keys. apply map_ext_in. intros [k o] Hin. cbn [fst snd].
    symmetry. now apply Hfiled.
  - apply calculateScores_accepts. split; [|split; [|split]].
    + unfold OptionManager.validateOptionCount in Hcount. cbv zeta in Hcount.
      destruct (JSMap.size options <? OptionManager.MIN_OPTIONS)%nat eqn:Efew;
        [discriminate|].
      apply Nat.ltb_ge in Efew. unfold OptionManager.getOptions, JSMap.values.
      rewrite length_map. exact Efew.
    + destruct constraints; [contradiction|simpl; lia].
    + intros o c Ho Hc.
      unfold OptionManager.validateScoreCompleteness in Hcomplete.
      cbn [tv_isValid] in Hcomplete. apply isValid_errors_nil in Hcomplete.
      change (flat_map _ (JSMap.values options))
        with (tv_errors (OptionManager.validateScoreCompleteness options
                           (map (@c_id num) constraints))) in Hcomplete.
      pose proof (proj1 (validateScoreCompleteness_errors_nil _ _) Hcomplete
                    o (c_id c) Ho (in_map _ _ _ Hc)) as Hhas.
      unfold JSMap.has in Hhas.
      destruct (JSMap.get (opt_scores o) (c_id c)) as [s|] eqn:Hget; [|discriminate].
      exists s. split; [reflexivity|].
      unfold OptionManager.getOptions, JSMap.values in Ho.
      apply in_map_iff in Ho as ([k o'] & Hsnd & Hin). cbn [snd] in Hsnd. subst o'.
      destruct (Hfiled k o Hin) as (_ & _ & _ & Hscores).
      destruct (Hscores (c_id c) s (get_In _ _ Hget)) as [Hnan Hfin].
      unfold invalidNumber. now rewrite Hnan, Hfin.
    + exact Hweights.
Qed.

Lemma store_feeds_engine_witness :
  exists r : ScoringResult float,
    calculateScores
      (OptionManager.getOptions
         (afterCalls [CallAdd Scenario.option1; CallAdd Scenario.option2]))
      (Scenario.twoCriteria 60 40) = Success r.
Proof.
  apply (@store_feeds_engine float Float64.number
           [CallAdd Scenario.option1; CallAdd Scenario.option2]
           (Scenario.twoCriteria 60 40)).
  - vm_compute. reflexivity.
  - vm_compute. reflexivity.
  - discriminate.
  - intros c [<-|[<-|[]]]; vm_compute; reflexivity.
Defined.

(* ================================================================== *)
(** * Exact arithmetic: a change of unit *)

Section SortMap.
Context {A B : Type}.

Lemma sort_insert_map (cmp : B -> B -> R) (g : A -> B) (x : A) (l : list A) :
  sort_insert cmp (g x) (map g l)
  = map g (sort_insert (fun a b => cmp (g a) (g b)) x l).
Proof.
  induction l as [|y l IH]; cbn [sort_insert map]; [reflexivity|].
  destruct (cmp (g x) (g y) >? of_Z 0)%js; cbn [map]; [now rewrite IH|reflexivity].
Qed.

Lemma sort_map (cmp : B -> B -> R) (g : A -> B) (l : list A) :
  sort cmp (map g l) = map g (sort (fun a b => cmp (g a) (g b)) l).
Proof.
  induction l as [|x l IH]; [reflexivity|]. cbn [sort fold_right map].
  fold (sort cmp (map g l)). rewrite IH. apply sort_insert_map.
Qed.
End SortMap.

Section ExactUnits.
Local Open Scope R_scope.
Variables (k : string) (c : R).
Hypothesis c_pos : 0 < c.

Local Abbreviation rescaled := (rescaleScore k c).

(** The factor by which column [cid] changes. *)
Local Abbreviation factor := (fun cid : string => if String.eqb cid k then c else 1).

Lemma get_rescaled (scores : JSMap.t R) (cid : string) :
  JSMap.get (map (fun entry => if String.eqb (fst entry) k
                               then (fst entry, c * snd entry) else entry) scores) cid
  = option_map (Rmult (factor cid)) (JSMap.get scores cid).
Proof.
  induction scores as [|[k' v] scores IH]; cbn [map JSMap.get fst snd];
    [reflexivity|].
  destruct (String.eqb k' k) eqn:Ek; cbn [JSMap.get].
  - destruct (String.eqb k' cid) eqn:Ecid; [|exact IH].
    apply String.eqb_eq in Ek, Ecid. subst k' cid. rewrite String.eqb_refl.
    reflexivity.
  - destruct (String.eqb k' cid) eqn:Ecid; [|exact IH].
    apply String.eqb_eq in Ecid. subst cid. rewrite Ek. cbn [option_map].
    now rewrite Rmult_1_l.
Qed.

Lemma score_or_zero_rescaled (o : Option R) (cid : string) :
  score_or_zero (rescaled o) cid = factor cid * score_or_zero o cid.
Proof.
  unfold score_or_zero, rescaleScore, zero. cbn [opt_scores mul of_Z Exact.number].
  rewrite get_rescaled. destruct (JSMap.get (opt_scores o) cid); cbn [option_map];
    [reflexivity|]. now rewrite Rmult_0_r.
Qed.

Lemma factor_pos (cid : string) : 0 < factor cid.
Proof. cbv beta. destruct (String.eqb cid k); lra. Qed.

Lemma scoreErrors_rescaled (i : nat) (o : Option R) (constraint : Constraint R) :
  scoreErrors i (rescaled o) constraint = scoreErrors i o constraint.
Proof.
  unfold scoreErrors, rescaleScore. cbn [opt_scores opt_name mul Exact.number].
  rewrite get_rescaled. now destruct (JSMap.get (opt_scores o) (c_id constraint)).
Qed.

Lemma errors_rescaled (options : list (Option R)) (constraints : list (Constraint R)) :
  errors (topsis_validateInputs (map rescaled options) constraints)
  = errors (topsis_validateInputs options constraints).
Proof.
  unfold topsis_validateInputs. cbn [errors]. rewrite length_map.
  do 3 f_equal. destruct (_ && _); [|reflexivity]. f_equal.
  unfold mapi. rewrite mapi_from_map. apply mapi_from_ext. intros n o _.
  f_equal. apply map_ext. intros constraint. apply scoreErrors_rescaled.
Qed.

Lemma column_buildDecisionMatrix (options : list (Option R))
    (constraints : list (Constraint R)) (j : nat) (cj : Constraint R) :
  nth_error constraints j = Some cj ->
  column (buildDecisionMatrix options constraints) j
  = map (fun o => score_or_zero o (c_id cj)) options.
Proof.
  intros Hj. unfold column, buildDecisionMatrix. rewrite map_map.
  apply map_ext. intros o. apply nth_error_nth. now rewrite nth_error_map, Hj.
Qed.

Lemma normalizeMatrix_rescaled (options : list (Option R))
    (constraints : list (Constraint R)) :
  normalizeMatrix (buildDecisionMatrix (map rescaled options) constraints) constraints
  = normalizeMatrix (buildDecisionMatrix options constraints) constraints.
Proof.
  unfold normalizeMatrix.
  match goal with
  | |- map ?f' _ = map ?f _ => set (normalize' := f'); set (normalize := f)
  end.
  unfold buildDecisionMatrix. rewrite !map_map.
  apply map_ext. intros o. unfold normalize', normalize.
  apply mapi_ext. intros j cj Hj. cbv zeta.
  fold (buildDecisionMatrix (map rescaled options) constraints).
  fold (buildDecisionMatrix options constraints).
  unfold columnSumSquares.
  rewrite !(fun os => @column_buildDecisionMatrix os constraints j cj Hj), map_map.
  erewrite !(nth_error_nth (map _ constraints)) by (rewrite nth_error_map, Hj; reflexivity).
  rewrite score_or_zero_rescaled.
  replace (map (fun x => score_or_zero (rescaled x) (c_id cj)) options)
    with (map (Rmult (factor (c_id cj)))
              (map (fun o => score_or_zero o (c_id cj)) options))
    by (rewrite map_map; apply map_ext; intros x;
        now rewrite score_or_zero_rescaled).
  set (f := factor (c_id cj)). set (raw := map _ options).
  assert (Hf : 0 < f) by apply factor_pos.
  unfold zero. cbn [ltb div sqrt add mul of_Z Exact.number].
  assert (Hscaled : fold_left (fun acc value => acc + value * value)
                              (map (Rmult f) raw) 0
                    = f * f * fold_left (fun acc value => acc + value * value) raw 0).
  { rewrite <- (sumSquares_scaled f raw 0). f_equal. ring. }
  rewrite Hscaled. set (sumSquares := fold_left _ raw 0).
  assert (Hss : 0 <= sumSquares) by (apply sumSquares_nonneg; lra).
  unfold Exact.Rltb.
  assert (Hff : 0 < f * f) by now apply Rmult_lt_0_compat.
  destruct (Rlt_dec 0 (f * f * sumSquares)) as [Hpos'|Hzero'],
           (Rlt_dec 0 sumSquares) as [Hpos|Hzero]; try reflexivity.
  - rewrite sqrt_mult by lra. rewrite sqrt_square by lra.
    field. split; [|lra]. apply Rgt_not_eq. now apply sqrt_lt_R0.
  - exfalso. assert (sumSquares = 0) by lra. subst sumSquares.
    replace (fold_left _ raw 0) with 0 in Hpos' by congruence. lra.
  - exfalso. apply Hzero'. now apply Rmult_lt_0_compat.
Qed.
End ExactUnits.

Section UnitsDownstream.
Context {num : Type} `{Number num}.
Variable g : Option num -> Option num.
Hypothesis g_id : forall o, opt_id (g o) = opt_id o.

Lemma buildScoreMap_relabelled (options : list (Option num))
    (constraints : list (Constraint num)) (matrix : list (list num)) :
  buildScoreMap (map g options) constraints matrix
  = buildScoreMap options constraints matrix.
Proof.
  unfold buildScoreMap, mapi. rewrite mapi_from_map. f_equal.
  apply mapi_from_ext. intros n o _. now rewrite g_id.
Qed.

Lemma closenessEntries_relabelled (options : list (Option num)) (closenessList : list num) :
  mapi (fun index option => (opt_id option, nth index closenessList zero))
       (map g options)
  = mapi (fun index option => (opt_id option, nth index closenessList zero)) options.
Proof.
  unfold mapi. rewrite mapi_from_map. apply mapi_from_ext. intros n o _.
  now rewrite g_id.
Qed.
End UnitsDownstream.

Lemma rankings_relabelled (g : Option R -> Option R)
    (options : list (Option R)) (closenessList : list R)
    (weightedMatrix : list (list R)) (constraints : list (Constraint R)) :
  (forall o, opt_id (g o) = opt_id o) ->
  map (@rankingSummary R)
      (generateRankings (map g options) closenessList weightedMatrix constraints)
  = map (@rankingSummary R)
        (generateRankings options closenessList weightedMatrix constraints).
Proof.
  intros g_id. unfold generateRankings.
  set (relabel := fun item : @IndexedRanking R =>
                    {| ir_option := g (ir_option item);
                       ir_index := ir_index item;
                       ir_closenessScore := ir_closenessScore item |}).
  assert (Hindexed : indexedRankings (map g options) closenessList
                     = map relabel (indexedRankings options closenessList)).
  { unfold indexedRankings, mapi. now rewrite mapi_from_map, map_mapi_from. }
  rewrite Hindexed, sort_map.
  change (fun a b => byClosenessDescending (relabel a) (relabel b))
    with (@byClosenessDescending R _).
  unfold mapi. rewrite mapi_from_map, !map_mapi_from.
  apply mapi_from_ext. intros n item _. unfold rankingSummary.
  cbn [r_option r_rank r_closenessScore r_strengthAreas r_weaknessAreas
       relabel ir_option ir_index ir_closenessScore].
  now rewrite g_id.
Qed.

(** X28: the scores do not depend on the unit of a criterion, in exact
    arithmetic.  Multiplying the raw scores of one criterion by the same
    positive factor for every option leaves the call successful and changes
    nothing but the raw scores: the normalized and weighted scores, the ideal
    solutions, the closeness scores, and the rank and tags of every option are
    the same. *)
Theorem scores_independent_of_unit
    (k : string) (c : R) (options : list (Option R))
    (constraints : list (Constraint R)) (r : ScoringResult R) :
  (0 < c)%R ->
  calculateScores options constraints = Success r ->
  exists r' : ScoringResult R,
    calculateScores (map (rescaleScore k c) options) constraints = Success r' /\
    normalizedScores r' = normalizedScores r /\
    weightedScores r' = weightedScores r /\
    closenessScores r' = closenessScores r /\
    idealSolution r' = idealSolution r /\
    negativeIdealSolution r' = negativeIdealSolution r /\
    map (@rankingSummary R) (rankings r') = map (@rankingSummary R) (rankings r).
Proof.
  intros Hc Hr.
  apply calculateScores_success_inv in Hr as [Hvalid Hr]. cbv zeta in Hr.
  unfold calculateScores. rewrite errors_rescaled, Hvalid.
  rewrite (normalizeMatrix_rescaled k Hc).
  destruct (calculateIdealSolutions _ constraints) as [ideal negativeIdeal] eqn:Hideal.
  destruct (calculateDistances _ ideal negativeIdeal) as [pos neg] eqn:Hdist.
  eexists. split; [reflexivity|]. subst r.
  cbn [fst snd]. rewrite Hdist. cbn [fst snd].
  cbn [normalizedScores weightedScores closenessScores idealSolution
       negativeIdealSolution rankings].
  assert (Hid : forall o : Option R, opt_id (rescaleScore k c o) = opt_id o)
    by reflexivity.
  rewrite !(buildScoreMap_relabelled _ Hid), (closenessEntries_relabelled _ Hid).
  repeat (split; [reflexivity|]).
  now apply rankings_relabelled.
Qed.

Lemma scores_independent_of_unit_witness :
  exists r' : ScoringResult R,
    calculateScores (map (rescaleScore "x" 100%R) ExactScenario.alternatives)
                    ExactScenario.criteria = Success r' /\
    closenessScores r' = closenessScores ExactScenario.scoring.
Proof.
  destruct (@scores_independent_of_unit "x"%string 100%R ExactScenario.alternatives
              ExactScenario.criteria ExactScenario.scoring)
    as (r' & Hr' & _ & _ & Hcloseness & _).
  - lra.
  - exact exactScenario_scored.
  - exists r'. split; [exact Hr'|exact Hcloseness].
Defined.

(* ================================================================== *)
(** * Exact arithmetic: a tie between two options *)

Section Ties.
Local Open Scope R_scope.

Lemma StronglySorted_nth_error {A : Type} (before : A -> A -> Prop) (l : list A)
    (p q : nat) (x y : A) :
  StronglySorted before l -> (p < q)%nat ->
  nth_error l p = Some x -> nth_error l q = Some y -> before x y.
Proof.
  intros Hsorted. revert p q. induction Hsorted as [|z l Hl IH Hz]; intros p q Hpq Hp Hq.
  - now destruct p.
  - destruct q as [|q]; [lia|]. cbn [nth_error] in Hq. destruct p as [|p].
    + injection Hp as ->. apply (proj1 (Forall_forall _ _) Hz).
      exact (nth_error_In _ _ Hq).
    + cbn [nth_error] in Hp. apply (IH p q); [lia|exact Hp|exact Hq].
Qed.

(** Where the ranking of input position [i] stands: the ranking at list
    position [p] has rank [p + 1]. *)
Lemma ranking_position (options : list (Option R)) (closenessList : list R)
    (weightedMatrix : list (list R)) (constraints : list (Constraint R))
    (x : OptionRanking R) :
  NoDup options ->
  In x (generateRankings options closenessList weightedMatrix constraints) ->
  exists p item i,
    nth_error (sort byClosenessDescending (indexedRankings options closenessList)) p
    = Some item /\
    ir_index item = i /\ nth_error options i = Some (r_option x) /\
    ir_closenessScore item = r_closenessScore x /\
    r_rank x = (Z.of_nat p + 1)%Z.
Proof.
  intros Hnd Hx. apply mapi_In in Hx as (p & item & Hp & ->).
  exists p, item, (ir_index item). split; [exact Hp|]. split; [reflexivity|].
  apply nth_error_In, sort_In, indexedRankings_In in Hp as [Ho _].
  cbn [r_option r_closenessScore r_rank]. now repeat split.
Qed.
End Ties.

(** X29: a tie is settled differently by the two stages, in exact arithmetic
    and with distinct option identifiers.  When two options have the same
    closeness score, the one given earlier in the input gets the better rank,
    and the pairwise comparison of the two names the later one the winner. *)
Theorem tie_ranked_first_but_compared_second
    (options : list (Option R)) (constraints : list (Constraint R))
    (r : ScoringResult R) (i j : nat) (xa xb : OptionRanking R) :
  calculateScores options constraints = Success r ->
  NoDup (map (@opt_id R) options) ->
  (i < j)%nat ->
  nth_error options i = Some (r_option xa) ->
  nth_error options j = Some (r_option xb) ->
  In xa (rankings r) -> In xb (rankings r) ->
  r_closenessScore xa = r_closenessScore xb ->
  (r_rank xa < r_rank xb)%Z /\
  pc_winner (compareOptions (r_option xa) (r_option xb) constraints r)
  = opt_id (r_option xb).
Proof.
  intros Hr Hids Hij Ha Hb Hxa Hxb Htie. split.
  - destruct (calculateScores_success_inv _ _ Hr) as [_ Hshape].
    cbv zeta in Hshape. rewrite Hshape in Hxa, Hxb. cbn [rankings] in Hxa, Hxb.
    assert (Hnd : NoDup options) by exact (NoDup_map_inv _ _ Hids).
    destruct (@ranking_position _ _ _ _ _ Hnd Hxa)
      as (pa & ia & i' & Hpa & Hi' & Hoa & Hca & ->).
    destruct (@ranking_position _ _ _ _ _ Hnd Hxb)
      as (pb & ib & j' & Hpb & Hj' & Hob & Hcb & ->).
    assert (i' = i).
    { apply (proj1 (NoDup_nth_error options) Hnd);
        [apply nth_error_Some; congruence|congruence]. }
    assert (j' = j).
    { apply (proj1 (NoDup_nth_error options) Hnd);
        [apply nth_error_Some; congruence|congruence]. }
    subst i' j'.
    match type of Hpa with
    | nth_error (sort _ (indexedRankings _ ?cl)) _ = _ =>
        pose proof (sorted_indexedRankings options cl) as Hsorted
    end.
    destruct (Nat.lt_trichotomy pa pb) as [Hlt|[Heq|Hgt]]; [lia| |].
    + subst pb. rewrite Hpa in Hpb. injection Hpb as <-. lia.
    + exfalso.
      pose proof (@StronglySorted_nth_error _ _ _ _ _ _ _ Hsorted Hgt Hpb Hpa)
        as [Hbetter|[_ Hearlier]].
      * rewrite Hca, Hcb in Hbetter. lra.
      * lia.
  - unfold compareOptions. cbn [pc_winner]. unfold get_or_zero.
    rewrite (closeness_map_get _ _ _ Hr Hids Hxa), (closeness_map_get _ _ _ Hr Hids Hxb).
    rewrite Htie. cbn [ltb Exact.number].
    replace (Exact.Rltb _ _) with false; [reflexivity|].
    symmetry. apply Rltb_false. lra.
Qed.

Lemma tie_ranked_first_but_compared_second_witness :
  exists (r : ScoringResult R) (xa xb : OptionRanking R),
    calculateScores TwinScenario.alternatives ExactScenario.criteria = Success r /\
    r_option xa = TwinScenario.first /\ r_option xb = TwinScenario.second /\
    (r_rank xa < r_rank xb)%Z /\
    pc_winner (compareOptions (r_option xa) (r_option xb) ExactScenario.criteria r)
    = "b"%string.
Proof.
  destruct (@calculateScores_accepts R _ TwinScenario.alternatives
              ExactScenario.criteria) as [r Hr].
  { split; [simpl; lia|]. split; [simpl; lia|]. split.
    - intros o c [<-|[<-|[]]] [<-|[<-|[]]]; eexists; split; reflexivity.
    - intros c _. reflexivity. }
  assert (Hweights : forall c, In c ExactScenario.criteria -> (0 <= c_weight c)%R)
    by (intros c [<-|[<-|[]]]; cbn; lra).
  assert (Hsame : forall o b c, In o TwinScenario.alternatives ->
                    In b TwinScenario.alternatives -> In c ExactScenario.criteria ->
                    notWorse c o b).
  { intros o b c [<-|[<-|[]]] [<-|[<-|[]]] [<-|[<-|[]]];
      unfold notWorse, score_or_zero; cbn; lra. }
  destruct (@unbeaten_closeness TwinScenario.alternatives ExactScenario.criteria r
              0%nat TwinScenario.first Hr eq_refl Hweights)
    as (xa & Hxa & Hoa & Hca).
  { intros b c Hb Hc. apply Hsame; [now left|exact Hb|exact Hc]. }
  destruct (@unbeaten_closeness TwinScenario.alternatives ExactScenario.criteria r
              1%nat TwinScenario.second Hr eq_refl Hweights)
    as (xb & Hxb & Hob & Hcb).
  { intros b c Hb Hc. apply Hsame; [right; now left|exact Hb|exact Hc]. }
  exists r, xa, xb. split; [exact Hr|]. split; [exact Hoa|]. split; [exact Hob|].
  replace "b"%string with (opt_id (r_option xb)) by (now rewrite Hob).
  apply (@tie_ranked_first_but_compared_second
           TwinScenario.alternatives ExactScenario.criteria r 0%nat 1%nat xa xb Hr).
  - repeat constructor; cbn; intuition discriminate.
  - lia.
  - now rewrite Hoa.
  - now rewrite Hob.
  - exact Hxa.
  - exact Hxb.
  - now rewrite Hca, Hcb.
Defined.

(* ================================================================== *)
(** * Exact arithmetic: which option a recommendation picks *)

Section ExactPicks.
Local Open Scope R_scope.

Lemma head_of_sorted {A : Type} (before : A -> A -> Prop) (x : A) (l : list A) (y : A) :
  (forall z, before z z) -> StronglySorted before (x :: l) -> In y (x :: l) ->
  before x y.
Proof.
  intros Hrefl Hsorted [<-|Hy]; [apply Hrefl|].
  inversion Hsorted as [|? ? _ Hx]; subst.
  now apply (proj1 (Forall_forall _ _) Hx).
Qed.

Lemma findCompromiseOption_least (m : JSMap.t (OptionAnalysis R))
    (dominanceRelations : DominanceAnalysis) (rec : Recommendation R) :
  wellKeyed m -> findCompromiseOption m dominanceRelations = Some rec ->
  exists a, JSMap.get m (rec_optionId rec) = Some a /\
    forall id a', In id (paretoFrontier dominanceRelations) ->
      JSMap.get m id = Some a' -> (1 < oa_rank a')%Z -> (oa_rank a <= oa_rank a')%Z.
Proof.
  intros [Hnd Hkeys]. unfold findCompromiseOption.
  set (candidates := analysesOf m _ (paretoFrontier dominanceRelations)).
  assert (Hsorted : StronglySorted (fun a b => (oa_rank a <= oa_rank b)%Z)
                      (sort (fun a b : OptionAnalysis R =>
                               (of_Z (oa_rank a) - of_Z (oa_rank b))%js) candidates)).
  { apply sort_sorted.
    - intros x y z Hxy Hyz. lia.
    - intros x y Hswap. cbn [ltb sub of_Z Exact.number] in Hswap.
      apply Rltb_true in Hswap. apply le_IZR. lra.
    - intros x y Hkeep. cbn [ltb sub of_Z Exact.number] in Hkeep.
      apply Rltb_false in Hkeep. apply le_IZR. lra. }
  destruct (sort _ candidates) as [|a rest] eqn:Esort; [discriminate|].
  intros [= <-]. cbn [rec_optionId]. exists a.
  assert (Hin : In a candidates).
  { apply (sort_In (fun a b : OptionAnalysis R =>
                      (of_Z (oa_rank a) - of_Z (oa_rank b))%js)).
    rewrite Esort. now left. }
  apply analysesOf_kept in Hin as (id0 & _ & Hget0 & _).
  split; [now rewrite (Hkeys id0 a (get_In _ _ Hget0))|].
  intros id a' Hid Hget Hrank.
  apply (@head_of_sorted _ (fun a b => (oa_rank a <= oa_rank b)%Z) a rest a');
    [intros z; lia|exact Hsorted|].
  rewrite <- Esort. apply sort_In. apply analysesOf_kept. exists id.
  split; [exact Hid|]. split; [exact Hget|]. now apply Z.ltb_lt.
Qed.

Lemma findOptionToAvoid_greatest (m : JSMap.t (OptionAnalysis R))
    (dominanceRelations : DominanceAnalysis) (rec : Recommendation R) :
  wellKeyed m -> findOptionToAvoid m dominanceRelations = Some rec ->
  exists a, JSMap.get m (rec_optionId rec) = Some a /\
    forall id a', In id (dominatedOptions dominanceRelations) ->
      JSMap.get m id = Some a' -> (2 <= List.length (oa_weaknesses a'))%nat ->
      (oa_rank a' <= oa_rank a)%Z.
Proof.
  intros [Hnd Hkeys]. unfold findOptionToAvoid.
  set (candidates := analysesOf m _ (dominatedOptions dominanceRelations)).
  assert (Hsorted : StronglySorted (fun a b => (oa_rank b <= oa_rank a)%Z)
                      (sort (fun a b : OptionAnalysis R =>
                               (of_Z (oa_rank b) - of_Z (oa_rank a))%js) candidates)).
  { apply sort_sorted.
    - intros x y z Hxy Hyz. lia.
    - intros x y Hswap. cbn [ltb sub of_Z Exact.number] in Hswap.
      apply Rltb_true in Hswap. apply le_IZR. lra.
    - intros x y Hkeep. cbn [ltb sub of_Z Exact.number] in Hkeep.
      apply Rltb_false in Hkeep. apply le_IZR. lra. }
  destruct (sort _ candidates) as [|a rest] eqn:Esort; [discriminate|].
  intros [= <-]. cbn [rec_optionId]. exists a.
  assert (Hin : In a candidates).
  { apply (sort_In (fun a b : OptionAnalysis R =>
                      (of_Z (oa_rank b) - of_Z (oa_rank a))%js)).
    rewrite Esort. now left. }
  apply analysesOf_kept in Hin as (id0 & _ & Hget0 & _).
  split; [now rewrite (Hkeys id0 a (get_In _ _ Hget0))|].
  intros id a' Hid Hget Hweak.
  apply (@head_of_sorted _ (fun a b => (oa_rank b <= oa_rank a)%Z) a rest a');
    [intros z; lia|exact Hsorted|].
  rewrite <- Esort. apply sort_In. apply analysesOf_kept. exists id.
  split; [exact Hid|]. split; [exact Hget|]. now apply Nat.leb_le.
Qed.
End ExactPicks.

(** X30: which option the compromise and the warning pick, in exact
    arithmetic.  The compromise is the best ranked of the options on the
    Pareto frontier that are not ranked first; the option to avoid is the
    worst ranked of the dominated options with two weaknesses or more. *)
Theorem compromise_best_and_avoid_worst
    (scoringResult : ScoringResult R) (options : list (Option R))
    (constraints : list (Constraint R)) (analysis : TradeOffAnalysis R)
    (rec : Recommendation R) :
  analyzeTradeOffs scoringResult options constraints = Success analysis ->
  In rec (recommendations analysis) ->
  exists a, JSMap.get (optionAnalyses analysis) (rec_optionId rec) = Some a /\
    forall id a', JSMap.get (optionAnalyses analysis) id = Some a' ->
      (rec_type rec = compromise ->
       In id (paretoFrontier (dominanceRelations analysis)) ->
       (1 < oa_rank a')%Z -> (oa_rank a <= oa_rank a')%Z) /\
      (rec_type rec = avoid ->
       In id (dominatedOptions (dominanceRelations analysis)) ->
       (2 <= List.length (oa_weaknesses a'))%nat -> (oa_rank a' <= oa_rank a)%Z).
Proof.
  intros Ha Hrec. apply analyzeTradeOffs_success_inv in Ha as [_ ->].
  cbn [recommendations optionAnalyses dominanceRelations] in *.
  pose proof (wellKeyed_generateOptionAnalyses scoringResult options constraints)
    as Hkeyed.
  set (m := generateOptionAnalyses scoringResult options constraints) in *.
  set (d := findDominantOptions options constraints scoringResult) in *.
  unfold generateRecommendations in Hrec.
  apply in_app_or in Hrec as [Hrec|Hrec]; [|apply in_app_or in Hrec as [Hrec|Hrec]].
  - destruct (findBestOverallOption m) as [rb|] eqn:E; [|contradiction].
    destruct Hrec as [<-|[]].
    destruct (@findBestOverallOption_least R _ m rb Hkeyed E) as (Hkind & a & Hget & _).
    exists a. split; [exact Hget|]. intros id a' _. split; congruence.
  - destruct (findCompromiseOption m d) as [rc|] eqn:E; [|contradiction].
    destruct Hrec as [<-|[]].
    destruct (@findCompromiseOption_kind R _ m d rc Hkeyed E) as (Hkind & _).
    destruct (@findCompromiseOption_least m d rc Hkeyed E) as (a & Hget & Hleast).
    exists a. split; [exact Hget|]. intros id a' Hget'. split; [|congruence].
    intros _ Hid Hrank. now apply (Hleast id).
  - destruct (findOptionToAvoid m d) as [ra|] eqn:E; [|contradiction].
    destruct Hrec as [<-|[]].
    destruct (@findOptionToAvoid_kind R _ m d ra Hkeyed E) as (Hkind & _).
    destruct (@findOptionToAvoid_greatest m d ra Hkeyed E) as (a & Hget & Hgreatest).
    exists a. split; [exact Hget|]. intros id a' Hget'. split; [congruence|].
    intros _ Hid Hweak. now apply (Hgreatest id).
Qed.

Lemma compromise_best_and_avoid_worst_witness :
  exists analysis : TradeOffAnalysis R,
    analyzeTradeOffs ExactScenario.scoring ExactScenario.alternatives
                     ExactScenario.criteria = Success analysis /\
    forall rec, In rec (recommendations analysis) ->
      exists a, JSMap.get (optionAnalyses analysis) (rec_optionId rec) = Some a.
Proof.
  eexists. split; [reflexivity|]. intros rec Hrec.
  destruct (@compromise_best_and_avoid_worst ExactScenario.scoring
              ExactScenario.alternatives ExactScenario.criteria _ rec eq_refl Hrec)
    as (a & Hget & _).
  now exists a.
Defined.
